(** * GoCreeper: a shallow embedding of the crawl engine

  The development follows the Go sources of the repository:
  - [crawler/crawler.go]: [CrawlResult], [Crawler], [worker],
    [processURL], [getContentType];
  - [crawler/client.go]: [NewClient] (redirect policy), [Get],
    [IsInScope];
  - [crawler/parser.go]: [NewParser], [ExtractURLs], [ExtractCSSURLs],
    [ExtractJSURLs], [normalizeURL], [getAttr];
  - [main.go]: the header flag of [main] and [outputTree].

  Go strings are byte sequences; they are embedded as [string] (a list of
  8-bit [ascii] characters, whose numeric value is [N_of_ascii]).  Go [int] values are embedded as [Z]. *)

From Stdlib Require Import ZArith Ascii String List Bool Lia DecimalString.
From stdpp Require Import base tactics option list gmap strings sorting.

Local Open Scope string_scope.
Local Open Scope Z_scope.

(* [simpl] unfolds string concatenation on a constructor, as in the
   Standard Library. *)
#[local] Arguments String.append : simpl nomatch.

(** ** The [strings] package of Go, as far as the sources use it *)

Module strings.

(** [strings.HasPrefix(s, prefix)] *)
Definition HasPrefix (s pre : string) : bool := String.prefix pre s.

(** [strings.Contains(s, substr)]: some suffix of [s] starts with
    [substr]. *)
Fixpoint Contains (s sub : string) : bool :=
  HasPrefix s sub ||
  match s with
  | EmptyString => false
  | String _ s' => Contains s' sub
  end.

(** [strings.IndexByte(s, c)], with [None] for Go's [-1]. *)
Fixpoint IndexByte (s : string) (c : ascii) : option nat :=
  match s with
  | EmptyString => None
  | String a s' =>
      if Ascii.eqb a c then Some O
      else option_map S (IndexByte s' c)
  end.

(** [strings.Index(s, substr)], with [None] for Go's [-1]. *)
Fixpoint Index (s sub : string) : option nat :=
  if HasPrefix s sub then Some O
  else match s with
       | EmptyString => None
       | String _ s' => option_map S (Index s' sub)
       end.

(** [strings.LastIndexByte(s, c)], with [None] for Go's [-1]. *)
Fixpoint LastIndexByte (s : string) (c : ascii) : option nat :=
  match s with
  | EmptyString => None
  | String a s' =>
      match LastIndexByte s' c with
      | Some i => Some (S i)
      | None => if Ascii.eqb a c then Some O else None
      end
  end.

(** [s[:i]] and [s[i:]] for [i <= len(s)]. *)
Fixpoint take (i : nat) (s : string) : string :=
  match i, s with
  | S i', String a s' => String a (take i' s')
  | _, _ => EmptyString
  end.

Fixpoint drop (i : nat) (s : string) : string :=
  match i, s with
  | S i', String _ s' => drop i' s'
  | _, _ => s
  end.

(** [strings.Cut(s, sep)] for a one-byte separator: the text before and
    after the first [sep], and whether [sep] was found. *)
Definition Cut (s : string) (sep : ascii) : string * string * bool :=
  match IndexByte s sep with
  | Some i => (take i s, drop (S i) s, true)
  | None => (s, EmptyString, false)
  end.

(** [strings.Count(s, sep)] for a one-byte separator. *)
Fixpoint Count (s : string) (c : ascii) : nat :=
  match s with
  | EmptyString => O
  | String a s' => ((if Ascii.eqb a c then 1 else 0) + Count s' c)%nat
  end.

(** [strings.HasSuffix(s, suffix)] for a one-byte suffix. *)
Fixpoint HasSuffixByte (s : string) (c : ascii) : bool :=
  match s with
  | EmptyString => false
  | String a EmptyString => Ascii.eqb a c
  | String _ s' => HasSuffixByte s' c
  end.

(** [s[:len(s)-1]] *)
Fixpoint dropLast (s : string) : string :=
  match s with
  | EmptyString => EmptyString
  | String _ EmptyString => EmptyString
  | String a s' => String a (dropLast s')
  end.

Definition isUpper (c : ascii) : bool :=
  (65 <=? N_of_ascii c)%N && (N_of_ascii c <=? 90)%N.

Definition lowerByte (c : ascii) : ascii :=
  if isUpper c then ascii_of_N (N_of_ascii c + 32) else c.

(** [strings.ToLower] on ASCII text (the only use is on URL schemes,
    which consist of ASCII letters, digits, [+], [-] and [.]). *)
Fixpoint ToLower (s : string) : string :=
  match s with
  | EmptyString => EmptyString
  | String a s' => String (lowerByte a) (ToLower s')
  end.

(** [strings.Split(s, "/")]-style splitting at every [sep]. *)
Fixpoint Split (s : string) (sep : ascii) : list string :=
  match s with
  | EmptyString => [EmptyString]
  | String a s' =>
      if Ascii.eqb a sep then EmptyString :: Split s' sep
      else match Split s' sep with
           | x :: xs => String a x :: xs
           | [] => [String a EmptyString]
           end
  end.

End strings.

(** ** The [net/url] package of the Go standard library

    [parser.go] and [client.go] rely on [url.Parse], [URL.String],
    [URL.IsAbs], [URL.Hostname] and [URL.ResolveReference].  The package is
    not part of the repository; it is transcribed here function by function
    from the standard library (Go 1.21), so that the repository's code can
    be evaluated on concrete inputs. *)

Module url.

Inductive encoding : Set :=
| encodePath | encodePathSegment | encodeHost | encodeZone
| encodeUserPassword | encodeQueryComponent | encodeFragment.

Definition encoding_eqb (a b : encoding) : bool :=
  match a, b with
  | encodePath, encodePath | encodePathSegment, encodePathSegment
  | encodeHost, encodeHost | encodeZone, encodeZone
  | encodeUserPassword, encodeUserPassword
  | encodeQueryComponent, encodeQueryComponent
  | encodeFragment, encodeFragment => true
  | _, _ => false
  end.

(** [lo <= c && c <= hi] on bytes. *)
Definition between (lo hi c : ascii) : bool :=
  (N_of_ascii lo <=? N_of_ascii c)%N && (N_of_ascii c <=? N_of_ascii hi)%N.

Definition isAlpha (c : ascii) : bool := between "a" "z" c || between "A" "Z" c.
Definition isDigit (c : ascii) : bool := between "0" "9" c.

(** The double-quote byte. *)
Definition dquote : ascii := "034"%char.

(** [c] is one of the bytes of [set] (a Go [switch c { case ... }]). *)
Definition oneOf (set : string) (c : ascii) : bool :=
  match strings.IndexByte set c with Some _ => true | None => false end.

Definition nonEmpty (s : string) : bool := negb (String.eqb s EmptyString).

Definition ishex (c : ascii) : bool :=
  isDigit c || between "a" "f" c || between "A" "F" c.

Definition unhex (c : ascii) : N :=
  if isDigit c then (N_of_ascii c - 48)%N
  else if between "a" "f" c then (N_of_ascii c - 97 + 10)%N
  else if between "A" "F" c then (N_of_ascii c - 65 + 10)%N
  else 0%N.

(** [upperhex[n]] for [n < 16]. *)
Definition upperhex (n : N) : ascii :=
  match String.get (N.to_nat n) "0123456789ABCDEF" with
  | Some c => c
  | None => "0"%char
  end.

(** [shouldEscape] reports whether the byte must be escaped in the given
    part of a URL. *)
Definition shouldEscape (c : ascii) (mode : encoding) : bool :=
  if isAlpha c || isDigit c then false
  else if (encoding_eqb mode encodeHost || encoding_eqb mode encodeZone)
          && (oneOf "!$&'()*+,;=:[]<>" c || Ascii.eqb c dquote) then false
  else if oneOf "-_.~" c then false
  else if oneOf "$&+,/:;=?@" c then
    match mode with
    | encodePath => Ascii.eqb c "?"
    | encodePathSegment => oneOf "/;,?" c
    | encodeUserPassword => oneOf "@/?:" c
    | encodeQueryComponent => true
    | encodeFragment => false
    | encodeHost | encodeZone => true
    end
  else if encoding_eqb mode encodeFragment && oneOf "!()*" c then false
  else true.

(** [unescape]: a [%XX] triple is decoded, [+] becomes a space in a query
    component; [None] stands for an [EscapeError] or [InvalidHostError]. *)
Fixpoint unescape (s : string) (mode : encoding) : option string :=
  match s with
  | EmptyString => Some EmptyString
  | String c rest =>
      if Ascii.eqb c "%" then
        match rest with
        | String h1 (String h2 rest') =>
            let is25 := Ascii.eqb h1 "2" && Ascii.eqb h2 "5" in
            let v := ascii_of_N (unhex h1 * 16 + unhex h2) in
            if negb (ishex h1 && ishex h2) then None
            else if encoding_eqb mode encodeHost && (unhex h1 <? 8)%N && negb is25
            then None
            else if encoding_eqb mode encodeZone && negb is25
                    && negb (Ascii.eqb v " ") && shouldEscape v encodeHost
            then None
            else option_map (String v) (unescape rest' mode)
        | _ => None
        end
      else if Ascii.eqb c "+" then
        option_map
          (String (if encoding_eqb mode encodeQueryComponent then " "%char else "+"%char))
          (unescape rest mode)
      else if (encoding_eqb mode encodeHost || encoding_eqb mode encodeZone)
              && (N_of_ascii c <? 128)%N && shouldEscape c encodeHost
      then None
      else option_map (String c) (unescape rest mode)
  end.

(** [escape]: every byte for which [shouldEscape] holds becomes [%XX]
    (a space becomes [+] in a query component). *)
Fixpoint escape (s : string) (mode : encoding) : string :=
  match s with
  | EmptyString => EmptyString
  | String c rest =>
      if shouldEscape c mode then
        if Ascii.eqb c " " && encoding_eqb mode encodeQueryComponent
        then String "+" (escape rest mode)
        else String "%" (String (upperhex (N_of_ascii c / 16))
                           (String (upperhex (N_of_ascii c mod 16))
                              (escape rest mode)))
      else String c (escape rest mode)
  end.

(** [validEncoded] reports whether [s] is a valid encoded path or
    fragment. *)
Fixpoint validEncoded (s : string) (mode : encoding) : bool :=
  match s with
  | EmptyString => true
  | String c rest =>
      (oneOf "!$&'()*+,;=:@[]%" c || negb (shouldEscape c mode))
      && validEncoded rest mode
  end.

Record Userinfo : Set := mkUserinfo {
  username : string;
  password : string;
  passwordSet : bool
}.

(** The [URL] struct; [User = None] is Go's nil [*Userinfo]. *)
Record URL : Set := mkURL {
  Scheme : string;
  Opaque : string;
  User : option Userinfo;
  Host : string;
  Path : string;
  RawPath : string;
  OmitHost : bool;
  ForceQuery : bool;
  RawQuery : string;
  Fragment : string;
  RawFragment : string
}.

(** [new(URL)]: the zero value. *)
Definition zeroURL : URL :=
  mkURL EmptyString EmptyString None EmptyString EmptyString EmptyString
        false false EmptyString EmptyString EmptyString.

Definition withScheme (u : URL) (v : string) : URL :=
  mkURL v (Opaque u) (User u) (Host u) (Path u) (RawPath u) (OmitHost u)
        (ForceQuery u) (RawQuery u) (Fragment u) (RawFragment u).
Definition withOpaque (u : URL) (v : string) : URL :=
  mkURL (Scheme u) v (User u) (Host u) (Path u) (RawPath u) (OmitHost u)
        (ForceQuery u) (RawQuery u) (Fragment u) (RawFragment u).
Definition withAuthority (u : URL) (usr : option Userinfo) (h : string) : URL :=
  mkURL (Scheme u) (Opaque u) usr h (Path u) (RawPath u) (OmitHost u)
        (ForceQuery u) (RawQuery u) (Fragment u) (RawFragment u).
Definition withPaths (u : URL) (p rp : string) : URL :=
  mkURL (Scheme u) (Opaque u) (User u) (Host u) p rp (OmitHost u)
        (ForceQuery u) (RawQuery u) (Fragment u) (RawFragment u).
Definition withOmitHost (u : URL) (b : bool) : URL :=
  mkURL (Scheme u) (Opaque u) (User u) (Host u) (Path u) (RawPath u) b
        (ForceQuery u) (RawQuery u) (Fragment u) (RawFragment u).
Definition withQuery (u : URL) (force : bool) (q : string) : URL :=
  mkURL (Scheme u) (Opaque u) (User u) (Host u) (Path u) (RawPath u)
        (OmitHost u) force q (Fragment u) (RawFragment u).
Definition withFragments (u : URL) (f rf : string) : URL :=
  mkURL (Scheme u) (Opaque u) (User u) (Host u) (Path u) (RawPath u)
        (OmitHost u) (ForceQuery u) (RawQuery u) f rf.

(** The repository's [parsedURL.Fragment = ""] assignment: only the
    [Fragment] field changes. *)
Definition withFragment (u : URL) (f : string) : URL :=
  withFragments u f (RawFragment u).

(** [stringContainsCTLByte] *)
Fixpoint stringContainsCTLByte (s : string) : bool :=
  match s with
  | EmptyString => false
  | String b rest =>
      (N_of_ascii b <? 32)%N || (N_of_ascii b =? 127)%N
      || stringContainsCTLByte rest
  end.

(** [getScheme]: [(scheme, path)], or [None] for the error
    [missing protocol scheme]. *)
Fixpoint getSchemeFrom (rawURL : string) (i : nat) (s : string)
  : option (string * string) :=
  match s with
  | EmptyString => Some (EmptyString, rawURL)
  | String c s' =>
      if isAlpha c then getSchemeFrom rawURL (S i) s'
      else if isDigit c || oneOf "+-." c then
        match i with
        | O => Some (EmptyString, rawURL)
        | _ => getSchemeFrom rawURL (S i) s'
        end
      else if Ascii.eqb c ":" then
        match i with
        | O => None
        | _ => Some (strings.take i rawURL, s')
        end
      else Some (EmptyString, rawURL)
  end.

Definition getScheme (rawURL : string) : option (string * string) :=
  getSchemeFrom rawURL O rawURL.

(** [validOptionalPort]: [port] is empty or [:] followed by digits. *)
Fixpoint allDigits (s : string) : bool :=
  match s with
  | EmptyString => true
  | String b rest => isDigit b && allDigits rest
  end.

Definition validOptionalPort (port : string) : bool :=
  match port with
  | EmptyString => true
  | String c rest => Ascii.eqb c ":" && allDigits rest
  end.

(** [validUserinfo] *)
Fixpoint validUserinfo (s : string) : bool :=
  match s with
  | EmptyString => true
  | String r rest =>
      (isAlpha r || isDigit r || oneOf "-._:~!$&'()*+,;=%@" r)
      && validUserinfo rest
  end.

(** [parseHost] *)
Definition parseHost (host : string) : option string :=
  let plain := unescape host encodeHost in
  if strings.HasPrefix host "[" then
    match strings.LastIndexByte host "]" with
    | None => None
    | Some i =>
        if negb (validOptionalPort (strings.drop (S i) host)) then None
        else
          match strings.Index (strings.take i host) "%25" with
          | Some zone =>
              match unescape (strings.take zone host) encodeHost,
                    unescape (strings.drop zone (strings.take i host)) encodeZone,
                    unescape (strings.drop i host) encodeHost with
              | Some host1, Some host2, Some host3 => Some (host1 ++ host2 ++ host3)
              | _, _, _ => None
              end
          | None => plain
          end
    end
  else
    match strings.LastIndexByte host ":" with
    | Some i =>
        if negb (validOptionalPort (strings.drop i host)) then None else plain
    | None => plain
    end.

(** [parseAuthority] *)
Definition parseAuthority (authority : string)
  : option (option Userinfo * string) :=
  match strings.LastIndexByte authority "@" with
  | None =>
      match parseHost authority with
      | Some host => Some (None, host)
      | None => None
      end
  | Some i =>
      match parseHost (strings.drop (S i) authority) with
      | None => None
      | Some host =>
          let userinfo := strings.take i authority in
          if negb (validUserinfo userinfo) then None
          else if negb (strings.Contains userinfo ":") then
            match unescape userinfo encodeUserPassword with
            | Some usr => Some (Some (mkUserinfo usr EmptyString false), host)
            | None => None
            end
          else
            let '(usr, pwd, _) := strings.Cut userinfo ":" in
            match unescape usr encodeUserPassword,
                  unescape pwd encodeUserPassword with
            | Some usr', Some pwd' => Some (Some (mkUserinfo usr' pwd' true), host)
            | _, _ => None
            end
      end
  end.

(** [URL.setPath] *)
Definition setPath (u : URL) (p : string) : option URL :=
  match unescape p encodePath with
  | None => None
  | Some path =>
      if String.eqb p (escape path encodePath)
      then Some (withPaths u path EmptyString)
      else Some (withPaths u path p)
  end.

(** [URL.setFragment] *)
Definition setFragment (u : URL) (f : string) : option URL :=
  match unescape f encodeFragment with
  | None => None
  | Some frag =>
      if String.eqb f (escape frag encodeFragment)
      then Some (withFragments u frag EmptyString)
      else Some (withFragments u frag f)
  end.

(** [parse], the query: a single trailing question mark sets [ForceQuery],
    otherwise the text is cut at the first question mark.  The result is
    the rest, [ForceQuery] and [RawQuery]. *)
Definition cutQuery (rest : string) : string * bool * string :=
  if strings.HasSuffixByte rest "?" && (strings.Count rest "?" =? 1)%nat
  then (strings.dropLast rest, true, EmptyString)
  else let '(r, q, _) := strings.Cut rest "?" in (r, false, q).

(** [parse], the authority and the path: what follows the check of the
    first path segment. *)
Definition parseHier (url : URL) (rest : string) (viaRequest : bool)
  : option URL :=
  let parsed :=
    if (nonEmpty (Scheme url)
        || negb viaRequest && negb (strings.HasPrefix rest "///"))
       && strings.HasPrefix rest "//"
    then
      let authority := strings.drop 2 rest in
      let '(authority, rest') :=
        match strings.IndexByte authority "/" with
        | Some i => (strings.take i authority, strings.drop i authority)
        | None => (authority, EmptyString)
        end in
      match parseAuthority authority with
      | Some (usr, host) => Some (rest', withAuthority url usr host)
      | None => None
      end
    else if nonEmpty (Scheme url) && strings.HasPrefix rest "/"
    then Some (rest, withOmitHost url true)
    else Some (rest, url) in
  (* Set Path and, optionally, RawPath. *)
  match parsed with
  | Some (rest, url) => setPath url rest
  | None => None
  end.

(** [parse(rawURL, viaRequest)] *)
Definition parse (rawURL : string) (viaRequest : bool) : option URL :=
  if stringContainsCTLByte rawURL then None
  else if String.eqb rawURL EmptyString && viaRequest then None
  else if String.eqb rawURL "*" then Some (withPaths zeroURL "*" EmptyString)
  else
    (* Split off possible leading "http:", "mailto:", etc. *)
    match getScheme rawURL with
    | None => None
    | Some (scheme, rest) =>
        let '(rest, force, query) := cutQuery rest in
        let url := withQuery (withScheme zeroURL (strings.ToLower scheme))
                             force query in
        if strings.HasPrefix rest "/" then parseHier url rest viaRequest
        else if nonEmpty (Scheme url) then
          (* We consider rootless paths per RFC 3986 as opaque. *)
          Some (withOpaque url rest)
        else if viaRequest then None
        else if strings.Contains (strings.Cut rest "/").1.1 ":" then
          (* First path segment has colon. Not allowed in relative URL. *)
          None
        else parseHier url rest viaRequest
    end.

(** [url.Parse]: [None] stands for a non-nil error. *)
Definition Parse (rawURL : string) : option URL :=
  let '(u, frag, _) := strings.Cut rawURL "#" in
  match parse u false with
  | None => None
  | Some url =>
      if String.eqb frag EmptyString then Some url else setFragment url frag
  end.

(** [URL.EscapedPath] *)
Definition EscapedPath (u : URL) : string :=
  let viaRaw :=
    if nonEmpty (RawPath u) && validEncoded (RawPath u) encodePath then
      match unescape (RawPath u) encodePath with
      | Some p => String.eqb p (Path u)
      | None => false
      end
    else false in
  if viaRaw then RawPath u
  else if String.eqb (Path u) "*" then "*"
  else escape (Path u) encodePath.

(** [URL.EscapedFragment] *)
Definition EscapedFragment (u : URL) : string :=
  let viaRaw :=
    if nonEmpty (RawFragment u) && validEncoded (RawFragment u) encodeFragment then
      match unescape (RawFragment u) encodeFragment with
      | Some f => String.eqb f (Fragment u)
      | None => false
      end
    else false in
  if viaRaw then RawFragment u else escape (Fragment u) encodeFragment.

(** [Userinfo.String] *)
Definition Userinfo_String (ui : Userinfo) : string :=
  escape (username ui) encodeUserPassword
  ++ (if passwordSet ui then ":" ++ escape (password ui) encodeUserPassword
      else EmptyString).

Definition isSome {A} (o : option A) : bool :=
  match o with Some _ => true | None => false end.

(** [URL.String] *)
Definition URL_String (u : URL) : string :=
  let buf := if nonEmpty (Scheme u) then Scheme u ++ ":" else EmptyString in
  let buf :=
    if nonEmpty (Opaque u) then buf ++ Opaque u
    else
      let buf :=
        if nonEmpty (Scheme u) || nonEmpty (Host u) || isSome (User u) then
          if OmitHost u && negb (nonEmpty (Host u)) && negb (isSome (User u))
          then buf
          else
            buf
            ++ (if nonEmpty (Host u) || nonEmpty (Path u) || isSome (User u)
                then "//" else EmptyString)
            ++ (match User u with
                | Some ui => Userinfo_String ui ++ "@"
                | None => EmptyString
                end)
            ++ (if nonEmpty (Host u) then escape (Host u) encodeHost
                else EmptyString)
        else buf in
      let path := EscapedPath u in
      let buf :=
        if nonEmpty path && negb (strings.HasPrefix path "/") && nonEmpty (Host u)
        then buf ++ "/" else buf in
      let buf :=
        if negb (nonEmpty buf) && strings.Contains (strings.Cut path "/").1.1 ":"
        then buf ++ "./" else buf in
      buf ++ path in
  let buf :=
    if ForceQuery u || nonEmpty (RawQuery u) then buf ++ "?" ++ RawQuery u
    else buf in
  if nonEmpty (Fragment u) then buf ++ "#" ++ EscapedFragment u else buf.

(** [URL.IsAbs] *)
Definition IsAbs (u : URL) : bool := nonEmpty (Scheme u).

(** [splitHostPort] and [URL.Hostname] *)
Definition splitHostPort (hostPort : string) : string * string :=
  let '(host, port) :=
    match strings.LastIndexByte hostPort ":" with
    | Some colon =>
        if validOptionalPort (strings.drop colon hostPort)
        then (strings.take colon hostPort, strings.drop (S colon) hostPort)
        else (hostPort, EmptyString)
    | None => (hostPort, EmptyString)
    end in
  if strings.HasPrefix host "[" && strings.HasSuffixByte host "]"
  then (strings.dropLast (strings.drop 1 host), port)
  else (host, port).

Definition Hostname (u : URL) : string := (splitHostPort (Host u)).1.

(** [resolvePath]: one round of the loop over the [/]-separated elements
    of [full]; the state is the builder [dst] and the flag [first]. *)
Definition resolveElem (st : string * bool) (elem : string) : string * bool :=
  let '(dst, first) := st in
  if String.eqb elem "." then (dst, false)
  else if String.eqb elem ".." then
    let str := strings.drop 1 dst in
    match strings.LastIndexByte str "/" with
    | None => ("/", true)
    | Some index => ("/" ++ strings.take index str, first)
    end
  else ((if first then dst else dst ++ "/") ++ elem, false).

Definition resolvePath (base ref : string) : string :=
  let full :=
    match ref with
    | EmptyString => base
    | String c _ =>
        if Ascii.eqb c "/" then ref
        else
          match strings.LastIndexByte base "/" with
          | Some i => strings.take (S i) base ++ ref
          | None => ref
          end
    end in
  if String.eqb full EmptyString then EmptyString
  else
    let elems := strings.Split full "/" in
    let dst := (fold_left resolveElem elems ("/", true)).1 in
    let elem := List.last elems EmptyString in
    let r := if String.eqb elem "." || String.eqb elem ".." then dst ++ "/" else dst in
    match r with
    | String _ (String c _ as r') => if Ascii.eqb c "/" then r' else r
    | _ => r
    end.

(** [URL.ResolveReference]; the error of [setPath] is ignored, as in Go. *)
Definition setPathIgnore (u : URL) (p : string) : URL :=
  match setPath u p with Some u' => u' | None => u end.

Definition ResolveReference (u ref : URL) : URL :=
  let url := if nonEmpty (Scheme ref) then ref else withScheme ref (Scheme u) in
  if nonEmpty (Scheme ref) || nonEmpty (Host ref) || isSome (User ref) then
    setPathIgnore url (resolvePath (EscapedPath ref) EmptyString)
  else if nonEmpty (Opaque ref) then
    withPaths (withAuthority url None EmptyString) EmptyString (RawPath url)
  else
    let url :=
      if negb (nonEmpty (Path ref)) && negb (ForceQuery ref)
         && negb (nonEmpty (RawQuery ref))
      then
        let url := withQuery url (ForceQuery url) (RawQuery u) in
        if nonEmpty (Fragment ref) then url
        else withFragments url (Fragment u) (RawFragment u)
      else url in
    if negb (nonEmpty (Path ref)) && nonEmpty (Opaque u) then
      withPaths (withAuthority (withOpaque url (Opaque u)) None EmptyString)
                EmptyString (RawPath url)
    else
      setPathIgnore (withAuthority url (User u) (Host u))
                    (resolvePath (EscapedPath u) (EscapedPath ref)).

End url.
(** ** [golang.org/x/net/html]: the parsed document *)

Module html.

Inductive NodeType : Set :=
| ErrorNode | TextNode | DocumentNode | ElementNode | CommentNode | DoctypeNode.

Record Attribute : Set := mkAttribute { Key : string; Val : string }.

(** A node with its children in sibling order ([FirstChild], then
    [NextSibling] repeatedly). *)
#[warnings="-register-all"]
Inductive Node : Set :=
| mkNode (Type_ : NodeType) (Data : string) (Attr : list Attribute)
         (children : list Node).

Definition isElement (t : NodeType) : bool :=
  match t with ElementNode => true | _ => false end.

End html.

(** ** [regexp]: the patterns of [parser.go]

    Go's [regexp] returns the leftmost match that a backtracking search
    finds first.  The matcher below is such a search, for the operators the
    patterns of [parser.go] use. *)

Module regexp.

Inductive Regexp : Type :=
| Lit (s : string)                 (* literal text *)
| Class (p : ascii -> bool)        (* one byte of a class *)
| Opt (r : Regexp)                 (* [r?] *)
| Star (p : ascii -> bool)         (* [c*] for a class c *)
| Plus (p : ascii -> bool)         (* [c+] for a class c *)
| Alt (r1 r2 : Regexp)             (* [r1|r2] *)
| Seq (r1 r2 : Regexp)             (* [r1 r2] *)
| Group (r : Regexp).              (* the capturing group [(r)] *)

(** Greedy repetition of a class: the longest run first, then shorter
    ones. *)
Fixpoint starK {A} (p : ascii -> bool) (s : string) (k : string -> option A)
  : option A :=
  match s with
  | String c s' =>
      if p c then
        match starK p s' k with
        | Some x => Some x
        | None => k s
        end
      else k s
  | EmptyString => k s
  end.

(** [matchK r s cap k]: match [r] at the start of [s], then continue with
    [k] on the rest of the text and the text of the capturing group. *)
Fixpoint matchK {A} (r : Regexp) (s : string) (cap : string)
    (k : string -> string -> option A) : option A :=
  match r with
  | Lit l =>
      if strings.HasPrefix s l then k (strings.drop (String.length l) s) cap
      else None
  | Class p =>
      match s with
      | String c s' => if p c then k s' cap else None
      | EmptyString => None
      end
  | Opt r1 =>
      match matchK r1 s cap k with
      | Some x => Some x
      | None => k s cap
      end
  | Star p => starK p s (fun s' => k s' cap)
  | Plus p =>
      match s with
      | String c s' => if p c then starK p s' (fun s'' => k s'' cap) else None
      | EmptyString => None
      end
  | Alt r1 r2 =>
      match matchK r1 s cap k with
      | Some x => Some x
      | None => matchK r2 s cap k
      end
  | Seq r1 r2 => matchK r1 s cap (fun s' cap' => matchK r2 s' cap' k)
  | Group r1 =>
      matchK r1 s cap
        (fun s' _ => k s' (strings.take (String.length s - String.length s') s))
  end.

(** The match starting at the first byte of [s], if any: the rest of the
    text and the submatch of the group. *)
Definition matchHere (r : Regexp) (s : string) : option (string * string) :=
  matchK r s EmptyString (fun s' cap => Some (s', cap)).

(** [FindAllStringSubmatch(s, -1)], reduced to the submatch [match[1]] of
    every match: successive non-overlapping matches, left to right. *)
Fixpoint findAllFrom (fuel : nat) (r : Regexp) (s : string) : list string :=
  match fuel with
  | O => []
  | S fuel' =>
      match matchHere r s with
      | Some (s', cap) =>
          if (String.length s' <? String.length s)%nat
          then cap :: findAllFrom fuel' r s'
          else match s with
               | String _ t => cap :: findAllFrom fuel' r t
               | EmptyString => [cap]
               end
      | None =>
          match s with
          | String _ t => findAllFrom fuel' r t
          | EmptyString => []
          end
      end
  end.

Definition FindAllStringSubmatch (r : Regexp) (s : string) : list string :=
  findAllFrom (S (String.length s)) r s.

(** Character classes of the patterns. *)
Definition quote (c : ascii) : bool := Ascii.eqb c "'" || Ascii.eqb c url.dquote.
Definition notQuote (c : ascii) : bool := negb (quote c).
Definition notQuoteParen (c : ascii) : bool :=
  negb (quote c || Ascii.eqb c "(" || Ascii.eqb c ")").
(** [\s]: tab, newline, form feed, carriage return, space. *)
Definition space (c : ascii) : bool :=
  match N_of_ascii c with
  | 9%N | 10%N | 12%N | 13%N | 32%N => true
  | _ => false
  end.

End regexp.
(** ** parser.go: the normalizer *)

(** [Parser] handles the extraction of URLs from various content types. *)
Record Parser : Set := mkParser { baseURL : url.URL }.

(** [NewParser] creates a parser; [None] is the error of [url.Parse]. *)
Definition NewParser (baseURL : string) : option Parser :=
  match url.Parse baseURL with
  | None => None
  | Some parsedURL => Some (mkParser parsedURL)
  end.

(** [normalizeURL] converts a relative URL to an absolute URL. *)
Definition normalizeURL (p : Parser) (urlStr : string) : string :=
  if String.eqb urlStr EmptyString then EmptyString
  else
    (* Handle protocol-relative URLs *)
    let urlStr :=
      if strings.HasPrefix urlStr "//"
      then url.Scheme (baseURL p) ++ ":" ++ urlStr
      else urlStr in
    (* Parse the URL *)
    match url.Parse urlStr with
    | None => EmptyString
    | Some parsedURL =>
        (* If the URL is relative, resolve it against the base URL *)
        let parsedURL :=
          if negb (url.IsAbs parsedURL)
          then url.ResolveReference (baseURL p) parsedURL
          else parsedURL in
        (* Clean the URL: remove fragments *)
        url.URL_String (url.withFragment parsedURL EmptyString)
    end.

(** [getAttr] extracts an attribute value from an HTML node. *)
Fixpoint getAttr (attrs : list html.Attribute) (key : string) : string :=
  match attrs with
  | [] => EmptyString
  | attr :: rest =>
      if String.eqb (html.Key attr) key then html.Val attr
      else getAttr rest key
  end.

(** The attribute consulted for an element, by tag name. *)
Definition urlAttr (data : string) : option string :=
  if String.eqb data "a" then Some "href"
  else if String.eqb data "script" then Some "src"
  else if String.eqb data "link" then Some "href"
  else if String.eqb data "img" then Some "src"
  else if String.eqb data "form" then Some "action"
  else None.

(** [extractNode]: the closure of [ExtractURLs]; [urls] is the slice
    being appended to. *)
Fixpoint extractNode (p : Parser) (n : html.Node) (urls : list string)
  : list string :=
  match n with
  | html.mkNode ty data attrs children =>
      let urls :=
        if html.isElement ty then
          match urlAttr data with
          | Some key =>
              let v := getAttr attrs key in
              if negb (String.eqb v EmptyString)
              then (urls ++ [normalizeURL p v])%list
              else urls
          | None => urls
          end
        else urls in
      fold_left (fun urls c => extractNode p c urls) children urls
  end.

(** [ExtractURLs] parses HTML content and extracts all relevant URLs;
    [doc] is the outcome of [html.Parse] on the reader. *)
Definition ExtractURLs (p : Parser) (doc : option html.Node)
  : option (list string) :=
  match doc with
  | None => None
  | Some doc => Some (extractNode p doc [])
  end.

(** The pattern of [ExtractCSSURLs]: the text [url(], an optional quote
    (single or double), the group of one or more bytes that are neither a
    quote nor a parenthesis, an optional quote and [)]. *)
Definition cssPattern : regexp.Regexp :=
  regexp.Seq (regexp.Lit "url(")
    (regexp.Seq (regexp.Opt (regexp.Class regexp.quote))
       (regexp.Seq (regexp.Group (regexp.Plus regexp.notQuoteParen))
          (regexp.Seq (regexp.Opt (regexp.Class regexp.quote)) (regexp.Lit ")")))).

(** [ExtractCSSURLs] extracts URLs from CSS content. *)
Definition ExtractCSSURLs (p : Parser) (content : string) : list string :=
  map (normalizeURL p) (regexp.FindAllStringSubmatch cssPattern content).

(** The four patterns of [ExtractJSURLs]; [quoted] is a quote, the group
    of one or more bytes that are not quotes, and a quote. *)
Definition quoted : regexp.Regexp :=
  regexp.Seq (regexp.Class regexp.quote)
    (regexp.Seq (regexp.Group (regexp.Plus regexp.notQuote))
       (regexp.Class regexp.quote)).

Definition jsPatterns : list regexp.Regexp :=
  [ regexp.Seq (regexp.Lit "fetch(") (regexp.Seq quoted (regexp.Lit ")"));
    regexp.Seq (regexp.Lit ".open(")
      (regexp.Seq (regexp.Class regexp.quote)
         (regexp.Seq (regexp.Alt (regexp.Lit "GET") (regexp.Lit "POST"))
            (regexp.Seq (regexp.Class regexp.quote)
               (regexp.Seq (regexp.Lit ",")
                  (regexp.Seq (regexp.Star regexp.space) quoted)))));
    regexp.Seq (regexp.Lit ".get(") quoted;
    regexp.Seq (regexp.Lit ".post(") quoted ].

(** [ExtractJSURLs] extracts URLs from JavaScript content. *)
Definition ExtractJSURLs (p : Parser) (content : string) : list string :=
  flat_map
    (fun pattern => map (normalizeURL p) (regexp.FindAllStringSubmatch pattern content))
    jsPatterns.
(** ** The [net/http] client, as far as [client.go] configures it *)

Module http.

(** A response as the crawler reads it: the status code, the two headers
    that are consulted and the body ([None]: reading the body fails). *)
Record Response : Set := mkResponse {
  StatusCode : Z;
  ContentType : string;
  Location : string;
  Body : option string
}.

Definition StatusOK : Z := 200.

(** The outcome [(resp, err)] of a call: [Ok resp] has a nil error. *)
Inductive result : Set :=
| Ok (resp : Response)
| Err.

(** [redirectBehavior] for a [GET] request without a body. *)
Definition shouldRedirect (resp : Response) : bool :=
  match StatusCode resp with
  | 301 | 302 | 303 | 307 | 308 => true
  | _ => false
  end.

(** One round trip of the transport: the response of the server to a
    request for the given URL, or [None] for a transport failure. *)
Definition RoundTripper : Set := string -> option Response.

(** [Client.do]: the redirect loop of the standard library.  [reqs] are the
    requests made so far, oldest first, [req] is the URL of the next
    request; [checkRedirect req via] answers [true] for
    [ErrUseLastResponse] and [false] for [nil].  The outcome comes with the
    requests that were sent, oldest first; [None] is returned only when
    [fuel] runs out. *)
Fixpoint do (fuel : nat) (checkRedirect : url.URL -> list url.URL -> bool)
    (send : RoundTripper) (reqs : list url.URL) (req : url.URL)
  : option (result * list url.URL) :=
  match fuel with
  | O => None
  | S fuel' =>
      let reqs := (reqs ++ [req])%list in
      match send (url.URL_String req) with
      | None => Some (Err, reqs)
      | Some resp =>
          if negb (shouldRedirect resp) then Some (Ok resp, reqs)
          else if String.eqb (Location resp) EmptyString then Some (Ok resp, reqs)
          else
            match url.Parse (Location resp) with
            | None => Some (Err, reqs)
            | Some ref =>
                let next := url.ResolveReference req ref in
                if checkRedirect next reqs then Some (Ok resp, reqs)
                else do fuel' checkRedirect send reqs next
            end
      end
  end.

(** [hasPort] reports whether the host has a port: the last colon comes
    after the last closing bracket. *)
Definition hasPort (s : string) : bool :=
  match strings.LastIndexByte s ":", strings.LastIndexByte s "]" with
  | Some colon, Some bracket => (bracket <? colon)%nat
  | Some _, None => true
  | None, _ => false
  end.

(** [removeEmptyPort] strips the colon of an empty port. *)
Definition removeEmptyPort (host : string) : string :=
  if hasPort host then
    (* strings.TrimSuffix(host, ":") *)
    if strings.HasSuffixByte host ":" then strings.dropLast host else host
  else host.

(** [http.NewRequestWithContext] for a [GET] without body: the URL of the
    request, which is the parsed text with the colon of an empty port
    removed from the host; [None] is an error. *)
Definition NewRequest (urlStr : string) : option url.URL :=
  match url.Parse urlStr with
  | None => None
  | Some u =>
      Some (url.withAuthority u (url.User u) (removeEmptyPort (url.Host u)))
  end.

End http.

(** ** client.go *)

(** [ClientConfig] holds the configuration options for the HTTP client
    ([Timeout] is a [time.Duration], in nanoseconds).  The floating-point
    [RequestsPerSecond] only sets the pace of the rate limiter and is left
    out. *)
Record ClientConfig : Set := mkClientConfig {
  cc_Timeout : Z;
  cc_MaxRedirects : Z;
  cc_Headers : list (string * string);
  cc_BaseURL : string
}.

(** [Client]: the HTTP client with its timeout and redirect policy, the
    headers and the base URL.
    The rate limiter only delays calls and is represented by the
    cancellation check of [Get]. *)
Record Client : Set := mkClient {
  Timeout : Z;
  MaxRedirects : Z;
  headers : list (string * string);
  client_baseURL : url.URL
}.

(** The [CheckRedirect] function installed by [NewClient]. *)
Definition CheckRedirect (maxRedirects : Z) (req : url.URL) (via : list url.URL)
  : bool :=
  Z.of_nat (length via) >=? maxRedirects.

(** [NewClient] *)
Definition NewClient (config : ClientConfig) : option Client :=
  match url.Parse (cc_BaseURL config) with
  | None => None
  | Some baseURL =>
      Some (mkClient (cc_Timeout config) (cc_MaxRedirects config)
              (cc_Headers config) baseURL)
  end.

(** Fuel that always suffices for the redirect loop under [CheckRedirect]. *)
Definition redirectFuel (c : Client) : nat := S (Z.to_nat (MaxRedirects c)).

(** [Client.Get]; [ctxDone] tells whether the context is cancelled or past
    its deadline when the rate limiter is asked for a token.  The outcome
    comes with the requests that were sent. *)
Definition Get (c : Client) (ctxDone : bool) (send : http.RoundTripper)
    (urlStr : string) : option (http.result * list url.URL) :=
  (* Wait for rate limiter with the provided context *)
  if ctxDone then Some (http.Err, [])
  else
    (* Parse URL *)
    match url.Parse urlStr with
    | None => Some (http.Err, [])
    | Some reqURL =>
        (* Create request with context *)
        match http.NewRequest (url.URL_String reqURL) with
        | None => Some (http.Err, [])
        | Some req =>
            (* Perform request *)
            http.do (redirectFuel c) (CheckRedirect (MaxRedirects c)) send [] req
        end
    end.

(** [Client.IsInScope] checks if a URL is within the target domain scope. *)
Definition IsInScope (c : Client) (urlStr : string) : bool :=
  match url.Parse urlStr with
  | None => false
  | Some parsedURL =>
      String.eqb (url.Hostname parsedURL) (url.Hostname (client_baseURL c))
  end.
(** ** crawler.go: content-kind classification *)

(** [getContentType] determines the content kind from the [Content-Type]
  header. *)
Definition getContentType (contentType : string) : string :=
if strings.Contains contentType "text/html" then "html"
else if strings.Contains contentType "text/css" then "css"
else if strings.Contains contentType "javascript"
        || strings.Contains contentType "application/javascript"
     then "javascript"
else if strings.Contains contentType "image/" then "image"
else "other".

(** The classification table as the specification words it: the first
    line that applies decides, and the image line asks for a prefix. *)
Definition kindBySpec (contentType : string) : string :=
  if strings.Contains contentType "text/html" then "html"
  else if strings.Contains contentType "text/css" then "css"
  else if strings.Contains contentType "javascript" then "javascript"
  else if strings.HasPrefix contentType "image/" then "image"
  else "other".

(** ** crawler.go: the crawl engine *)

(** [CrawlResult] represents a discovered URL with its metadata
    ([Type_] is the field [Type]). *)
Record CrawlResult : Set := mkCrawlResult {
  URL : string;
  Depth : Z;
  Status : Z;
  Timestamp : Z;
  Type_ : string
}.

(** [CrawlerConfig] holds the configuration options for the crawler. *)
Record CrawlerConfig : Set := mkCrawlerConfig {
  cfg_URL : string;
  cfg_MaxDepth : Z;
  cfg_Workers : Z;
  cfg_Timeout : Z;
  cfg_MaxRedirects : Z;
  cfg_Headers : list (string * string)
}.

(** The fields of [Crawler] that are fixed by [NewCrawler]; [deadline] is
    the deadline of the context [ctx]. *)
Record Crawler : Set := mkCrawler {
  client : Client;
  parser : Parser;
  maxDepth : Z;
  workers : Z;
  deadline : Z
}.

(** [NewCrawler] creates a new crawler instance; [now] is the reading of
    the clock when [context.WithTimeout] is called. *)
Definition NewCrawler (config : CrawlerConfig) (now : Z) : option Crawler :=
  match NewClient (mkClientConfig (cfg_Timeout config) (cfg_MaxRedirects config)
                     (cfg_Headers config) (cfg_URL config)) with
  | None => None
  | Some client =>
      match NewParser (cfg_URL config) with
      | None => None
      | Some parser =>
          (* Create a context with timeout for the entire crawling process *)
          Some (mkCrawler client parser (cfg_MaxDepth config) (cfg_Workers config)
                  (now + cfg_Timeout config))
      end
  end.

(** Go's [int] addition on a 64-bit platform. *)
Definition wrapInt (x : Z) : Z := (x + 2 ^ 63) mod 2 ^ 64 - 2 ^ 63.
Definition addInt (a b : Z) : Z := wrapInt (a + b).

(** The capacity of the [queue] channel. *)
Definition queueCap : nat := 1000.

(** A goroutine is a pool worker (running [worker]) or was started by
    [go c.processURL(newURL, depth+1)]. *)
Inductive Role : Set := Worker | Spawned.

(** Where a goroutine stands in [worker] or [processURL]. *)
Inductive PC : Set :=
| PSelect                                   (* [worker]: at the [select] *)
| PStart (urlStr : string) (depth : Z)      (* entering [processURL] *)
| PFetch (urlStr : string) (depth : Z)      (* checks passed, before [Get] *)
| PEmit (urlStr : string) (depth : Z) (resp : http.Response)
                                            (* before the send on [results] *)
| PFeed (depth : Z) (urls : list string)    (* in a [range urls] loop *)
| PExit.                                    (* the goroutine has returned *)

Record Thread : Set := mkThread { role : Role; pc : PC }.

(** Where a goroutine continues when [processURL] returns. *)
Definition retPC (r : Role) : PC :=
  match r with Worker => PSelect | Spawned => PExit end.

(** The shared state of a run. [results] lists what was sent on the
    results channel and [requests] the GET requests that were sent, with
    the time of the call, both oldest first. *)
Record State : Type := mkState {
  visited : gset string;
  queue : list string;
  queueClosed : bool;
  stopClosed : bool;
  cancelled : bool;
  results : list CrawlResult;
  threads : list Thread;
  clock : Z;
  requests : list (string * Z)
}.

(** The choice of a [select] among its ready cases, and the behaviour of
    the network during a call of [Get]. *)
Inductive Choice : Type :=
| ChCtxDone                          (* [case <-c.ctx.Done()] *)
| ChStop                             (* [case <-c.stopChan] *)
| ChQueue                            (* receive from, or send to, [c.queue] *)
| ChDefault                          (* [default] *)
| ChNet (send : http.RoundTripper)
| ChNone.

Inductive Action : Type :=
| ATick (dt : Z)                     (* time passes *)
| AStop                              (* [Stop] is called *)
| AStep (tid : nat) (ch : Choice).   (* goroutine [tid] takes a step *)

Section Crawl.

(** [html.Parse], from [golang.org/x/net/html], applied to the body text;
    [None] is an error. *)
Variable html_Parse : string -> option html.Node.

Variable c : Crawler.

Definition ctxDone (st : State) : bool :=
  cancelled st || (deadline c <=? clock st).

(** [processURL], lines 130-143: the visited set, the depth limit and the
    scope.  The outcome is the new visited set and whether the URL is to
    be fetched. *)
Definition admission (vis : gset string) (urlStr : string) (depth : Z)
  : gset string * bool :=
  (* Check if we've already visited this URL *)
  if decide (urlStr ∈ vis) then (vis, false)
  else
    let vis := {[urlStr]} ∪ vis in
    (* Check depth limit *)
    if depth >? maxDepth c then (vis, false)
    (* Check if URL is in scope *)
    else if negb (IsInScope (client c) urlStr) then (vis, false)
    else (vis, true).

(** [processURL], lines 153-159: the result record. *)
Definition record (urlStr : string) (depth : Z) (resp : http.Response) (now : Z)
  : CrawlResult :=
  mkCrawlResult urlStr depth (http.StatusCode resp) now
                (getContentType (http.ContentType resp)).

(** [processURL], lines 162-213: the URLs the [range] loops go through. *)
Definition discovered (resp : http.Response) : list string :=
  if http.StatusCode resp =? http.StatusOK then
    match http.Body resp with
    | None => []
    | Some body =>
        let kind := getContentType (http.ContentType resp) in
        if String.eqb kind "html" then
          match ExtractURLs (parser c) (html_Parse body) with
          | Some urls => urls
          | None => []
          end
        else if String.eqb kind "css" then ExtractCSSURLs (parser c) body
        else if String.eqb kind "javascript" then ExtractJSURLs (parser c) body
        else []
    end
  else [].

Definition setThread (st : State) (tid : nat) (t : Thread) : State :=
  mkState (visited st) (queue st) (queueClosed st) (stopClosed st) (cancelled st)
          (results st) (<[tid := t]> (threads st)) (clock st) (requests st).

(** One step of goroutine [tid], which is [th]. *)
Definition stepThread (st : State) (tid : nat) (th : Thread) (ch : Choice)
  : option State :=
  let goto pc' := setThread st tid (mkThread (role th) pc') in
  match pc th, ch with
  (* worker: the select of the loop *)
  | PSelect, ChCtxDone => if ctxDone st then Some (goto PExit) else None
  | PSelect, ChStop => if stopClosed st then Some (goto PExit) else None
  | PSelect, ChQueue =>
      match queue st with
      | urlStr :: rest =>
          Some (mkState (visited st) rest (queueClosed st) (stopClosed st)
                  (cancelled st) (results st)
                  (<[tid := mkThread (role th) (PStart urlStr 0)]> (threads st))
                  (clock st) (requests st))
      | [] => if queueClosed st then Some (goto PExit) else None
      end
  (* processURL: LoadOrStore and the two checks *)
  | PStart urlStr depth, ChNone =>
      let '(vis, ok) := admission (visited st) urlStr depth in
      Some (mkState vis (queue st) (queueClosed st) (stopClosed st)
              (cancelled st) (results st)
              (<[tid := mkThread (role th)
                          (if ok then PFetch urlStr depth else retPC (role th))]>
                 (threads st))
              (clock st) (requests st))
  (* processURL: the fetch *)
  | PFetch urlStr depth, ChNet send =>
      match Get (client c) (ctxDone st) send urlStr with
      | None => None
      | Some (res, reqs) =>
          Some (mkState (visited st) (queue st) (queueClosed st) (stopClosed st)
                  (cancelled st) (results st)
                  (<[tid := mkThread (role th)
                              match res with
                              | http.Ok resp => PEmit urlStr depth resp
                              | http.Err => retPC (role th)
                              end]> (threads st))
                  (clock st)
                  (requests st ++ map (fun r => (url.URL_String r, clock st)) reqs))
      end
  (* processURL: record the result *)
  | PEmit urlStr depth resp, ChNone =>
      Some (mkState (visited st) (queue st) (queueClosed st) (stopClosed st)
              (cancelled st)
              (results st ++ [record urlStr depth resp (clock st)])
              (<[tid := mkThread (role th) (PFeed depth (discovered resp))]>
                 (threads st))
              (clock st) (requests st))
  (* processURL: one round of a range loop *)
  | PFeed depth [], ChNone => Some (goto (retPC (role th)))
  | PFeed depth (newURL :: rest), ChQueue =>
      if (length (queue st) <? queueCap)%nat && negb (queueClosed st) then
        (* Process the new URL at depth + 1 *)
        Some (mkState (visited st) (queue st ++ [newURL]) (queueClosed st)
                (stopClosed st) (cancelled st) (results st)
                (<[tid := mkThread (role th) (PFeed depth rest)]> (threads st)
                 ++ [mkThread Spawned (PStart newURL (addInt depth 1))])
                (clock st) (requests st))
      else None
  | PFeed depth (newURL :: rest), ChCtxDone =>
      if ctxDone st then Some (goto (retPC (role th))) else None
  | PFeed depth (newURL :: rest), ChDefault =>
      (* Queue is full, skip this URL *)
      if negb (length (queue st) <? queueCap)%nat && negb (ctxDone st)
      then Some (goto (PFeed depth rest))
      else None
  | _, _ => None
  end.

(** One step of the run. *)
Definition exec (st : State) (a : Action) : option State :=
  match a with
  | ATick dt =>
      if 0 <? dt then
        Some (mkState (visited st) (queue st) (queueClosed st) (stopClosed st)
                (cancelled st) (results st) (threads st) (clock st + dt)
                (requests st))
      else None
  | AStop =>
      if stopClosed st then None
      else
        Some (mkState (visited st) (queue st) true true true (results st)
                (threads st) (clock st) (requests st))
  | AStep tid ch =>
      match threads st !! tid with
      | Some th => stepThread st tid th ch
      | None => None
      end
  end.

(** [Start]: the worker pool is started and the queue holds the initial
    URL; [now] is the time of the call. *)
Definition Start (now : Z) : State :=
  mkState ∅ [url.URL_String (client_baseURL (client c))] false false false []
          (replicate (Z.to_nat (workers c)) (mkThread Worker PSelect)) now [].

(** A run from [st]: the actions are taken in order. *)
Fixpoint run (st : State) (acts : list Action) : option State :=
  match acts with
  | [] => Some st
  | a :: acts' =>
      match exec st a with
      | Some st' => run st' acts'
      | None => None
      end
  end.

(** The states a crawl run goes through. *)
Inductive Reachable : State -> Prop :=
| R_Start now : Reachable (Start now)
| R_exec st a st' : Reachable st -> exec st a = Some st' -> Reachable st'.

End Crawl.

(** ** Notions used to state the properties of a run *)

(** The URL and depth a goroutine has been inFlight with: it passed the
    checks of [processURL] and has not yet sent its result. *)
Definition inFlight (p : PC) : option (string * Z) :=
  match p with
  | PFetch u d | PEmit u d _ => Some (u, d)
  | _ => None
  end.

(** The depth argument of the call of [processURL] a goroutine is in. *)
Definition pcDepth (p : PC) : option Z :=
  match p with
  | PStart _ d | PFetch _ d | PEmit _ d _ | PFeed d _ => Some d
  | PSelect | PExit => None
  end.

(** The URLs that are being processed or have a result. *)
Definition ownerOf (th : Thread) : list string :=
  match inFlight (pc th) with
  | Some (u, _) => [u]
  | None => []
  end.

Definition claimed (st : State) : list string :=
  (flat_map ownerOf (threads st) ++ map URL (results st))%list.

(** ** Notions used to state the properties of URLs *)

(** Every byte of [s] satisfies [p]. *)
Fixpoint allb (p : ascii -> bool) (s : string) : bool :=
  match s with
  | EmptyString => true
  | String c s' => p c && allb p s'
  end.

(** The byte is not [c]. *)
Definition isNot (c : ascii) (a : ascii) : bool := negb (Ascii.eqb a c).

(** The byte is not an ASCII control character. *)
Definition notCTL (b : ascii) : bool :=
  negb ((N_of_ascii b <? 32)%N || (N_of_ascii b =? 127)%N).

(** The bytes a scheme is made of once it is in lower case. *)
Definition schemeByte (c : ascii) : bool :=
  url.between "a" "z" c || url.isDigit c || url.oneOf "+-." c.

(** A scheme as [url.Parse] stores it: empty, or a lower-case letter
    followed by lower-case letters, digits, [+], [-] and [.]. *)
Definition schemeOK (s : string) : bool :=
  match s with
  | EmptyString => true
  | String c _ => url.between "a" "z" c && allb schemeByte s
  end.

(** The modes in which [unescape] accepts every escaped byte. *)
Definition plainMode (m : url.encoding) : bool :=
  match m with
  | url.encodePath | url.encodePathSegment | url.encodeUserPassword
  | url.encodeFragment => true
  | url.encodeHost | url.encodeZone | url.encodeQueryComponent => false
  end.

(** An upper-case hexadecimal digit. *)
Definition isUpperHex (c : ascii) : bool :=
  url.isDigit c || url.between "A" "F" c.

(** The bytes of a host name that [url.Parse] can have produced outside
    of a zone identifier: a byte above 127, a percent sign, or a byte that
    is left alone in a host. *)
Definition hostByte (c : ascii) : bool :=
  (128 <=? N_of_ascii c)%N || Ascii.eqb c "%"
  || negb (url.shouldEscape c url.encodeHost).

(** The bytes [getScheme] accepts in a scheme. *)
Definition rawSchemeByte (c : ascii) : bool :=
  url.isAlpha c || url.isDigit c || url.oneOf "+-." c.

(** The first byte is a letter. *)
Definition firstAlpha (s : string) : bool :=
  match s with
  | EmptyString => false
  | String c _ => url.isAlpha c
  end.

(** Bytes that [url.Parse] leaves in a query: no control character and no
    number sign. *)
Definition okText (c : ascii) : bool := notCTL c && isNot "#" c.

(** Bytes that [url.Parse] leaves in an opaque part: no question mark
    either. *)
Definition okOpaque (c : ascii) : bool := okText c && isNot "?" c.

(** The string is empty or starts with a slash. *)
Definition rooted (s : string) : bool :=
  match s with
  | EmptyString => true
  | String c _ => Ascii.eqb c "/"
  end.

(** What holds of every URL that [url.Parse] returns, and of every URL
    that [ResolveReference] makes from two such URLs. *)
Record WF (u : url.URL) : Prop := mkWF {
  wf_scheme : schemeOK (url.Scheme u) = true;
  wf_opaque : allb okOpaque (url.Opaque u) = true;
  wf_opaque_rootless : strings.HasPrefix (url.Opaque u) "/" = false;
  wf_opaque_scheme : url.Opaque u <> EmptyString -> url.Scheme u <> EmptyString;
  wf_query : allb okText (url.RawQuery u) = true;
  wf_force : url.ForceQuery u = true -> url.RawQuery u = EmptyString;
  wf_host : exists h0, url.parseHost h0 = Some (url.Host u);
  wf_user : forall ui, url.User u = Some ui ->
                       url.passwordSet ui = false -> url.password ui = EmptyString;
  wf_omit : url.OmitHost u = true ->
            url.Host u = EmptyString /\ url.User u = None
            /\ url.Scheme u <> EmptyString;
  wf_path : url.Scheme u <> EmptyString -> url.Opaque u = EmptyString ->
            rooted (url.Path u) = true /\ rooted (url.RawPath u) = true
}.

(** A host as [url.Parse] stores it when it is not an IP literal: no
    opening bracket in front, host bytes only, and digits after the last
    colon. *)
Definition hostOK (h : string) : Prop :=
  strings.HasPrefix h "[" = false
  /\ allb hostByte h = true
  /\ forall a b, h = a ++ String ":" b -> allb (isNot ":") b = true ->
                 url.allDigits b = true.

(** The bytes [validUserinfo] accepts. *)
Definition userinfoByte (c : ascii) : bool :=
  url.isAlpha c || url.isDigit c || url.oneOf "-._:~!$&'()*+,;=%@" c.

(** The bytes of an escaped user name or password. *)
Definition userByte (c : ascii) : bool :=
  userinfoByte c && isNot "@" c && isNot ":" c && isNot "/" c && okOpaque c.

(** The bytes of an escaped host. *)
Definition authByte (c : ascii) : bool :=
  isNot "@" c && isNot "/" c && okOpaque c.

(** The authority as [URL.String] prints it. *)
Definition printedAuthority (usr : option url.Userinfo) (h : string) : string :=
  match usr with
  | Some ui => url.Userinfo_String ui ++ "@"
  | None => EmptyString
  end ++ url.escape h url.encodeHost.

(** User information as [url.Parse] stores it: no password without the
    flag. *)
Definition userOK (usr : option url.Userinfo) : Prop :=
  forall ui, usr = Some ui ->
             url.passwordSet ui = false -> url.password ui = EmptyString.

(** The parts of what [URL.String] prints for an absolute URL without
    fragment: after the scheme and a colon come the opaque part or the
    authority and the path, and then the query. *)
Definition printedQuery (u : url.URL) : string :=
  if url.ForceQuery u || url.nonEmpty (url.RawQuery u)
  then "?" ++ url.RawQuery u else EmptyString.

Definition printedHier (u : url.URL) : string :=
  (if url.OmitHost u && negb (url.nonEmpty (url.Host u))
      && negb (url.isSome (url.User u))
   then EmptyString
   else (if url.nonEmpty (url.Host u) || url.nonEmpty (url.Path u)
            || url.isSome (url.User u)
         then "//" else EmptyString)
        ++ printedAuthority (url.User u) (url.Host u))
  ++ url.EscapedPath u.

Definition printedBody (u : url.URL) : string :=
  if url.nonEmpty (url.Opaque u) then url.Opaque u else printedHier u.

(** An absolute URL without authority whose printed path starts with two
    slashes: what [URL.String] prints for it reads as a URL with an
    authority. *)
Definition ambiguousRoot (u : url.URL) : bool :=
  url.OmitHost u && strings.HasPrefix (url.EscapedPath u) "//".

(** Every percent sign of the string is followed by two hexadecimal
    digits; [n] is the number of digits still expected at the start. *)
Fixpoint pctFrom (n : nat) (s : string) : bool :=
  match s with
  | EmptyString => match n with O => true | S _ => false end
  | String c r =>
      match n with
      | O => if Ascii.eqb c "%" then pctFrom 2 r else pctFrom 0 r
      | S n' => url.ishex c && pctFrom n' r
      end
  end.

Definition pctOK (s : string) : bool := pctFrom 0 s.

(** The builder of [resolvePath]: a slash followed by escaped text. *)
Definition dstOK (dst : string) : Prop :=
  exists d, dst = String "/" d /\ pctOK d = true.

(** The URL that [normalizeURL] prints: the parsed input, resolved against
    the base when it is relative; [None] where [normalizeURL] returns the
    empty string. *)
Definition resolved (p : Parser) (urlStr : string) : option url.URL :=
  if String.eqb urlStr EmptyString then None
  else
    let urlStr :=
      if strings.HasPrefix urlStr "//"
      then url.Scheme (baseURL p) ++ ":" ++ urlStr else urlStr in
    match url.Parse urlStr with
    | None => None
    | Some parsedURL =>
        Some (if negb (url.IsAbs parsedURL)
              then url.ResolveReference (baseURL p) parsedURL
              else parsedURL)
    end.


(** ** A sample site, for concrete runs *)

Module Sample.

(** An HTML tokenizer that always fails: the sample pages are style sheets. *)
Definition noHTML (_ : string) : option html.Node := None.

(** The command-line defaults: depth 3, 10 redirects, 30 seconds; two
    workers. *)
Definition config : CrawlerConfig :=
  mkCrawlerConfig "https://x.test/" 3 2 30000000000 10 [].

(** The crawler made from [config] at time 0. *)
Definition crawler : Crawler :=
  match NewCrawler config 0 with
  | Some c => c
  | None => mkCrawler (mkClient 0 0 [] url.zeroURL) (mkParser url.zeroURL) 0 0 0
  end.

(** A site whose front page redirects to another host, which serves a
    style sheet with one reference that does not parse as a URL. *)
Definition redirecting (u : string) : option http.Response :=
  if String.eqb u "https://x.test/" then
    Some (http.mkResponse 302 "text/html" "https://evil.test/" (Some EmptyString))
  else if String.eqb u "https://evil.test/" then
    Some (http.mkResponse 200 "text/css" EmptyString
            (Some "a{b:url(:x)} c{d:url(/y)}"))
  else None.

(** A site whose front page is a style sheet with one reference that does
    not parse as a URL. *)
Definition sheet : http.Response :=
  http.mkResponse 200 "text/css" EmptyString (Some "a{b:url(:x)}").

Definition plain (u : string) : option http.Response :=
  if String.eqb u "https://x.test/" then Some sheet else None.

(** A chain of [hops] redirects from [https://x.test/r]: a URL redirects
    to itself with one more letter [a], until [hops] letters are reached;
    the last URL answers 200.  The [Content-Type] header names the URL that
    was asked for, which tells the responses apart. *)
Definition chain (hops : nat) (u : string) : option http.Response :=
  if (String.length u <? String.length "https://x.test/r" + hops)%nat
  then Some (http.mkResponse 302 u (u ++ "a") (Some EmptyString))
  else Some (http.mkResponse 200 u EmptyString (Some EmptyString)).

(** The tenth and the eleventh response of the chain. *)
Definition tenth : http.Response :=
  http.mkResponse 302 "https://x.test/raaaaaaaaa" "https://x.test/raaaaaaaaaa"
                  (Some EmptyString).

(** The first steps of a run on a site: worker 0 takes the initial URL,
    admits it, fetches it and records the result. *)
Definition firstSteps (send : http.RoundTripper) : list Action :=
  [AStep 0 ChQueue; AStep 0 ChNone; AStep 0 (ChNet send); AStep 0 ChNone].

(** The state after the given steps of a run that starts at time 0. *)
Definition after (acts : list Action) : State :=
  match run noHTML crawler (Start crawler 0) acts with
  | Some st => st
  | None => Start crawler 0
  end.

(** The parser of a style sheet of the sample site, and a parser whose
    base URL has no scheme. *)
Definition sheetParser : Parser :=
  match NewParser "https://x.test/css/s.css" with
  | Some p => p
  | None => mkParser url.zeroURL
  end.

Definition schemeless : Parser :=
  match NewParser "//x.test/" with
  | Some p => p
  | None => mkParser url.zeroURL
  end.


End Sample.

(** ** Notions used to state further properties of a run *)

(** The content kinds [getContentType] tells apart. *)
Definition kinds : list string := ["html"; "css"; "javascript"; "image"; "other"].

(** The depth of a call of [processURL] that has passed the depth check. *)
Definition checkedDepth (p : PC) : option Z :=
  match p with
  | PFetch _ d | PEmit _ d _ | PFeed d _ => Some d
  | _ => None
  end.

(** ** Notions used to state the properties of the extractors *)

(** What [extractNode] appends for the node itself, before it goes through
    the children: the normalized value of the attribute that belongs to the
    tag, when the node is an element and the value is not empty. *)
Definition nodeURL (p : Parser) (n : html.Node) : list string :=
  match n with
  | html.mkNode ty data attrs _ =>
      if html.isElement ty then
        match urlAttr data with
        | Some key =>
            if negb (String.eqb (getAttr attrs key) EmptyString)
            then [normalizeURL p (getAttr attrs key)] else []
        | None => []
        end
      else []
  end.

Definition nodeChildren (n : html.Node) : list html.Node :=
  match n with html.mkNode _ _ _ children => children end.

(** An optional quote and a quote, as the patterns of [parser.go] read
    them: nothing or one byte that is a single or a double quote. *)
Definition optQuote (q : string) : bool :=
  match q with
  | EmptyString => true
  | String c EmptyString => regexp.quote c
  | _ => false
  end.

Definition oneQuote (q : string) : bool :=
  match q with
  | String c EmptyString => regexp.quote c
  | _ => false
  end.

(** The literal [l] starts at no position of [pre] in the text
    [pre ++ s]. *)
Fixpoint noPrefixIn (l pre s : string) : Prop :=
  match pre with
  | EmptyString => True
  | String _ pre' =>
      strings.HasPrefix (pre ++ s) l = false /\ noPrefixIn l pre' s
  end.

(** The text is empty or starts with a byte outside the class [p]. *)
Definition stopsAt (p : ascii -> bool) (s : string) : Prop :=
  match s with
  | EmptyString => True
  | String d _ => p d = false
  end.

(** ** Notions used to state the scope properties *)

(** An absolute URL with an authority part, as the common [http] and
    [https] URLs are: it has a scheme and no opaque part, its host is no IP
    literal in brackets, and what is printed for it reads as it was
    parsed. *)
Definition plainBase (u : url.URL) : bool :=
  url.IsAbs u && negb (url.nonEmpty (url.Opaque u))
  && negb (strings.HasPrefix (url.Host u) "[")
  && negb (ambiguousRoot u).

(** ** Notions used to state the properties of [Get] *)

(** The server answered the request for [r1] with a redirect whose
    [Location], resolved against [r1], is [r2]. *)
Definition redirectsTo (send : http.RoundTripper) (r1 r2 : url.URL) : Prop :=
  exists resp ref,
    send (url.URL_String r1) = Some resp
    /\ http.shouldRedirect resp = true
    /\ url.Parse (http.Location resp) = Some ref
    /\ r2 = url.ResolveReference r1 ref.

(** Every request of the list but the first is what the request before
    was redirected to. *)
Fixpoint chained (send : http.RoundTripper) (reqs : list url.URL) : Prop :=
  match reqs with
  | r1 :: rest =>
      match rest with
      | r2 :: _ => redirectsTo send r1 r2 /\ chained send rest
      | [] => True
      end
  | [] => True
  end.

(** ** main.go: the command line *)

Module main.

(** [strings.SplitN(s, sep, 2)] for a one-byte separator: the text before
    and after the first [sep], or the text alone. *)
Definition SplitN2 (s : string) (sep : ascii) : list string :=
  match strings.Cut s sep with
  | (before, after, true) => [before; after]
  | (_, _, false) => [s]
  end.

(** [main], lines 41-49: the map made from the comma-separated
    [key=value] pairs of the flag [-H]. *)
Definition customHeaders (headers : string) : gmap string string :=
  if negb (String.eqb headers EmptyString) then
    fold_left
      (fun headerMap header =>
         match SplitN2 header "=" with
         | [k; v] => <[k := v]> headerMap
         | _ => headerMap
         end)
      (strings.Split headers ",") ∅
  else ∅.

(** [main], lines 51-54: the default [User-Agent] is set if none was
    provided. *)
Definition withUserAgent (headerMap : gmap string string)
  : gmap string string :=
  match headerMap !! "User-Agent" with
  | Some _ => headerMap
  | None => <["User-Agent" := "GoCreeper/1.0"]> headerMap
  end.

(** The header map that [main] puts into the configuration. *)
Definition headerMapOf (headers : string) : gmap string string :=
  withUserAgent (customHeaders headers).

(** [fmt]'s verb [%d] for an [int]. *)
Definition itoa (z : Z) : string := NilZero.string_of_int (Z.to_int z).

(** [count] copies of [s] one after the other. *)
Fixpoint copies (s : string) (count : nat) : string :=
  match count with
  | O => EmptyString
  | S n => s ++ copies s n
  end.

(** The largest [int]. *)
Definition maxInt : Z := 2 ^ 63 - 1.

(** [strings.Repeat(s, count)].  [None] is a panic: the count is negative,
    or the length of the output is refused ([len(s) >= maxInt/count] in
    Go 1.21; later releases refuse only a length above [maxInt]). *)
Definition Repeat (s : string) (count : Z) : option string :=
  if count =? 0 then Some EmptyString
  else if count =? 1 then Some s
  else if count <? 0 then None
  else if maxInt / count <=? Z.of_nat (String.length s) then None
  else Some (copies s (Z.to_nat count)).

(** [outputTree], lines 119-127: the results grouped by depth, and the
    largest depth. *)
Definition byDepthOf (results : list CrawlResult) : gmap Z (list CrawlResult) :=
  fold_left
    (fun byDepth result =>
       <[Depth result := (default [] (byDepth !! Depth result) ++ [result])%list]>
         byDepth)
    results ∅.

Definition maxDepthOf (results : list CrawlResult) : Z :=
  fold_left
    (fun maxDepth result =>
       if Depth result >? maxDepth then Depth result else maxDepth)
    results 0.

(** One line of the tree, lines 132-133: the prefix, the status in
    brackets, the kind and the URL. *)
Definition treeLine (prefix : string) (result : CrawlResult) : string :=
  prefix ++ ("[" ++ itoa (Status result) ++ "]")
  ++ " " ++ Type_ result ++ " " ++ URL result ++ String "010" EmptyString.

(** The loop of lines 129-135 over the depths still to come: what is
    printed, one string for every call of [fmt.Printf], and whether the
    loop came to its end ([false]: [strings.Repeat] panicked, which ends
    the program after the lines printed so far). *)
Fixpoint treeLoop (byDepth : gmap Z (list CrawlResult)) (depths : list Z)
  : list string * bool :=
  match depths with
  | [] => ([], true)
  | depth :: rest =>
      match Repeat "  " depth with
      | None => ([], false)
      | Some prefix =>
          let (printed, ended) := treeLoop byDepth rest in
          ((map (treeLine prefix) (default [] (byDepth !! depth)) ++ printed)%list,
           ended)
      end
  end.

(** [outputTree] for the results read from the channel.  [depth] goes
    through 0, 1, ..., [maxDepth]; [depth++] never wraps around, since
    [strings.Repeat] panics for a depth far below the largest [int]. *)
Definition outputTree (results : list CrawlResult) : list string * bool :=
  treeLoop (byDepthOf results) (seqZ 0 (maxDepthOf results + 1)).

(** The indentation of a depth that is not negative. *)
Definition indent (depth : Z) : string := copies "  " (Z.to_nat depth).

(** The results in the order in which [outputTree] is to print them: depth
    by depth from 0 to the largest depth, and in the order of arrival
    within a depth. *)
Definition treeOrder (results : list CrawlResult) : list CrawlResult :=
  flat_map (fun depth => filter (fun r => Depth r = depth) results)
           (seqZ 0 (maxDepthOf results + 1)).

End main.

(** * Properties *)

(** ** Facts about the [strings] functions *)

Lemma append_nil_r (s : string) : s ++ EmptyString = s.
Proof. induction s as [|a s IH]; simpl; [reflexivity | now rewrite IH]. Qed.

Lemma append_assoc (a b c : string) : (a ++ b) ++ c = a ++ (b ++ c).
Proof. induction a as [|x a IH]; simpl; [reflexivity | now rewrite IH]. Qed.

Lemma length_append (a b : string) :
  String.length (a ++ b) = (String.length a + String.length b)%nat.
Proof. induction a as [|x a IH]; simpl; [reflexivity | now rewrite IH]. Qed.

Lemma HasPrefix_iff (s pre : string) :
  strings.HasPrefix s pre = true <-> exists r, s = pre ++ r.
Proof.
  unfold strings.HasPrefix. revert s.
  induction pre as [|a pre IH]; intros [|b s]; simpl.
  - split; [intros _; now exists EmptyString | reflexivity].
  - split; [intros _; now exists (String b s) | reflexivity].
  - split; [discriminate | intros [r Hr]; discriminate].
  - destruct (ascii_dec a b) as [->|Hab].
    + rewrite IH. split; intros [r Hr]; exists r; congruence.
    + split; [discriminate | intros [r Hr]; congruence].
Qed.

Lemma HasPrefix_app (pre r : string) : strings.HasPrefix (pre ++ r) pre = true.
Proof. apply HasPrefix_iff. now exists r. Qed.

Lemma Contains_eq (s sub : string) :
  strings.Contains s sub =
    strings.HasPrefix s sub ||
    match s with
    | EmptyString => false
    | String _ s' => strings.Contains s' sub
    end.
Proof. destruct s; reflexivity. Qed.

Lemma Contains_iff (s sub : string) :
  strings.Contains s sub = true <-> exists a b, s = a ++ sub ++ b.
Proof.
  induction s as [|x s IH]; rewrite Contains_eq, orb_true_iff, HasPrefix_iff.
  - split.
    + intros [[r Hr]|H]; [|discriminate]. now exists EmptyString, r.
    + intros (a & b & H). left. destruct a; [|discriminate]. now exists b.
  - rewrite IH. split.
    + intros [[r Hr]|(a & b & H)].
      * now exists EmptyString, r.
      * exists (String x a), b. simpl. now rewrite H.
    + intros (a & b & H). destruct a as [|y a]; simpl in H.
      * left. now exists b.
      * right. exists a, b. congruence.
Qed.

Lemma Contains_weaken (s l sub r : string) :
  strings.Contains s (l ++ sub ++ r) = true -> strings.Contains s sub = true.
Proof.
  rewrite !Contains_iff. intros (a & b & ->).
  exists (a ++ l), (r ++ b). now rewrite !append_assoc.
Qed.

Lemma HasPrefix_Contains (s pre : string) :
  strings.HasPrefix s pre = true -> strings.Contains s pre = true.
Proof.
  rewrite HasPrefix_iff, Contains_iff. intros [r ->]. now exists EmptyString, r.
Qed.

(** ** Content kinds *)

(** The second test of the javascript line is subsumed by the first. *)
Lemma Contains_application_javascript (s : string) :
  strings.Contains s "application/javascript" = true ->
  strings.Contains s "javascript" = true.
Proof. apply (Contains_weaken s "application/" "javascript" EmptyString). Qed.

(** C7, as stated, fails: a header that contains [image/] without starting
    with it is classified as an image, where the table of the specification
    says other. *)
Lemma getContentType_not_spec_table :
  getContentType "x-image/png" = "image" /\
  kindBySpec "x-image/png" = "other" /\
  getContentType "x-image/png" <> kindBySpec "x-image/png".
Proof. repeat split. discriminate. Qed.

(** C7, amended: [getContentType] is a total function of the header that
    follows the table with containment on every line, the first line that
    applies deciding; its value is one of the five kinds, and it agrees with
    the table of the specification on every header that starts with
    [image/] or does not contain [image/]. *)
Theorem getContentType_table (contentType : string) :
  getContentType contentType =
    (if strings.Contains contentType "text/html" then "html"
     else if strings.Contains contentType "text/css" then "css"
     else if strings.Contains contentType "javascript" then "javascript"
     else if strings.Contains contentType "image/" then "image"
     else "other")
  /\ In (getContentType contentType) ["html"; "css"; "javascript"; "image"; "other"]
  /\ (strings.HasPrefix contentType "image/"
        = strings.Contains contentType "image/" ->
      getContentType contentType = kindBySpec contentType).
Proof.
  unfold getContentType, kindBySpec.
  pose proof (Contains_application_javascript contentType) as Hjs.
  destruct (strings.Contains contentType "text/html");
    [simpl; intuition|].
  destruct (strings.Contains contentType "text/css");
    [simpl; intuition|].
  destruct (strings.Contains contentType "javascript") eqn:Ej.
  - simpl; intuition.
  - destruct (strings.Contains contentType "application/javascript");
      [specialize (Hjs eq_refl); discriminate|].
    simpl orb. cbv iota.
    destruct (strings.Contains contentType "image/");
      (split; [reflexivity|]); (split; [simpl; intuition|]);
      intros ->; reflexivity.
Qed.

(** The amended table applied to a header that starts with [image/]. *)
Lemma getContentType_table_witness :
  getContentType "image/png" = kindBySpec "image/png".
Proof.
  apply (getContentType_table "image/png"). reflexivity.
Defined.

(** ** Runs of the crawl engine *)

Section CrawlFacts.

Variable html_Parse : string -> option html.Node.
Variable c : Crawler.

(** Case analysis on a step. *)
Ltac exec_cases H :=
  unfold exec, stepThread, setThread in H;
  repeat (case_match; simplify_eq; try discriminate).

(** The invariant on one goroutine extends to the pool after a step. *)
Ltac thread_inv Ht :=
  repeat first
    [ apply Forall_app; split
    | apply Forall_insert
    | match goal with
      | |- Forall _ (_ :: _) => constructor
      | |- Forall _ [] => constructor
      end
    | exact Ht ].

Lemma admission_true vis urlStr depth vis' :
  admission c vis urlStr depth = (vis', true) ->
  (urlStr ∉ vis) /\ vis' = {[urlStr]} ∪ vis /\ depth <= maxDepth c
  /\ IsInScope (client c) urlStr = true.
Proof.
  unfold admission. intros H.
  destruct (decide (urlStr ∈ vis)); [discriminate|].
  destruct (depth >? maxDepth c) eqn:Ed; [discriminate|].
  destruct (IsInScope (client c) urlStr); [|discriminate].
  simpl in H. injection H as <-. repeat split; auto. lia.
Qed.

Lemma admission_visited vis urlStr depth :
  urlStr ∈ vis -> admission c vis urlStr depth = (vis, false).
Proof. unfold admission. intros H. destruct (decide (urlStr ∈ vis)); tauto. Qed.

Lemma admission_too_deep vis urlStr depth :
  maxDepth c < depth -> (admission c vis urlStr depth).2 = false.
Proof.
  unfold admission. intros H. destruct (decide (urlStr ∈ vis)); [reflexivity|].
  destruct (depth >? maxDepth c) eqn:Ed; [reflexivity|]. lia.
Qed.

Lemma admission_grows vis urlStr depth :
  vis ⊆ (admission c vis urlStr depth).1.
Proof.
  unfold admission. repeat case_match; simpl; set_solver.
Qed.

(** *** Depth bound *)

Definition depthInv (st : State) : Prop :=
  Forall (fun th => forall u d, inFlight (pc th) = Some (u, d) -> d <= maxDepth c)
         (threads st)
  /\ Forall (fun r => Depth r <= maxDepth c) (results st).

Lemma depthInv_Start now : depthInv (Start c now).
Proof.
  split; simpl; [|constructor].
  apply Forall_replicate. simpl. discriminate.
Qed.

Lemma depthInv_exec st a st' :
  depthInv st -> exec html_Parse c st a = Some st' -> depthInv st'.
Proof.
  intros [Ht Hr] H. exec_cases H; split; simpl; try assumption.
  all: try (thread_inv Ht; simpl; try destruct (role _); simpl;
            intros; simplify_eq; fail).
  - match goal with E : admission _ _ _ _ = _ |- _ =>
      apply admission_true in E; destruct E as (_ & _ & Hd & _) end.
    thread_inv Ht. simpl. intros; simplify_eq. assumption.
  - thread_inv Ht. simpl. intros; simplify_eq.
    eapply Forall_lookup_1 in Ht; [|eassumption].
    eapply Ht. match goal with E : pc _ = _ |- _ => rewrite E end. reflexivity.
  - apply Forall_app; split; [assumption|]. repeat constructor. simpl.
    eapply Forall_lookup_1 in Ht; [|eassumption].
    eapply Ht. match goal with E : pc _ = _ |- _ => rewrite E end. reflexivity.
Qed.

Lemma depthInv_Reachable st : Reachable html_Parse c st -> depthInv st.
Proof.
  induction 1 as [now|st a st' _ IH Hexec];
    [apply depthInv_Start | eapply depthInv_exec; eassumption].
Qed.

(** *** One result per URL *)

Lemma flat_map_insert_perm {A B} (f : A -> list B) (l : list A) i x :
  l !! i = Some x ->
  exists rest,
    flat_map f l ≡ₚ f x ++ rest
    /\ forall y, flat_map f (<[i:=y]> l) ≡ₚ f y ++ rest.
Proof.
  intros Hi. exists (flat_map f (take i l) ++ flat_map f (drop (S i) l))%list.
  split.
  - rewrite <- (take_drop_middle l i x Hi) at 1.
    rewrite flat_map_app. simpl. solve_Permutation.
  - intros y. rewrite insert_take_drop by (eapply lookup_lt_Some; eauto).
    rewrite flat_map_app. simpl. solve_Permutation.
Qed.

Definition claimInv (st : State) : Prop :=
  NoDup (claimed st) /\ Forall (fun u => u ∈ visited st) (claimed st).

Lemma claimInv_Start now : claimInv (Start c now).
Proof.
  unfold claimInv, claimed. simpl. rewrite app_nil_r.
  assert (flat_map ownerOf (replicate (Z.to_nat (workers c)) (mkThread Worker PSelect))
          = []) as ->.
  { induction (Z.to_nat (workers c)); simpl; auto. }
  split; constructor.
Qed.

Lemma ownerOf_inFlight (th : Thread) p :
  pc th = p ->
  ownerOf th = match inFlight p with Some (u, _) => [u] | None => [] end.
Proof. intros <-. reflexivity. Qed.

Lemma ownerOf_mkThread r p :
  ownerOf (mkThread r p) = match inFlight p with Some (u, _) => [u] | None => [] end.
Proof. reflexivity. Qed.

Lemma inFlight_retPC r : inFlight (retPC r) = None.
Proof. destruct r; reflexivity. Qed.

Lemma claimInv_exec st a st' :
  claimInv st -> exec html_Parse c st a = Some st' -> claimInv st'.
Proof.
  intros [Hnd Hvis] H. unfold claimInv, claimed in *.
  exec_cases H; simpl; try (split; assumption).
  all: match goal with Ht : threads _ !! _ = Some ?t, E : pc ?t = _ |- _ =>
         destruct (flat_map_insert_perm ownerOf _ _ _ Ht) as (rest & Hold & Hnew);
         rewrite (ownerOf_inFlight _ _ E) in Hold; simpl in Hold;
         rewrite Hold in Hnd, Hvis;
         rewrite ?flat_map_app, ?Hnew, ?ownerOf_mkThread; simpl;
         rewrite ?inFlight_retPC; simpl; rewrite ?app_nil_r
       end.
  all: try (split; assumption).
  - apply admission_true in H2 as (Hfresh & -> & _).
    split.
    + apply NoDup_cons; split; [|assumption].
      intros Hin. apply Hfresh. eapply Forall_forall in Hvis; eassumption.
    + constructor; [apply elem_of_union_l, elem_of_singleton; reflexivity|].
      eapply Forall_impl; [eassumption|]. intros u Hu. apply elem_of_union_r, Hu.
  - split; [assumption|].
    pose proof (admission_grows (visited st) urlStr depth) as Hsub. rewrite H2 in Hsub.
    eapply Forall_impl; [eassumption|]. intros u Hu. apply Hsub, Hu.
  - apply NoDup_cons in Hnd as [_ Hnd]. apply Forall_cons in Hvis as [_ Hvis].
    split; assumption.
  - rewrite map_app. simpl.
    assert (rest ++ map URL (results st) ++ [urlStr]
            ≡ₚ urlStr :: rest ++ map URL (results st)) as ->
      by (rewrite app_assoc, <- Permutation_cons_append; reflexivity).
    split; assumption.
Qed.

Lemma claimInv_Reachable st : Reachable html_Parse c st -> claimInv st.
Proof.
  induction 1 as [now|st a st' _ IH Hexec];
    [apply claimInv_Start | eapply claimInv_exec; eassumption].
Qed.


Lemma run_Reachable st acts st' :
  Reachable html_Parse c st -> run html_Parse c st acts = Some st' ->
  Reachable html_Parse c st'.
Proof.
  revert st. induction acts as [|a acts IH]; simpl; intros st Hst Hrun.
  - congruence.
  - destruct (exec html_Parse c st a) as [st1|] eqn:E; [|discriminate].
    eapply IH; [|eassumption]. econstructor; eassumption.
Qed.

(** A goroutine that enters [processURL] steps as [admission] says. *)
Lemma exec_PStart st tid th urlStr depth st' :
  threads st !! tid = Some th -> pc th = PStart urlStr depth ->
  exec html_Parse c st (AStep tid ChNone) = Some st' ->
  visited st' = (admission c (visited st) urlStr depth).1
  /\ queue st' = queue st /\ results st' = results st
  /\ requests st' = requests st
  /\ threads st' =
      <[tid := mkThread (role th)
                 (if (admission c (visited st) urlStr depth).2
                  then PFetch urlStr depth else retPC (role th))]> (threads st).
Proof.
  intros Ht Hpc H. simpl in H. rewrite Ht in H. unfold stepThread in H.
  rewrite Hpc in H. destruct (admission c (visited st) urlStr depth) as [vis ok].
  injection H as <-. simpl. auto.
Qed.

(** C1: in every crawl run at most one result is emitted for a URL string.
    The goroutine that inserts the URL into the visited set first is the
    only one to go on; one that finds the URL present returns at once: the
    visited set, the queue, the results and the requests stay as they
    are. *)
Theorem one_result_per_url (st : State) :
  Reachable html_Parse c st ->
  NoDup (map URL (results st))
  /\ (forall r, r ∈ results st -> URL r ∈ visited st)
  /\ (forall tid th urlStr depth st',
        threads st !! tid = Some th -> pc th = PStart urlStr depth ->
        urlStr ∈ visited st ->
        exec html_Parse c st (AStep tid ChNone) = Some st' ->
        visited st' = visited st /\ queue st' = queue st
        /\ results st' = results st /\ requests st' = requests st
        /\ threads st' = <[tid := mkThread (role th) (retPC (role th))]> (threads st)).
Proof.
  intros Hst. destruct (claimInv_Reachable st Hst) as [Hnd Hvis].
  unfold claimed in *. split; [|split].
  - eapply NoDup_app in Hnd as (_ & _ & Hnd). exact Hnd.
  - intros r Hr. eapply Forall_forall in Hvis; [exact Hvis|].
    apply elem_of_app. right. apply list_elem_of_fmap. exists r. auto.
  - intros tid th urlStr depth st' Ht Hpc Hin Hexec.
    destruct (exec_PStart _ _ _ _ _ _ Ht Hpc Hexec) as (Hv & Hq & Hr & Hreq & Hth).
    rewrite (admission_visited _ _ depth Hin) in Hv, Hth. simpl in Hv, Hth. auto.
Qed.

(** C2: every emitted result has a depth of at most [maxDepth]; a
    goroutine that enters [processURL] with a greater depth returns before
    any fetch, and no result or request is added. *)
Theorem depth_bound (st : State) :
  Reachable html_Parse c st ->
  (forall r, r ∈ results st -> Depth r <= maxDepth c)
  /\ (forall tid th urlStr depth st',
        threads st !! tid = Some th -> pc th = PStart urlStr depth ->
        maxDepth c < depth ->
        exec html_Parse c st (AStep tid ChNone) = Some st' ->
        results st' = results st /\ requests st' = requests st
        /\ threads st' = <[tid := mkThread (role th) (retPC (role th))]> (threads st)).
Proof.
  intros Hst. destruct (depthInv_Reachable st Hst) as [_ Hr]. split.
  - intros r Hin. eapply Forall_forall in Hr; eassumption.
  - intros tid th urlStr depth st' Ht Hpc Hdeep Hexec.
    destruct (exec_PStart _ _ _ _ _ _ Ht Hpc Hexec) as (_ & _ & Hres & Hreq & Hth).
    rewrite (admission_too_deep (visited st) urlStr depth Hdeep) in Hth. auto.
Qed.

(** *** The depth argument of the worker loop *)






(** *** Scope and deadline *)

Lemma Get_ctxDone cl send urlStr : Get cl true send urlStr = Some (http.Err, []).
Proof. reflexivity. Qed.

Definition scopeInv (st : State) : Prop :=
  Forall (fun th => forall u d, inFlight (pc th) = Some (u, d) ->
                    IsInScope (client c) u = true)
         (threads st).

Lemma scopeInv_exec st a st' :
  scopeInv st -> exec html_Parse c st a = Some st' -> scopeInv st'.
Proof.
  unfold scopeInv. intros Ht H. exec_cases H; simpl; try assumption.
  all: thread_inv Ht; simpl; rewrite ?inFlight_retPC;
       intros u' d' Hd; simplify_eq.
  - match goal with E : admission _ _ _ _ = _ |- _ =>
      apply admission_true in E; destruct E as (_ & _ & _ & Hs) end. exact Hs.
  - eapply Forall_lookup_1 in Ht; [|eassumption].
    eapply Ht. match goal with E : pc _ = _ |- _ => rewrite E end. reflexivity.
Qed.

Lemma scopeInv_Reachable st : Reachable html_Parse c st -> scopeInv st.
Proof.
  induction 1 as [now|st a st' _ IH Hexec];
    [|eapply scopeInv_exec; eassumption].
  apply Forall_replicate. simpl. discriminate.
Qed.

(** The first half of C5: [IsInScope] holds exactly when the candidate
    parses and its host name equals the one of the base URL, and every URL
    that [processURL] passes to [Get] is in scope. *)
Lemma IsInScope_iff (urlStr : string) :
  IsInScope (client c) urlStr = true <->
  exists parsedURL,
    url.Parse urlStr = Some parsedURL
    /\ url.Hostname parsedURL = url.Hostname (client_baseURL (client c)).
Proof.
  unfold IsInScope. destruct (url.Parse urlStr) as [u|].
  - rewrite String.eqb_eq. split; [eauto|]. intros (u' & Hu & Hh). congruence.
  - split; [discriminate|]. intros (u' & Hu & _). discriminate.
Qed.

Lemma fetch_in_scope st tid th urlStr depth :
  Reachable html_Parse c st ->
  threads st !! tid = Some th -> pc th = PFetch urlStr depth ->
  IsInScope (client c) urlStr = true.
Proof.
  intros Hst Ht Hpc. pose proof (scopeInv_Reachable st Hst) as Hs.
  eapply Forall_lookup_1 in Hs; [|exact Ht]. eapply Hs. rewrite Hpc. reflexivity.
Qed.

Definition deadlineInv (st : State) : Prop :=
  Forall (fun r => r.2 < deadline c) (requests st).

Lemma deadlineInv_exec st a st' :
  deadlineInv st -> exec html_Parse c st a = Some st' -> deadlineInv st'.
Proof.
  unfold deadlineInv. intros Hr H. exec_cases H; simpl; try assumption.
  all: apply Forall_app; split; [assumption|].
  all: match goal with E : Get _ (ctxDone c ?s) _ _ = _ |- _ =>
         destruct (ctxDone c s) eqn:Ed;
         [rewrite Get_ctxDone in E; simplify_eq; constructor|]
       end.
  all: apply Forall_fmap, Forall_forall; intros r _; simpl;
       unfold ctxDone in Ed; apply orb_false_iff in Ed as [_ Ed]; lia.
Qed.

Lemma deadlineInv_Reachable st : Reachable html_Parse c st -> deadlineInv st.
Proof.
  induction 1 as [now|st a st' _ IH Hexec];
    [constructor | eapply deadlineInv_exec; eassumption].
Qed.

(** Once the context is done no step sends a request. *)
Lemma no_request_when_done st a st' :
  ctxDone c st = true -> exec html_Parse c st a = Some st' ->
  requests st' = requests st.
Proof.
  intros Hd H. exec_cases H; simpl; try reflexivity.
  all: match goal with E : Get _ _ _ _ = _ |- _ =>
         rewrite Hd, Get_ctxDone in E; simplify_eq end.
  all: simpl; apply app_nil_r.
Qed.

End CrawlFacts.

(** C10: the context that governs every fetch is made by [NewCrawler] with
    the deadline [now + Timeout], where [Timeout] is the value that is also
    the per-request timeout of the HTTP client.  In every run each request
    is sent before that deadline, and from the deadline on no step of any
    goroutine sends a request. *)
Theorem crawl_deadline html_Parse (config : CrawlerConfig) (now : Z)
    (c : Crawler) (st : State) :
  NewCrawler config now = Some c ->
  Reachable html_Parse c st ->
  deadline c = now + cfg_Timeout config
  /\ Timeout (client c) = cfg_Timeout config
  /\ Forall (fun r => r.2 < now + cfg_Timeout config) (requests st)
  /\ (forall a st',
        now + cfg_Timeout config <= clock st ->
        exec html_Parse c st a = Some st' ->
        requests st' = requests st).
Proof.
  intros Hnew Hst. unfold NewCrawler, NewClient in Hnew. simpl in Hnew.
  destruct (url.Parse (cfg_URL config)) as [b|]; [|discriminate].
  destruct (NewParser (cfg_URL config)) as [p|]; [|discriminate].
  injection Hnew as <-. simpl. repeat split.
  - exact (deadlineInv_Reachable html_Parse _ st Hst).
  - intros a st' Hlate H.
    eapply no_request_when_done; [|exact H].
    unfold ctxDone. simpl. apply orb_true_iff. right. lia.
Qed.

(** ** Concrete runs *)

Lemma Sample_after_Reachable (acts : list Action) :
  Reachable Sample.noHTML Sample.crawler (Sample.after acts).
Proof.
  unfold Sample.after.
  destruct (run Sample.noHTML Sample.crawler (Start Sample.crawler 0) acts)
    as [st|] eqn:E; [|constructor].
  eapply run_Reachable; [|exact E]. constructor.
Qed.

(** After the first steps on the plain sample site there is one result,
    and the results have pairwise different URLs. *)
Lemma one_result_per_url_witness :
  NoDup (map URL (results (Sample.after (Sample.firstSteps Sample.plain))))
  /\ length (results (Sample.after (Sample.firstSteps Sample.plain))) = 1%nat.
Proof.
  split; [|reflexivity].
  apply (one_result_per_url Sample.noHTML Sample.crawler).
  apply Sample_after_Reachable.
Defined.

Lemma depth_bound_witness :
  Forall (fun r => Depth r <= 3)
         (results (Sample.after (Sample.firstSteps Sample.plain))).
Proof.
  apply Forall_forall.
  apply (depth_bound Sample.noHTML Sample.crawler).
  apply Sample_after_Reachable.
Defined.


Lemma crawl_deadline_witness :
  Forall (fun r => r.2 < 0 + 30000000000)
         (requests (Sample.after (Sample.firstSteps Sample.plain))).
Proof.
  apply (crawl_deadline Sample.noHTML Sample.config 0 Sample.crawler
           (Sample.after (Sample.firstSteps Sample.plain))).
  - reflexivity.
  - apply Sample_after_Reachable.
Defined.

(** C5 at a failing input: the front page of the sample site redirects to
    another host.  The crawler sends a request to that host, which is out
    of scope, and records the answer under the URL of the front page. *)
Theorem redirect_leaves_scope :
  let st := Sample.after (Sample.firstSteps Sample.redirecting) in
  requests st = [("https://x.test/", 0); ("https://evil.test/", 0)]
  /\ IsInScope (client Sample.crawler) "https://evil.test/" = false
  /\ results st = [mkCrawlResult "https://x.test/" 0 200 0 "css"].
Proof. vm_compute. auto. Qed.

(** C6 at a failing input: a style sheet with a reference that does not
    parse.  The normalizer yields the empty string for it, and the empty
    string is sent to the queue and handed to a new goroutine at depth 1. *)
Theorem empty_url_is_offered :
  let st := Sample.after (Sample.firstSteps Sample.plain ++ [AStep 0 ChQueue]) in
  discovered Sample.noHTML Sample.crawler Sample.sheet = [EmptyString]
  /\ queue st = [EmptyString]
  /\ threads st !! 2%nat = Some (mkThread Spawned (PStart EmptyString 1)).
Proof. vm_compute. auto. Qed.

(** ** The redirect policy *)


Lemma Get_chain_returns_tenth_aux :
  exists sent,
    Get (client Sample.crawler) false (Sample.chain 11) "https://x.test/r"
      = Some (http.Ok Sample.tenth, sent)
    /\ length sent = 10%nat.
Proof. eexists. split; [vm_compute; reflexivity | reflexivity]. Qed.



(** ** More facts about strings *)

Lemma allb_app (p : ascii -> bool) (a b : string) :
  allb p (a ++ b) = allb p a && allb p b.
Proof.
  induction a as [|c a IH]; simpl; [reflexivity|].
  rewrite IH. apply andb_assoc.
Qed.

Lemma allb_impl (p q : ascii -> bool) (s : string) :
  (forall c, p c = true -> q c = true) -> allb p s = true -> allb q s = true.
Proof.
  intros Hpq. induction s as [|c s IH]; simpl; [reflexivity|].
  rewrite !andb_true_iff. intros [Hc Hs]. auto.
Qed.

Lemma take_app (a b : string) : strings.take (String.length a) (a ++ b) = a.
Proof. induction a as [|c a IH]; simpl; [now destruct b | now rewrite IH]. Qed.

Lemma drop_app (a b : string) : strings.drop (String.length a) (a ++ b) = b.
Proof. induction a as [|c a IH]; simpl; [now destruct b | exact IH]. Qed.

Lemma take_drop (i : nat) (s : string) : strings.take i s ++ strings.drop i s = s.
Proof.
  revert s. induction i as [|i IH]; intros [|c s]; simpl; try reflexivity.
  now rewrite IH.
Qed.

Lemma IndexByte_none (s : string) (c : ascii) :
  allb (isNot c) s = true -> strings.IndexByte s c = None.
Proof.
  induction s as [|a s IH]; simpl; [reflexivity|].
  unfold isNot at 1. rewrite andb_true_iff, negb_true_iff. intros [-> Hs].
  now rewrite IH.
Qed.

Lemma IndexByte_app (a b : string) (c : ascii) :
  allb (isNot c) a = true ->
  strings.IndexByte (a ++ String c b) c = Some (String.length a).
Proof.
  induction a as [|x a IH]; simpl.
  - now rewrite Ascii.eqb_refl.
  - unfold isNot at 1. rewrite andb_true_iff, negb_true_iff. intros [-> Ha].
    now rewrite IH.
Qed.

Lemma drop_S_app (a b : string) (c : ascii) :
  strings.drop (S (String.length a)) (a ++ String c b) = b.
Proof. induction a as [|x a IH]; simpl; [now destruct b | exact IH]. Qed.

Lemma IndexByte_Some (s : string) (c : ascii) (i : nat) :
  strings.IndexByte s c = Some i ->
  exists a b,
    s = a ++ String c b /\ String.length a = i /\ allb (isNot c) a = true.
Proof.
  revert i. induction s as [|x s IH]; simpl; intros i; [discriminate|].
  destruct (Ascii.eqb x c) eqn:E.
  - intros [= <-]. apply Ascii.eqb_eq in E as ->. now exists EmptyString, s.
  - destruct (strings.IndexByte s c) as [j|]; [|discriminate].
    intros [= <-]. destruct (IH j eq_refl) as (a & b & -> & <- & Ha).
    exists (String x a), b. simpl. unfold isNot at 1. rewrite E. auto.
Qed.

Lemma IndexByte_None_allb (s : string) (c : ascii) :
  strings.IndexByte s c = None -> allb (isNot c) s = true.
Proof.
  induction s as [|a s IH]; simpl; [reflexivity|].
  unfold isNot at 1. destruct (Ascii.eqb a c); [discriminate|].
  destruct (strings.IndexByte s c); [discriminate|]. auto.
Qed.

(** [strings.Cut] splits at the first separator. *)
Lemma Cut_app (a b : string) (c : ascii) :
  allb (isNot c) a = true -> strings.Cut (a ++ String c b) c = (a, b, true).
Proof.
  intros Ha. unfold strings.Cut. rewrite IndexByte_app by exact Ha.
  now rewrite take_app, drop_S_app.
Qed.

Lemma Cut_none (s : string) (c : ascii) :
  allb (isNot c) s = true -> strings.Cut s c = (s, EmptyString, false).
Proof. intros Hs. unfold strings.Cut. now rewrite IndexByte_none. Qed.

(** What [strings.Cut] returns, in terms of its argument. *)
Lemma Cut_spec (s : string) (c : ascii) (a b : string) (found : bool) :
  strings.Cut s c = (a, b, found) ->
  allb (isNot c) a = true
  /\ (if found then s = a ++ String c b else s = a /\ b = EmptyString).
Proof.
  unfold strings.Cut. destruct (strings.IndexByte s c) as [i|] eqn:E.
  - destruct (IndexByte_Some _ _ _ E) as (a' & b' & -> & <- & Ha).
    rewrite take_app, drop_S_app. intros [= <- <- <-]. auto.
  - intros [= <- <- <-]. split; [now apply IndexByte_None_allb | auto].
Qed.

Lemma LastIndexByte_none (s : string) (c : ascii) :
  allb (isNot c) s = true -> strings.LastIndexByte s c = None.
Proof.
  induction s as [|a s IH]; simpl; [reflexivity|].
  unfold isNot at 1. rewrite andb_true_iff, negb_true_iff. intros [-> Hs].
  now rewrite IH.
Qed.

Lemma LastIndexByte_app (a b : string) (c : ascii) :
  allb (isNot c) b = true ->
  strings.LastIndexByte (a ++ String c b) c = Some (String.length a).
Proof.
  intros Hb. induction a as [|x a IH]; simpl.
  - rewrite LastIndexByte_none by exact Hb. now rewrite Ascii.eqb_refl.
  - now rewrite IH.
Qed.

Lemma LastIndexByte_None_allb (s : string) (c : ascii) :
  strings.LastIndexByte s c = None -> allb (isNot c) s = true.
Proof.
  induction s as [|a s IH]; simpl; [reflexivity|].
  destruct (strings.LastIndexByte s c); [discriminate|].
  unfold isNot at 1. destruct (Ascii.eqb a c); [discriminate|]. auto.
Qed.

Lemma LastIndexByte_Some (s : string) (c : ascii) (i : nat) :
  strings.LastIndexByte s c = Some i ->
  exists a b,
    s = a ++ String c b /\ String.length a = i /\ allb (isNot c) b = true.
Proof.
  revert i. induction s as [|x s IH]; simpl; intros i; [discriminate|].
  destruct (strings.LastIndexByte s c) as [j|] eqn:E.
  - intros [= <-]. destruct (IH j eq_refl) as (a & b & -> & <- & Hb).
    now exists (String x a), b.
  - destruct (Ascii.eqb x c) eqn:Ex; [|discriminate].
    intros [= <-]. apply Ascii.eqb_eq in Ex as ->.
    exists EmptyString, s. auto using LastIndexByte_None_allb.
Qed.

(** ** Escaping and unescaping *)

(** Case analysis on the 256 bytes. *)
Ltac byte_cases c :=
  destruct c as [b0 b1 b2 b3 b4 b5 b6 b7];
  destruct b0, b1, b2, b3, b4, b5, b6, b7.

Lemma hex_roundtrip (c : ascii) :
  let h1 := url.upperhex (N_of_ascii c / 16) in
  let h2 := url.upperhex (N_of_ascii c mod 16) in
  url.ishex h1 = true /\ url.ishex h2 = true
  /\ ascii_of_N (url.unhex h1 * 16 + url.unhex h2) = c
  /\ isUpperHex h1 = true /\ isUpperHex h2 = true
  /\ (Ascii.eqb h1 "2" && Ascii.eqb h2 "5") = Ascii.eqb c "%"
  /\ (url.unhex h1 <? 8)%N = (N_of_ascii c <? 128)%N.
Proof. byte_cases c; vm_compute; repeat split. Qed.

Lemma shouldEscape_percent (m : url.encoding) : url.shouldEscape "%" m = true.
Proof. destruct m; reflexivity. Qed.

Lemma escape_app (a b : string) (m : url.encoding) :
  url.escape (a ++ b) m = url.escape a m ++ url.escape b m.
Proof.
  induction a as [|c a IH]; simpl; [reflexivity|].
  rewrite IH. destruct (url.shouldEscape c m); [|reflexivity].
  destruct (_ && _); reflexivity.
Qed.

(** The bytes of an escaped string: [%], upper-case hexadecimal digits and
    the bytes that need no escape ([+] as well in a query component). *)
Lemma escape_allb (q : ascii -> bool) (m : url.encoding) (s : string) :
  q "%"%char = true -> q "+"%char = true ->
  (forall c, isUpperHex c = true -> q c = true) ->
  (forall c, url.shouldEscape c m = false -> q c = true) ->
  allb q (url.escape s m) = true.
Proof.
  intros Hp Hplus Hhex Hraw. induction s as [|c s IH]; simpl; [reflexivity|].
  destruct (url.shouldEscape c m) eqn:E.
  - destruct (_ && _); simpl; rewrite ?Hp, ?Hplus, ?IH; simpl; [reflexivity|].
    destruct (hex_roundtrip c) as (_ & _ & _ & H1 & H2 & _).
    now rewrite (Hhex _ H1), (Hhex _ H2).
  - simpl. now rewrite (Hraw _ E), IH.
Qed.

Lemma unescape_escape (m : url.encoding) (s : string) :
  plainMode m = true -> url.unescape (url.escape s m) m = Some s.
Proof.
  intros Hm. induction s as [|c s IH]; simpl; [reflexivity|].
  destruct (url.shouldEscape c m) eqn:E.
  - assert (Ascii.eqb c " " && url.encoding_eqb m url.encodeQueryComponent = false)
      as -> by (destruct m; try discriminate; apply andb_false_r).
    simpl. destruct (hex_roundtrip c) as (H1 & H2 & Hv & _).
    cbv zeta in H1, H2, Hv. rewrite H1, H2, Hv. simpl.
    assert (url.encoding_eqb m url.encodeHost = false) as ->
      by (destruct m; try discriminate; reflexivity).
    assert (url.encoding_eqb m url.encodeZone = false) as ->
      by (destruct m; try discriminate; reflexivity).
    simpl. now rewrite IH.
  - cbn [url.unescape].
    destruct (Ascii.eqb c "%") eqn:Ep.
    { apply Ascii.eqb_eq in Ep as ->. now rewrite shouldEscape_percent in E. }
    assert (url.encoding_eqb m url.encodeHost || url.encoding_eqb m url.encodeZone
            = false) as -> by (destruct m; try discriminate; reflexivity).
    assert (url.encoding_eqb m url.encodeQueryComponent = false) as ->
      by (destruct m; try discriminate; reflexivity).
    rewrite IH. simpl.
    destruct (Ascii.eqb c "+") eqn:Eplus; [|reflexivity].
    apply Ascii.eqb_eq in Eplus as ->. reflexivity.
Qed.

(** In a host, escaping and unescaping cancel on the bytes that
    [url.Parse] produces outside of a zone identifier. *)
Lemma unescape_escape_host (s : string) :
  allb hostByte s = true ->
  url.unescape (url.escape s url.encodeHost) url.encodeHost = Some s.
Proof.
  induction s as [|c s IH]; simpl; [reflexivity|].
  rewrite andb_true_iff. intros [Hc Hs]. specialize (IH Hs).
  destruct (url.shouldEscape c url.encodeHost) eqn:E.
  - rewrite andb_false_r. simpl.
    destruct (hex_roundtrip c) as (H1 & H2 & Hv & _ & _ & H25 & H8).
    cbv zeta in H1, H2, Hv, H25, H8. rewrite H1, H2, Hv, H25, H8. simpl.
    unfold hostByte in Hc. rewrite E in Hc. simpl in Hc. rewrite orb_false_r in Hc.
    assert ((N_of_ascii c <? 128)%N && negb (Ascii.eqb c "%") = false) as ->.
    { apply orb_true_iff in Hc as [Hc|Hc].
      - apply N.leb_le in Hc. apply andb_false_iff. left. apply N.ltb_ge. exact Hc.
      - rewrite Hc. apply andb_false_r. }
    now rewrite IH.
  - cbn [url.unescape].
    destruct (Ascii.eqb c "%") eqn:Ep.
    { apply Ascii.eqb_eq in Ep as ->. discriminate. }
    simpl. rewrite E, andb_false_r, IH. simpl.
    destruct (Ascii.eqb c "+") eqn:Eplus; [|reflexivity].
    apply Ascii.eqb_eq in Eplus as ->. reflexivity.
Qed.

(** ** Schemes *)

Lemma getSchemeFrom_app (rawURL s rest : string) (i : nat) :
  allb rawSchemeByte s = true -> i <> O ->
  url.getSchemeFrom rawURL i (s ++ String ":" rest)
    = Some (strings.take (i + String.length s) rawURL, rest).
Proof.
  revert i. induction s as [|c s IH]; intros i Hs Hi;
    cbn [String.append url.getSchemeFrom String.length allb] in *.
  - change (url.isAlpha ":") with false. change (url.isDigit ":" || url.oneOf "+-." ":")
      with false. change (Ascii.eqb ":" ":") with true. cbv iota.
    destruct i; [congruence|]. now rewrite Nat.add_0_r.
  - apply andb_true_iff in Hs as [Hc Hs]. unfold rawSchemeByte in Hc.
    destruct (url.isAlpha c).
    + rewrite IH by auto. now rewrite Nat.add_succ_r.
    + rewrite orb_false_l in Hc. rewrite Hc. destruct i; [congruence|].
      rewrite IH by auto. now rewrite Nat.add_succ_r.
Qed.

Lemma schemeByte_raw (c : ascii) : schemeByte c = true -> rawSchemeByte c = true.
Proof. byte_cases c; vm_compute; congruence. Qed.

(** A scheme followed by a colon is split off again. *)
Lemma getScheme_app (scheme rest : string) :
  scheme <> EmptyString -> schemeOK scheme = true ->
  url.getScheme (scheme ++ ":" ++ rest) = Some (scheme, rest).
Proof.
  destruct scheme as [|c s]; [congruence|]. intros _ Hok.
  simpl in Hok. apply andb_true_iff in Hok as [Hc Hs].
  apply andb_true_iff in Hs as [_ Hs].
  unfold url.getScheme. simpl.
  assert (url.isAlpha c = true) as -> by (unfold url.isAlpha; now rewrite Hc).
  rewrite getSchemeFrom_app.
  - change (String c (s ++ String ":" rest)) with (String c s ++ String ":" rest).
    change (1 + String.length s)%nat with (String.length (String c s)).
    now rewrite take_app.
  - eapply allb_impl; [|exact Hs]. apply schemeByte_raw.
  - discriminate.
Qed.

Lemma getSchemeFrom_inv (rawURL s scheme rest : string) :
  forall pre,
    rawURL = pre ++ s ->
    allb rawSchemeByte pre = true ->
    (pre = EmptyString \/ firstAlpha pre = true) ->
    url.getSchemeFrom rawURL (String.length pre) s = Some (scheme, rest) ->
    (scheme = EmptyString /\ rest = rawURL)
    \/ (rawURL = scheme ++ String ":" rest
        /\ allb rawSchemeByte scheme = true /\ firstAlpha scheme = true).
Proof.
  induction s as [|c s IH]; intros pre Hraw Hpre Hfirst H;
    cbn [url.getSchemeFrom] in H.
  - injection H as <- <-. auto.
  - assert (rawURL = (pre ++ String c EmptyString) ++ s) as Hraw'
      by (rewrite append_assoc; exact Hraw).
    assert (String.length (pre ++ String c EmptyString) = S (String.length pre))
      as Hlen by (rewrite length_append; simpl; lia).
    assert (rawSchemeByte c = true ->
            (pre = EmptyString -> url.isAlpha c = true) ->
            url.getSchemeFrom rawURL (S (String.length pre)) s = Some (scheme, rest) ->
            (scheme = EmptyString /\ rest = rawURL)
            \/ (rawURL = scheme ++ String ":" rest
                /\ allb rawSchemeByte scheme = true /\ firstAlpha scheme = true))
      as Hrec.
    { intros Hc Hc0 H'. rewrite <- Hlen in H'. apply IH in H'; auto.
      - rewrite allb_app, Hpre. simpl. now rewrite Hc.
      - right. destruct pre as [|p pre]; simpl; [auto|].
        destruct Hfirst as [?|Hf]; [discriminate | exact Hf]. }
    destruct (url.isAlpha c) eqn:Ealpha.
    { apply Hrec; auto. unfold rawSchemeByte. now rewrite Ealpha. }
    destruct (url.isDigit c || url.oneOf "+-." c) eqn:Edig.
    { destruct pre as [|p pre]; cbn [String.length] in H.
      - injection H as <- <-. auto.
      - apply Hrec; auto; [|discriminate].
        unfold rawSchemeByte. rewrite Ealpha. exact Edig. }
    destruct (Ascii.eqb c ":") eqn:Ecolon.
    { apply Ascii.eqb_eq in Ecolon as ->.
      destruct pre as [|p pre]; cbn [String.length] in H; [discriminate|].
      change (S (String.length pre)) with (String.length (String p pre)) in H.
      subst rawURL. rewrite take_app in H. injection H as <- <-. right.
      destruct Hfirst as [?|Hf]; [discriminate|]. auto. }
    injection H as <- <-. auto.
Qed.

(** What [getScheme] returns. *)
Lemma getScheme_inv (rawURL scheme rest : string) :
  url.getScheme rawURL = Some (scheme, rest) ->
  (scheme = EmptyString /\ rest = rawURL)
  \/ (rawURL = scheme ++ String ":" rest
      /\ allb rawSchemeByte scheme = true /\ firstAlpha scheme = true).
Proof.
  intros H. apply (getSchemeFrom_inv rawURL rawURL scheme rest EmptyString); auto.
Qed.

Lemma lowerByte_facts (c : ascii) :
  (rawSchemeByte c = true -> schemeByte (strings.lowerByte c) = true)
  /\ (url.isAlpha c = true -> url.between "a" "z" (strings.lowerByte c) = true)
  /\ (schemeByte c = true -> strings.lowerByte c = c).
Proof. byte_cases c; vm_compute; repeat split; congruence. Qed.

(** The lower-case form of a scheme that [getScheme] returns is a scheme
    in the sense of [schemeOK]. *)
Lemma ToLower_schemeOK (scheme : string) :
  allb rawSchemeByte scheme = true ->
  (scheme = EmptyString \/ firstAlpha scheme = true) ->
  schemeOK (strings.ToLower scheme) = true.
Proof.
  intros Hall Hfirst.
  assert (allb schemeByte (strings.ToLower scheme) = true) as Hlow.
  { clear Hfirst. induction scheme as [|c s IH]; simpl in *; [reflexivity|].
    apply andb_true_iff in Hall as [Hc Hs].
    now rewrite (proj1 (lowerByte_facts c) Hc), IH. }
  destruct scheme as [|c s]; [reflexivity|].
  destruct Hfirst as [?|Hf]; [discriminate|]. simpl in Hf.
  unfold schemeOK. cbn [strings.ToLower].
  rewrite (proj1 (proj2 (lowerByte_facts c)) Hf). exact Hlow.
Qed.

Lemma ToLower_schemeOK_id (scheme : string) :
  schemeOK scheme = true -> strings.ToLower scheme = scheme.
Proof.
  intros H.
  assert (allb schemeByte scheme = true) as Hall.
  { destruct scheme; [reflexivity|]. simpl in H.
    now apply andb_true_iff in H as [_ H]. }
  clear H. induction scheme as [|c s IH]; simpl in *; [reflexivity|].
  apply andb_true_iff in Hall as [Hc Hs].
  now rewrite (proj2 (proj2 (lowerByte_facts c)) Hc), IH.
Qed.

Lemma ToLower_empty (s : string) :
  strings.ToLower s = EmptyString <-> s = EmptyString.
Proof. destruct s; simpl; split; congruence. Qed.

(** ** What [url.Parse] returns *)

Lemma allb_and (p q : ascii -> bool) (s : string) :
  allb (fun c => p c && q c) s = allb p s && allb q s.
Proof.
  induction s as [|c s IH]; simpl; [reflexivity|]. rewrite IH.
  destruct (p c), (q c), (allb p s), (allb q s); reflexivity.
Qed.

Lemma allb_notCTL (s : string) :
  url.stringContainsCTLByte s = false -> allb notCTL s = true.
Proof.
  induction s as [|c s IH]; simpl; [reflexivity|].
  unfold notCTL at 1.
  destruct ((N_of_ascii c <? 32)%N || (N_of_ascii c =? 127)%N); simpl;
    [discriminate | exact IH].
Qed.

Lemma notCTL_stringContainsCTLByte (s : string) :
  allb notCTL s = true -> url.stringContainsCTLByte s = false.
Proof.
  induction s as [|c s IH]; simpl; [reflexivity|].
  unfold notCTL at 1.
  destruct ((N_of_ascii c <? 32)%N || (N_of_ascii c =? 127)%N); simpl;
    [discriminate | exact IH].
Qed.

Lemma HasSuffixByte_inv (s : string) (c : ascii) :
  strings.HasSuffixByte s c = true -> s = strings.dropLast s ++ String c EmptyString.
Proof.
  induction s as [|a s IH]; [discriminate|].
  destruct s as [|b s].
  - simpl. intros H. apply Ascii.eqb_eq in H as ->. reflexivity.
  - intros H. change (strings.dropLast (String a (String b s)))
      with (String a (strings.dropLast (String b s))).
    simpl String.append. f_equal. apply IH. exact H.
Qed.

Lemma HasSuffixByte_app (a : string) (c : ascii) :
  strings.HasSuffixByte (a ++ String c EmptyString) c = true.
Proof.
  induction a as [|x a IH]; simpl; [apply Ascii.eqb_refl|].
  destruct (a ++ String c EmptyString) eqn:E; [destruct a; discriminate|].
  exact IH.
Qed.

Lemma dropLast_app (a : string) (c : ascii) :
  strings.dropLast (a ++ String c EmptyString) = a.
Proof.
  induction a as [|x a IH]; simpl; [reflexivity|].
  destruct (a ++ String c EmptyString) eqn:E; [destruct a; discriminate|].
  now rewrite IH.
Qed.

Lemma Count_app (a b : string) (c : ascii) :
  strings.Count (a ++ b) c = (strings.Count a c + strings.Count b c)%nat.
Proof. induction a as [|x a IH]; simpl; [reflexivity | rewrite IH; lia]. Qed.

Lemma Count_zero (s : string) (c : ascii) :
  strings.Count s c = O <-> allb (isNot c) s = true.
Proof.
  induction s as [|x s IH]; simpl; [tauto|].
  unfold isNot at 1. destruct (Ascii.eqb x c); simpl.
  - split; [lia | discriminate].
  - exact IH.
Qed.

Lemma HasSuffixByte_last (s : string) (c d : ascii) :
  strings.HasSuffixByte (s ++ String d EmptyString) c = Ascii.eqb d c.
Proof.
  induction s as [|x s IH]; simpl; [reflexivity|].
  destruct (s ++ String d EmptyString) eqn:E; [destruct s; discriminate|].
  exact IH.
Qed.

Lemma unescape_rooted (s t : string) (m : url.encoding) :
  url.unescape s m = Some t -> rooted s = true -> rooted t = true.
Proof.
  destruct s as [|c s]; simpl.
  - intros [= <-] _. reflexivity.
  - intros H Hc. apply Ascii.eqb_eq in Hc as ->.
    change (Ascii.eqb "/" "%") with false in H.
    change (Ascii.eqb "/" "+") with false in H. cbv iota in H.
    destruct (_ && _) in H; [discriminate|].
    destruct (url.unescape s m); [|discriminate]. injection H as <-. reflexivity.
Qed.

Lemma escape_rooted (s : string) (m : url.encoding) :
  m <> url.encodePathSegment -> m <> url.encodeQueryComponent ->
  m <> url.encodeUserPassword -> m <> url.encodeHost -> m <> url.encodeZone ->
  rooted s = true -> rooted (url.escape s m) = true.
Proof.
  intros H1 H2 H3 H4 H5. destruct s as [|c s]; simpl; [reflexivity|].
  intros Hc. apply Ascii.eqb_eq in Hc as ->.
  destruct m; try congruence; reflexivity.
Qed.

Lemma parseAuthority_inv (authority : string) usr host :
  url.parseAuthority authority = Some (usr, host) ->
  (exists h0, url.parseHost h0 = Some host)
  /\ (forall ui, usr = Some ui ->
                 url.passwordSet ui = false -> url.password ui = EmptyString).
Proof.
  unfold url.parseAuthority.
  destruct (strings.LastIndexByte authority "@") as [i|].
  - destruct (url.parseHost (strings.drop (S i) authority)) as [h|] eqn:Eh;
      [|discriminate].
    destruct (negb (url.validUserinfo (strings.take i authority)));
      [discriminate|].
    destruct (negb (strings.Contains (strings.take i authority) ":")).
    + destruct (url.unescape _ _); [|discriminate].
      intros [= <- <-]. split; [eauto|]. intros ui [= <-] _. reflexivity.
    + destruct (strings.Cut _ _) as [[usr0 pwd0] f].
      destruct (url.unescape usr0 _); [|discriminate].
      destruct (url.unescape pwd0 _); [|discriminate].
      intros [= <- <-]. split; [eauto|]. intros ui [= <-]. discriminate.
  - destruct (url.parseHost authority) as [h|] eqn:Eh; [|discriminate].
    intros [= <- <-]. split; [eauto|]. discriminate.
Qed.

Lemma setPath_inv (u u' : url.URL) (p : string) :
  url.setPath u p = Some u' ->
  exists path,
    url.unescape p url.encodePath = Some path
    /\ u' = url.withPaths u path
              (if String.eqb p (url.escape path url.encodePath)
               then EmptyString else p).
Proof.
  unfold url.setPath. destruct (url.unescape p url.encodePath) as [path|];
    [|discriminate].
  exists path. split; [reflexivity|].
  destruct (String.eqb p _); congruence.
Qed.


Lemma cutQuery_inv (rest0 rest q : string) (force : bool) :
  url.cutQuery rest0 = (rest, force, q) ->
  allb (isNot "?") rest = true
  /\ (if force then q = EmptyString /\ rest0 = rest ++ "?"
      else (rest0 = rest /\ q = EmptyString) \/ rest0 = rest ++ String "?" q).
Proof.
  unfold url.cutQuery.
  destruct (strings.HasSuffixByte rest0 "?") eqn:Esuf; simpl.
  - destruct (Nat.eqb_spec (strings.Count rest0 "?") 1) as [Hc|Hc].
    + intros [= <- <- <-]. apply HasSuffixByte_inv in Esuf.
      split; [|auto].
      rewrite Esuf, Count_app in Hc. simpl in Hc.
      apply Count_zero. lia.
    + destruct (strings.Cut rest0 "?") as [[r q'] f] eqn:Ecut.
      intros [= <- <- <-]. destruct (Cut_spec _ _ _ _ _ Ecut) as [Hr Hs].
      split; [exact Hr|]. destruct f; [auto | left; tauto].
  - destruct (strings.Cut rest0 "?") as [[r q'] f] eqn:Ecut.
    intros [= <- <- <-]. destruct (Cut_spec _ _ _ _ _ Ecut) as [Hr Hs].
    split; [exact Hr|]. destruct f; [auto | left; tauto].
Qed.

(** The parts of a text satisfy what the text satisfies. *)
Lemma cutQuery_allb (p : ascii -> bool) (rest0 rest q : string) (force : bool) :
  url.cutQuery rest0 = (rest, force, q) ->
  allb p rest0 = true -> allb p rest = true /\ allb p q = true.
Proof.
  intros H Hp. destruct (cutQuery_inv _ _ _ _ H) as [_ Hs].
  destruct force.
  - destruct Hs as [-> ->]. rewrite allb_app in Hp.
    apply andb_true_iff in Hp as [Hp _]. auto.
  - destruct Hs as [[-> ->]| ->]; [auto|].
    rewrite allb_app in Hp. apply andb_true_iff in Hp as [Hr Hq].
    simpl in Hq. apply andb_true_iff in Hq as [_ Hq]. auto.
Qed.

Lemma take_allb (p : ascii -> bool) (i : nat) (s : string) :
  allb p s = true -> allb p (strings.take i s) = true.
Proof.
  revert i. induction s as [|c s IH]; intros [|i]; simpl; auto.
  rewrite !andb_true_iff. intros [Hc Hs]. auto.
Qed.

Lemma drop_allb (p : ascii -> bool) (i : nat) (s : string) :
  allb p s = true -> allb p (strings.drop i s) = true.
Proof.
  revert i. induction s as [|c s IH]; intros [|i]; simpl; auto.
  rewrite !andb_true_iff. intros [Hc Hs]. auto.
Qed.

Lemma HasPrefix_rooted (s : string) :
  strings.HasPrefix s "/" = url.nonEmpty s && rooted s.
Proof.
  destruct s as [|c s]; [reflexivity|]. simpl rooted.
  change (url.nonEmpty (String c s)) with true. simpl andb.
  destruct (Ascii.eqb_spec c "/") as [->|Hne].
  - apply (HasPrefix_app "/" s).
  - destruct (strings.HasPrefix (String c s) "/") eqn:E; [|reflexivity].
    apply HasPrefix_iff in E as [r Hr]. injection Hr as Hc _. contradiction.
Qed.

Lemma HasPrefix_slash_rooted (s : string) :
  strings.HasPrefix s "/" = true -> rooted s = true.
Proof. rewrite HasPrefix_rooted. now intros [_ H]%andb_true_iff. Qed.

Lemma nonEmpty_true (s : string) : url.nonEmpty s = true <-> s <> EmptyString.
Proof.
  unfold url.nonEmpty. rewrite negb_true_iff. apply String.eqb_neq.
Qed.

Lemma nonEmpty_false (s : string) : url.nonEmpty s = false <-> s = EmptyString.
Proof.
  unfold url.nonEmpty. rewrite negb_false_iff. apply String.eqb_eq.
Qed.

(** The authority and path step of [parse] on a URL that has only a
    scheme and a query so far. *)
Lemma parseHier_inv (scheme q rest : string) (force : bool) (u : url.URL) :
  let url0 := url.withQuery (url.withScheme url.zeroURL scheme) force q in
  url.parseHier url0 rest false = Some u ->
  exists url1 rest1 path,
    url.unescape rest1 url.encodePath = Some path
    /\ u = url.withPaths url1 path
             (if String.eqb rest1 (url.escape path url.encodePath)
              then EmptyString else rest1)
    /\ ((exists authority usr host,
           url.parseAuthority authority = Some (usr, host)
           /\ url1 = url.withAuthority url0 usr host
           /\ rest = "//" ++ authority ++ rest1
           /\ allb (isNot "/") authority = true /\ rooted rest1 = true)
        \/ (url1 = url.withOmitHost url0 true /\ rest1 = rest
            /\ scheme <> EmptyString /\ strings.HasPrefix rest "/" = true
            /\ strings.HasPrefix rest "//" = false)
        \/ (url1 = url0 /\ rest1 = rest
            /\ (scheme = EmptyString \/ strings.HasPrefix rest "/" = false)
            /\ (strings.HasPrefix rest "//" = false
                \/ strings.HasPrefix rest "///" = true))).
Proof.
  intros url0. unfold url.parseHier.
  change (url.Scheme url0) with scheme. simpl negb.
  destruct ((url.nonEmpty scheme || true && negb (strings.HasPrefix rest "///"))
            && strings.HasPrefix rest "//") eqn:Eauth.
  - apply andb_true_iff in Eauth as [_ Hpre].
    apply HasPrefix_iff in Hpre as [r ->]. simpl strings.drop.
    change ("//" ++ r) with (String "/" (String "/" r)). cbn [strings.drop].
    destruct (strings.IndexByte r "/") as [i|] eqn:Eidx.
    + destruct (IndexByte_Some _ _ _ Eidx) as (a & b & -> & <- & Ha).
      rewrite take_app, drop_app.
      destruct (url.parseAuthority a) as [[usr host]|] eqn:Ea; [|discriminate].
      intros H. apply setPath_inv in H as (path & Hun & ->).
      exists (url.withAuthority url0 usr host), (String "/" b), path.
      split; [exact Hun|]. split; [reflexivity|]. left.
      exists a, usr, host. repeat split; auto.
    + destruct (url.parseAuthority r) as [[usr host]|] eqn:Ea; [|discriminate].
      intros H. apply setPath_inv in H as (path & Hun & ->).
      exists (url.withAuthority url0 usr host), EmptyString, path.
      split; [exact Hun|]. split; [reflexivity|]. left.
      exists r, usr, host. repeat split; auto.
      * now rewrite append_nil_r.
      * now apply IndexByte_None_allb.
  - destruct (url.nonEmpty scheme && strings.HasPrefix rest "/") eqn:Eomit.
    + apply andb_true_iff in Eomit as [Hs Hr].
      intros H. apply setPath_inv in H as (path & Hun & ->).
      exists (url.withOmitHost url0 true), rest, path.
      split; [exact Hun|]. split; [reflexivity|]. right. left.
      rewrite Hs in Eauth. simpl in Eauth.
      repeat split; auto. now apply nonEmpty_true.
    + intros H. apply setPath_inv in H as (path & Hun & ->).
      exists url0, rest, path.
      split; [exact Hun|]. split; [reflexivity|]. right. right.
      repeat split; auto.
      * apply andb_false_iff in Eomit as [Hs|Hr].
        -- left. now apply nonEmpty_false.
        -- right. exact Hr.
      * apply andb_false_iff in Eauth as [Hs|Hr]; [|auto].
        apply orb_false_iff in Hs as [_ Hs]. simpl in Hs.
        apply negb_false_iff in Hs. auto.
Qed.

Lemma WF_zero_star : WF (url.withPaths url.zeroURL "*" EmptyString).
Proof.
  constructor; simpl; try reflexivity; try congruence; try discriminate.
  exists EmptyString. reflexivity.
Qed.

Lemma parseHost_empty : url.parseHost EmptyString = Some EmptyString.
Proof. reflexivity. Qed.

(** [parse] returns a well-formed URL when its argument has no number
    sign. *)
Lemma parse_WF (rawURL : string) (u : url.URL) :
  allb (isNot "#") rawURL = true ->
  url.parse rawURL false = Some u -> WF u.
Proof.
  intros Hhash H. unfold url.parse in H.
  destruct (url.stringContainsCTLByte rawURL) eqn:Ectl; [discriminate|].
  rewrite andb_false_r in H.
  destruct (String.eqb rawURL "*"); [injection H as <-; apply WF_zero_star|].
  destruct (url.getScheme rawURL) as [[scheme rest0]|] eqn:Escheme; [|discriminate].
  assert (allb okText rawURL = true) as Hraw.
  { unfold okText. rewrite allb_and, (allb_notCTL _ Ectl), Hhash. reflexivity. }
  assert (schemeOK (strings.ToLower scheme) = true
          /\ allb okText rest0 = true) as [Hsch Hrest0].
  { destruct (getScheme_inv _ _ _ Escheme) as [[-> ->]|(Heq & Hall & Hf)].
    - split; [reflexivity | exact Hraw].
    - split; [apply ToLower_schemeOK; auto|].
      rewrite Heq, allb_app in Hraw. apply andb_true_iff in Hraw as [_ Hraw].
      simpl in Hraw. exact Hraw. }
  destruct (url.cutQuery rest0) as [[rest force] q] eqn:Ecut.
  destruct (cutQuery_allb okText _ _ _ _ Ecut Hrest0) as [Hrest Hq].
  destruct (cutQuery_inv _ _ _ _ Ecut) as [Hnoq Hforce].
  assert (force = true -> q = EmptyString) as Hfq
    by (intros ->; tauto).
  set (scheme' := strings.ToLower scheme) in *.
  assert (forall u, url.parseHier
                      (url.withQuery (url.withScheme url.zeroURL scheme') force q)
                      rest false = Some u ->
                    (strings.HasPrefix rest "/" = true \/ scheme' = EmptyString) ->
                    WF u) as Hhier.
  { clear H. intros u' H Hpre.
    apply parseHier_inv in H
      as (url1 & rest1 & path & Hun & -> & [Hcase|[Hcase|Hcase]]).
    - destruct Hcase as (a & usr & host & Ha & -> & Hr & Hna & Hroot).
      destruct (parseAuthority_inv _ _ _ Ha) as [Hh Hu].
      constructor; simpl; auto; try congruence; try discriminate.
      intros _ _. split; [eapply unescape_rooted; eauto|].
      destruct (String.eqb rest1 _); [reflexivity | exact Hroot].
    - destruct Hcase as (-> & -> & Hne & Hroot & Hn2).
      constructor; simpl; auto; try congruence; try discriminate.
      + exists EmptyString. reflexivity.
      + apply HasPrefix_slash_rooted in Hroot.
        intros _ _. split; [eapply unescape_rooted; eauto|].
        destruct (String.eqb rest _); [reflexivity | exact Hroot].
    - destruct Hcase as (-> & -> & Hs & _).
      constructor; simpl; auto; try congruence; try discriminate.
      + exists EmptyString. reflexivity.
      + intros Hne _. destruct Hs as [Hs|Hs]; [contradiction|].
        destruct Hpre as [Hpre|Hpre]; congruence. }
  cbv zeta in H.
  destruct (strings.HasPrefix rest "/") eqn:Eroot; [apply Hhier; auto|].
  change (url.Scheme (url.withQuery (url.withScheme url.zeroURL scheme') force q))
    with scheme' in H.
  destruct (url.nonEmpty scheme') eqn:Ene.
  - injection H as <-. apply nonEmpty_true in Ene.
    constructor; simpl; auto; try congruence; try discriminate.
    + unfold okOpaque. rewrite allb_and, Hrest, Hnoq. reflexivity.
    + exists EmptyString. reflexivity.
  - apply nonEmpty_false in Ene.
    destruct (strings.Contains _ _); [discriminate|]. apply Hhier; auto.
Qed.

Lemma WF_withFragments (u : url.URL) (f rf : string) :
  WF u -> WF (url.withFragments u f rf).
Proof. intros [? ? ? ? ? ? ? ? ? ?]. constructor; assumption. Qed.

(** [url.Parse] returns well-formed URLs. *)
Lemma Parse_WF (rawURL : string) (u : url.URL) :
  url.Parse rawURL = Some u -> WF u.
Proof.
  unfold url.Parse.
  destruct (strings.Cut rawURL "#") as [[pre frag] found] eqn:Ecut.
  destruct (Cut_spec _ _ _ _ _ Ecut) as [Hpre _].
  destruct (url.parse pre false) as [u0|] eqn:Eparse; [|discriminate].
  pose proof (parse_WF _ _ Hpre Eparse) as Hwf.
  destruct (String.eqb frag EmptyString); [congruence|].
  unfold url.setFragment. destruct (url.unescape frag _); [|discriminate].
  destruct (String.eqb frag _); intros [= <-]; now apply WF_withFragments.
Qed.

(** ** The printed path *)

Lemma EscapedPath_cases (u : url.URL) :
  (url.EscapedPath u = url.RawPath u
   /\ url.RawPath u <> EmptyString
   /\ url.validEncoded (url.RawPath u) url.encodePath = true
   /\ url.unescape (url.RawPath u) url.encodePath = Some (url.Path u))
  \/ (url.EscapedPath u = "*" /\ url.Path u = "*")
  \/ (url.EscapedPath u = url.escape (url.Path u) url.encodePath
      /\ url.Path u <> "*").
Proof.
  unfold url.EscapedPath.
  destruct (url.nonEmpty (url.RawPath u)) eqn:Ene; simpl.
  - destruct (url.validEncoded (url.RawPath u) url.encodePath) eqn:Ev.
    + destruct (url.unescape (url.RawPath u) url.encodePath) as [p|] eqn:Eu.
      * destruct (String.eqb_spec p (url.Path u)) as [<-|Hne].
        -- left. apply nonEmpty_true in Ene. auto.
        -- destruct (String.eqb_spec (url.Path u) "*"); auto.
      * destruct (String.eqb_spec (url.Path u) "*"); auto.
    + destruct (String.eqb_spec (url.Path u) "*"); auto.
  - destruct (String.eqb_spec (url.Path u) "*"); auto.
Qed.

Lemma EscapedPath_unescape (u : url.URL) :
  url.unescape (url.EscapedPath u) url.encodePath = Some (url.Path u).
Proof.
  destruct (EscapedPath_cases u) as [(-> & _ & _ & H)|[[-> ->]|[-> _]]].
  - exact H.
  - reflexivity.
  - now apply unescape_escape.
Qed.

Lemma escaped_byte_facts (c : ascii) :
  (url.oneOf "!$&'()*+,;=:@[]%" c || negb (url.shouldEscape c url.encodePath) = true ->
   okOpaque c = true)
  /\ (isUpperHex c = true -> okOpaque c = true /\ isNot "/" c = true
                             /\ isNot "@" c = true /\ isNot ":" c = true)
  /\ (url.shouldEscape c url.encodeUserPassword = false ->
      okOpaque c = true /\ isNot "/" c = true /\ isNot "@" c = true
      /\ isNot ":" c = true
      /\ (url.isAlpha c || url.isDigit c || url.oneOf "-._:~!$&'()*+,;=%@" c) = true)
  /\ (url.shouldEscape c url.encodeHost = false ->
      okOpaque c = true /\ isNot "/" c = true /\ isNot "@" c = true)
  /\ (isUpperHex c = true ->
      (url.isAlpha c || url.isDigit c || url.oneOf "-._:~!$&'()*+,;=%@" c) = true).
Proof. byte_cases c; vm_compute; repeat split; congruence. Qed.

Lemma validEncoded_allb (s : string) :
  url.validEncoded s url.encodePath = true -> allb okOpaque s = true.
Proof.
  induction s as [|c s IH]; simpl; [reflexivity|].
  rewrite !andb_true_iff. intros [Hc Hs].
  split; [apply (proj1 (escaped_byte_facts c)); exact Hc | auto].
Qed.

Lemma escape_path_allb (s : string) :
  allb okOpaque (url.escape s url.encodePath) = true.
Proof.
  apply escape_allb; try reflexivity.
  - intros c Hc. apply (proj1 (proj2 (escaped_byte_facts c))). exact Hc.
  - intros c Hc. apply (proj1 (escaped_byte_facts c)). rewrite Hc.
    apply orb_true_r.
Qed.

(** The printed path has no control character, number sign or question
    mark. *)
Lemma EscapedPath_allb (u : url.URL) : allb okOpaque (url.EscapedPath u) = true.
Proof.
  destruct (EscapedPath_cases u) as [(-> & _ & Hv & _)|[[-> _]|[-> _]]].
  - now apply validEncoded_allb.
  - reflexivity.
  - apply escape_path_allb.
Qed.

Lemma rooted_not_star (s : string) : rooted s = true -> s <> "*".
Proof. intros H ->. discriminate. Qed.

(** The printed path of a URL with a rooted path is rooted. *)
Lemma EscapedPath_rooted (u : url.URL) :
  rooted (url.Path u) = true -> rooted (url.RawPath u) = true ->
  rooted (url.EscapedPath u) = true.
Proof.
  intros Hp Hr.
  destruct (EscapedPath_cases u) as [(-> & _)|[[_ Hs]|[-> _]]].
  - exact Hr.
  - now apply rooted_not_star in Hp.
  - apply escape_rooted; auto; discriminate.
Qed.

Lemma option_map_String_empty (a : ascii) (o : option string) :
  option_map (String a) o <> Some EmptyString.
Proof. destruct o; discriminate. Qed.

Lemma unescape_empty (s : string) (m : url.encoding) :
  url.unescape s m = Some EmptyString -> s = EmptyString.
Proof.
  destruct s as [|c s]; [reflexivity|]. cbn [url.unescape]. intros H. exfalso.
  destruct (Ascii.eqb c "%").
  - destruct s as [|h1 [|h2 r]]; try discriminate.
    cbv zeta in H.
    destruct (negb _) in H; [discriminate|].
    destruct (_ && _ && _) in H; [discriminate|].
    destruct (_ && _ && _ && _) in H; [discriminate|].
    exact (option_map_String_empty _ _ H).
  - destruct (Ascii.eqb c "+").
    + exact (option_map_String_empty _ _ H).
    + destruct (_ && _ && _) in H; [discriminate|].
      exact (option_map_String_empty _ _ H).
Qed.

Lemma EscapedPath_empty (u : url.URL) :
  url.EscapedPath u = EmptyString <-> url.Path u = EmptyString.
Proof.
  pose proof (EscapedPath_unescape u) as Hun. split.
  - intros He. rewrite He in Hun. simpl in Hun. congruence.
  - intros Hp.
    destruct (EscapedPath_cases u) as [(He & Hne & _ & H)|[[_ Hs]|[-> _]]].
    + rewrite Hp in H. apply unescape_empty in H. contradiction.
    + congruence.
    + now rewrite Hp.
Qed.

(** Setting the printed path of [u] on another URL gives the path of [u]
    and the same printed path. *)
Lemma setPath_EscapedPath (u v : url.URL) :
  url.Path u <> "*" ->
  exists v',
    url.setPath v (url.EscapedPath u) = Some v'
    /\ url.EscapedPath v' = url.EscapedPath u
    /\ url.Path v' = url.Path u
    /\ exists rp, v' = url.withPaths v (url.Path u) rp.
Proof.
  intros Hstar. unfold url.setPath. rewrite EscapedPath_unescape.
  set (e := url.EscapedPath u).
  destruct (String.eqb_spec e (url.escape (url.Path u) url.encodePath)) as [He|He].
  - eexists. split; [reflexivity|]. split; [|split; [reflexivity | eauto]].
    unfold url.EscapedPath at 1. simpl.
    destruct (String.eqb_spec (url.Path u) "*"); [contradiction | now symmetry].
  - eexists. split; [reflexivity|]. split; [|split; [reflexivity | eauto]].
    subst e.
    destruct (EscapedPath_cases u) as [(Hraw & Hne & Hv & Hun)|[[_ Hs]|[Hesc _]]];
      [|contradiction|contradiction].
    unfold url.EscapedPath at 1. simpl. rewrite Hraw.
    apply nonEmpty_true in Hne. rewrite Hne, Hv, Hun, String.eqb_refl.
    reflexivity.
Qed.

(** ** Unescaping, byte by byte *)

Lemma string_strong_ind (P : string -> Prop) :
  (forall s, (forall t, (String.length t < String.length s)%nat -> P t) -> P s) ->
  forall s, P s.
Proof.
  intros H s.
  assert (forall n t, (String.length t < n)%nat -> P t) as Hn.
  { induction n as [|n IH]; intros t Ht; [lia|].
    apply H. intros t' Ht'. apply IH. lia. }
  apply (Hn (S (String.length s))). lia.
Qed.

(** The byte a [%XX] triple stands for. *)
Lemma unescape_cons_inv (c : ascii) (s t : string) (m : url.encoding) :
  url.unescape (String c s) m = Some t ->
  (c = "%"%char
   /\ exists h1 h2 r t',
       s = String h1 (String h2 r)
       /\ url.unescape r m = Some t'
       /\ t = String (ascii_of_N (url.unhex h1 * 16 + url.unhex h2)) t'
       /\ url.ishex h1 = true /\ url.ishex h2 = true
       /\ (m = url.encodeHost ->
           (url.unhex h1 <? 8)%N = false
           \/ (h1 = "2"%char /\ h2 = "5"%char)))
  \/ (c <> "%"%char
      /\ exists t',
          url.unescape s m = Some t'
          /\ t = String (if Ascii.eqb c "+" && url.encoding_eqb m url.encodeQueryComponent
                         then " "%char else c) t'
          /\ (m = url.encodeHost ->
              (N_of_ascii c <? 128)%N && url.shouldEscape c url.encodeHost = false)).
Proof.
  cbn [url.unescape]. intros H.
  destruct (Ascii.eqb_spec c "%") as [->|Hne].
  - left. split; [reflexivity|].
    destruct s as [|h1 [|h2 r]]; try discriminate. cbv zeta in H.
    destruct (url.ishex h1 && url.ishex h2) eqn:Ehex; [|discriminate].
    apply andb_true_iff in Ehex as [Eh1 Eh2]. simpl negb in H. cbv iota in H.
    destruct (_ && _ && _) eqn:Ehost in H; [discriminate|].
    destruct (_ && _ && _ && _) in H; [discriminate|].
    destruct (url.unescape r m) as [t'|] eqn:Er; [|discriminate].
    injection H as <-. exists h1, h2, r, t'. repeat split; auto.
    intros ->. simpl in Ehost.
    destruct (url.unhex h1 <? 8)%N; [|auto]. simpl in Ehost.
    apply negb_false_iff, andb_true_iff in Ehost as [E1 E2].
    apply Ascii.eqb_eq in E1, E2. auto.
  - right. split; [exact Hne|].
    destruct (Ascii.eqb_spec c "+") as [->|Hplus].
    + destruct (url.unescape s m) as [t'|] eqn:Es; [|discriminate].
      injection H as <-. exists t'. repeat split.
    + destruct (_ && _ && _) eqn:Ehost in H; [discriminate|].
      destruct (url.unescape s m) as [t'|] eqn:Es; [|discriminate].
      injection H as <-. exists t'. repeat split.
      intros ->. simpl in Ehost. exact Ehost.
Qed.

Lemma unhex_lt (a : ascii) : (url.unhex a < 16)%N.
Proof. byte_cases a; vm_compute; reflexivity. Qed.

Lemma decoded_host_byte (h1 h2 : ascii) :
  (url.unhex h1 <? 8)%N = false \/ (h1 = "2"%char /\ h2 = "5"%char) ->
  let v := ascii_of_N (url.unhex h1 * 16 + url.unhex h2) in
  hostByte v = true /\ isNot ":" v = true /\ isNot "[" v = true
  /\ isNot "/" v = true /\ isNot "@" v = true.
Proof.
  intros [H8|[-> ->]]; [|vm_compute; auto].
  pose proof (unhex_lt h1) as Hn1. pose proof (unhex_lt h2) as Hn2.
  set (n1 := url.unhex h1) in *. set (n2 := url.unhex h2) in *.
  clearbody n1 n2. apply N.ltb_ge in H8. cbv zeta.
  assert (128 <= n1 * 16 + n2 < 256)%N as Hrange by lia.
  assert (N_of_ascii (ascii_of_N (n1 * 16 + n2)) = (n1 * 16 + n2)%N) as Hv
    by (apply N_ascii_embedding; lia).
  unfold hostByte, isNot. rewrite Hv.
  assert ((128 <=? n1 * 16 + n2)%N = true) as -> by (apply N.leb_le; lia).
  split; [reflexivity|].
  repeat split; apply negb_true_iff, Ascii.eqb_neq; intros Heq;
    assert (N_of_ascii (ascii_of_N (n1 * 16 + n2)) < 128)%N as Hlt
      by (rewrite Heq; vm_compute; reflexivity);
    rewrite Hv in Hlt; lia.
Qed.

Lemma raw_host_byte (c : ascii) :
  (N_of_ascii c <? 128)%N && url.shouldEscape c url.encodeHost = false ->
  hostByte c = true.
Proof.
  unfold hostByte. intros H. apply andb_false_iff in H as [H|H].
  - apply N.ltb_ge in H. apply N.leb_le in H. now rewrite H.
  - rewrite H. simpl. apply orb_true_r.
Qed.

(** A host that unescapes is made of host bytes. *)
Lemma unescape_host_bytes (s t : string) :
  url.unescape s url.encodeHost = Some t -> allb hostByte t = true.
Proof.
  revert t. induction s as [s IH] using string_strong_ind. intros t H.
  destruct s as [|c s]; [injection H as <-; reflexivity|].
  apply unescape_cons_inv in H
    as [(-> & h1 & h2 & r & t' & -> & Hr & -> & H1 & H2 & Hh)
       |(Hne & t' & Hs & -> & Hh)].
  - destruct (decoded_host_byte h1 h2 (Hh eq_refl)) as (Hb & _).
    cbv zeta in Hb. cbn [allb]. rewrite Hb. simpl.
    apply (IH r); [simpl; lia | exact Hr].
  - rewrite andb_false_r. simpl.
    rewrite (raw_host_byte c (Hh eq_refl)). apply (IH s); [simpl; lia | exact Hs].
Qed.

Lemma digit_facts (c : ascii) :
  url.isDigit c = true ->
  Ascii.eqb c "%" = false /\ Ascii.eqb c "+" = false
  /\ (forall m, url.shouldEscape c m = false) /\ isNot ":" c = true.
Proof.
  byte_cases c; vm_compute; intros H; try discriminate;
    repeat split; intros m; destruct m; reflexivity.
Qed.

Lemma unescape_digits (d : string) (m : url.encoding) :
  url.allDigits d = true -> url.unescape d m = Some d.
Proof.
  induction d as [|c d IH]; simpl; [reflexivity|].
  rewrite andb_true_iff. intros [Hc Hd].
  destruct (digit_facts c Hc) as (-> & -> & Hesc & _).
  rewrite (Hesc url.encodeHost), andb_false_r, IH by exact Hd. reflexivity.
Qed.

Lemma escape_digits (d : string) (m : url.encoding) :
  url.allDigits d = true -> url.escape d m = d.
Proof.
  induction d as [|c d IH]; simpl; [reflexivity|].
  rewrite andb_true_iff. intros [Hc Hd].
  destruct (digit_facts c Hc) as (_ & _ & Hesc & _).
  now rewrite Hesc, IH.
Qed.

Lemma allDigits_no_colon (d : string) :
  url.allDigits d = true -> allb (isNot ":") d = true.
Proof.
  induction d as [|c d IH]; simpl; [reflexivity|].
  rewrite !andb_true_iff. intros [Hc Hd].
  destruct (digit_facts c Hc) as (_ & _ & _ & Hn). auto.
Qed.

(** Unescaping goes through a byte that is no hexadecimal digit: the text
    before it is unescaped on its own. *)
Lemma unescape_app_sep (a d : string) (c : ascii) (m : url.encoding) :
  url.ishex c = false ->
  forall t,
    url.unescape (a ++ String c d) m = Some t ->
    exists ta td,
      url.unescape a m = Some ta /\ url.unescape (String c d) m = Some td
      /\ t = ta ++ td.
Proof.
  intros Hc. remember (String c d) as b eqn:Hb.
  induction a as [a IH] using string_strong_ind. intros t H.
  destruct a as [|x a]; [exists EmptyString, t; auto|].
  cbn [String.append url.unescape] in H |- *.
  destruct (Ascii.eqb x "%").
  - destruct a as [|y [|z a]]; cbn [String.append] in H.
    + subst b. destruct d as [|h2 d]; [discriminate|].
      cbv zeta in H. rewrite Hc in H. discriminate.
    + subst b. cbv zeta in H. rewrite Hc, andb_false_r in H. discriminate.
    + cbv zeta in H |- *. destruct (negb _); [discriminate|].
      destruct (_ && _ && _); [discriminate|].
      destruct (_ && _ && _ && _); [discriminate|].
      destruct (url.unescape (a ++ b) m) as [t'|] eqn:E; [|discriminate].
      cbn [option_map] in H. injection H as <-.
      destruct (IH a ltac:(simpl; lia) t' E) as (ta & td & -> & Htd & ->).
      eexists _, td. split; [reflexivity|]. split; [exact Htd | reflexivity].
  - destruct (Ascii.eqb x "+").
    + destruct (url.unescape (a ++ b) m) as [t'|] eqn:E; [|discriminate].
      cbn [option_map] in H. injection H as <-.
      destruct (IH a ltac:(simpl; lia) t' E) as (ta & td & -> & Htd & ->).
      eexists _, td. split; [reflexivity|]. split; [exact Htd | reflexivity].
    + destruct (_ && _ && _); [discriminate|].
      destruct (url.unescape (a ++ b) m) as [t'|] eqn:E; [|discriminate].
      cbn [option_map] in H. injection H as <-.
      destruct (IH a ltac:(simpl; lia) t' E) as (ta & td & -> & Htd & ->).
      eexists _, td. split; [reflexivity|]. split; [exact Htd | reflexivity].
Qed.

(** Unescaping a host brings in no colon. *)
Lemma unescape_host_no_colon (s t : string) :
  url.unescape s url.encodeHost = Some t ->
  allb (isNot ":") s = true -> allb (isNot ":") t = true.
Proof.
  revert t. induction s as [s IH] using string_strong_ind. intros t H Hs.
  destruct s as [|c s]; [injection H as <-; reflexivity|].
  apply unescape_cons_inv in H
    as [(-> & h1 & h2 & r & t' & -> & Hr & -> & H1 & H2 & Hh)
       |(Hne & t' & Hs' & -> & Hh)].
  - destruct (decoded_host_byte h1 h2 (Hh eq_refl)) as (_ & Hb & _).
    cbv zeta in Hb. cbn [allb]. rewrite Hb. simpl.
    apply (IH r); [simpl; lia | exact Hr|].
    simpl in Hs. repeat (apply andb_true_iff in Hs as [_ Hs]). exact Hs.
  - rewrite andb_false_r. simpl in *.
    apply andb_true_iff in Hs as [Hc Hs]. rewrite Hc. simpl.
    apply (IH s); [lia | exact Hs' | exact Hs].
Qed.

(** Unescaping a host keeps its first byte when that is a bracket, and
    brings in no bracket in front. *)
Lemma unescape_host_bracket (s t : string) :
  url.unescape s url.encodeHost = Some t ->
  strings.HasPrefix t "[" = strings.HasPrefix s "[".
Proof.
  intros H. destruct s as [|c s]; [injection H as <-; reflexivity|].
  apply unescape_cons_inv in H
    as [(-> & h1 & h2 & r & t' & -> & Hr & -> & H1 & H2 & Hh)
       |(Hne & t' & Hs' & -> & Hh)].
  - destruct (decoded_host_byte h1 h2 (Hh eq_refl)) as (_ & _ & Hb & _).
    cbv zeta in Hb. unfold isNot in Hb. apply negb_true_iff, Ascii.eqb_neq in Hb.
    transitivity false; [|reflexivity].
    destruct (strings.HasPrefix _ "[") eqn:E; [|reflexivity].
    apply HasPrefix_iff in E as [r' Hr']. injection Hr' as Hv _. contradiction.
  - rewrite andb_false_r.
    destruct (strings.HasPrefix (String c t') "[") eqn:E.
    + apply HasPrefix_iff in E as [r' Hr']. injection Hr' as -> _.
      symmetry. apply (HasPrefix_app "[" s).
    + symmetry. destruct (strings.HasPrefix (String c s) "[") eqn:E'; [|reflexivity].
      apply HasPrefix_iff in E' as [r' Hr']. injection Hr' as -> _.
      pose proof (HasPrefix_app "[" t') as Ht. simpl String.append in Ht.
      congruence.
Qed.

(** ** Hosts and user information *)

Lemma last_sep_unique (a a' b b' : string) (c : ascii) :
  a ++ String c b = a' ++ String c b' ->
  allb (isNot c) b = true -> allb (isNot c) b' = true -> a = a' /\ b = b'.
Proof.
  intros Heq Hb Hb'.
  pose proof (LastIndexByte_app a b c Hb) as H1.
  pose proof (LastIndexByte_app a' b' c Hb') as H2.
  rewrite Heq in H1. rewrite H1 in H2. injection H2 as Hlen.
  split.
  - rewrite <- (take_app a (String c b)), Heq, Hlen. apply take_app.
  - rewrite <- (drop_S_app a b c), Heq, Hlen. apply drop_S_app.
Qed.

Lemma isNot_self (c : ascii) : isNot c c = false.
Proof. unfold isNot. now rewrite Ascii.eqb_refl. Qed.

Lemma Index_zero (s sub : string) (i : nat) :
  strings.Index s sub = Some i -> strings.HasPrefix s sub = false -> i <> O.
Proof.
  destruct s as [|c s]; simpl; intros H Hp; rewrite Hp in H;
    [discriminate|].
  destruct (strings.Index s sub); [|discriminate]. injection H as <-. discriminate.
Qed.

(** A host that [parseHost] returns is a plain host unless it starts with
    a bracket. *)
Lemma parseHost_hostOK (h0 h : string) :
  url.parseHost h0 = Some h -> strings.HasPrefix h "[" = false -> hostOK h.
Proof.
  unfold url.parseHost. intros H Hb.
  destruct (strings.HasPrefix h0 "[") eqn:Eb.
  - exfalso.
    destruct (strings.LastIndexByte h0 "]") as [i|]; [|discriminate].
    destruct (negb _); [discriminate|].
    destruct (strings.Index (strings.take i h0) "%25") as [zone|] eqn:Ez.
    + destruct (url.unescape (strings.take zone h0) url.encodeHost) as [h1|] eqn:E1;
        [|discriminate].
      destruct (url.unescape (strings.drop zone _) _) as [h2|]; [|discriminate].
      destruct (url.unescape (strings.drop i h0) _) as [h3|]; [|discriminate].
      injection H as <-.
      apply HasPrefix_iff in Eb as [r ->].
      assert (zone <> O) as Hz.
      { apply (Index_zero _ _ _ Ez). destruct i; reflexivity. }
      destruct zone as [|zone]; [congruence|].
      simpl strings.take in E1.
      pose proof (unescape_host_bracket _ _ E1) as Hh1.
      change (String "[" (strings.take zone r))
        with ("[" ++ strings.take zone r) in Hh1.
      rewrite HasPrefix_app in Hh1. apply HasPrefix_iff in Hh1 as [r' ->].
      rewrite append_assoc, HasPrefix_app in Hb. discriminate.
    + rewrite (unescape_host_bracket _ _ H) in Hb. congruence.
  - assert (url.unescape h0 url.encodeHost = Some h) as Hun.
    { destruct (strings.LastIndexByte h0 ":"); [|exact H].
      destruct (negb _); [discriminate | exact H]. }
    split; [exact Hb|]. split; [eapply unescape_host_bytes; eauto|].
    intros a b Hab Hnb.
    destruct (strings.LastIndexByte h0 ":") as [i|] eqn:El.
    + destruct (LastIndexByte_Some _ _ _ El) as (a0 & d0 & -> & <- & Hd0).
      rewrite drop_app in H.
      destruct (url.validOptionalPort (String ":" d0)) eqn:Eport; [|discriminate].
      simpl in Eport.
      destruct (unescape_app_sep a0 d0 ":" url.encodeHost eq_refl _ Hun)
        as (ta & td & _ & Htd & ->).
      change (url.unescape (String ":" d0) url.encodeHost)
        with (option_map (String ":") (url.unescape d0 url.encodeHost)) in Htd.
      rewrite (unescape_digits _ _ Eport) in Htd. injection Htd as <-.
      destruct (last_sep_unique _ _ _ _ _ Hab Hd0 Hnb) as [_ <-]. exact Eport.
    + apply LastIndexByte_None_allb in El.
      pose proof (unescape_host_no_colon _ _ Hun El) as Hnc.
      rewrite Hab, allb_app in Hnc. apply andb_true_iff in Hnc as [_ Hnc].
      simpl in Hnc. discriminate.
Qed.

(** The bytes of an escaped string, when the bytes of the string itself
    are known. *)
Lemma escape_allb_raw (q : ascii -> bool) (m : url.encoding) (s : string) :
  q "%"%char = true -> q "+"%char = true ->
  (forall c, isUpperHex c = true -> q c = true) ->
  allb q s = true -> allb q (url.escape s m) = true.
Proof.
  intros Hp Hplus Hhex. induction s as [|c s IH]; simpl; [reflexivity|].
  rewrite andb_true_iff. intros [Hc Hs].
  destruct (url.shouldEscape c m).
  - destruct (_ && _); simpl; rewrite ?Hp, ?Hplus, ?IH; simpl; auto.
    destruct (hex_roundtrip c) as (_ & _ & _ & H1 & H2 & _).
    now rewrite (Hhex _ H1), (Hhex _ H2).
  - simpl. now rewrite Hc, IH.
Qed.

Lemma upperHex_isNot (c sep : ascii) :
  isUpperHex sep = false -> isUpperHex c = true -> isNot sep c = true.
Proof.
  intros Hsep Hc. unfold isNot. apply negb_true_iff, Ascii.eqb_neq.
  intros ->. congruence.
Qed.


Lemma escape_host_first (h : string) :
  strings.HasPrefix h "[" = false ->
  strings.HasPrefix (url.escape h url.encodeHost) "[" = false.
Proof.
  destruct h as [|c h]; [reflexivity|]. intros Hb. simpl.
  destruct (url.shouldEscape c url.encodeHost).
  - rewrite andb_false_r.
    match goal with |- strings.HasPrefix ?s _ = _ =>
      destruct (strings.HasPrefix s "[") eqn:E; [|reflexivity] end.
    apply HasPrefix_iff in E as [r Hr]. discriminate.
  - match goal with |- strings.HasPrefix ?s _ = _ =>
      destruct (strings.HasPrefix s "[") eqn:E; [|reflexivity] end.
    apply HasPrefix_iff in E as [r Hr]. injection Hr as -> _.
    pose proof (HasPrefix_app "[" h) as Ht. simpl String.append in Ht. congruence.
Qed.

(** A plain host is parsed back from its escaped form. *)
Lemma hostOK_roundtrip (h : string) :
  hostOK h -> url.parseHost (url.escape h url.encodeHost) = Some h.
Proof.
  intros (Hb & Hbytes & Hport). unfold url.parseHost.
  rewrite (escape_host_first _ Hb), (unescape_escape_host _ Hbytes).
  destruct (strings.LastIndexByte h ":") as [j|] eqn:El.
  - destruct (LastIndexByte_Some _ _ _ El) as (a & b & -> & <- & Hnb).
    pose proof (Hport a b eq_refl Hnb) as Hd.
    rewrite escape_app.
    change (url.escape (String ":" b) url.encodeHost)
      with (String ":" (url.escape b url.encodeHost)).
    rewrite (escape_digits _ _ Hd), (LastIndexByte_app _ _ _ Hnb), drop_app.
    simpl. now rewrite Hd.
  - apply LastIndexByte_None_allb in El.
    rewrite LastIndexByte_none; [reflexivity|].
    apply escape_allb_raw; try reflexivity; [|exact El].
    intros c. now apply upperHex_isNot.
Qed.

Lemma user_byte_facts (c : ascii) :
  (url.shouldEscape c url.encodeUserPassword = false -> userByte c = true)
  /\ (isUpperHex c = true -> userByte c = true /\ authByte c = true)
  /\ (hostByte c = true -> (N_of_ascii c <? 128)%N = true ->
      Ascii.eqb c "%" = false -> authByte c = true)
  /\ (url.shouldEscape c url.encodeHost = false -> authByte c = true).
Proof. byte_cases c; vm_compute; repeat split; congruence. Qed.

Lemma escape_user_allb (s : string) :
  allb userByte (url.escape s url.encodeUserPassword) = true.
Proof.
  apply escape_allb; try reflexivity.
  - intros c Hc. apply (proj1 (proj2 (user_byte_facts c))). exact Hc.
  - intros c Hc. apply (proj1 (user_byte_facts c)). exact Hc.
Qed.

Lemma escape_host_allb (h : string) :
  allb authByte (url.escape h url.encodeHost) = true.
Proof.
  apply escape_allb; try reflexivity.
  - intros c Hc. apply (proj1 (proj2 (user_byte_facts c))). exact Hc.
  - intros c Hc. apply (proj2 (proj2 (proj2 (user_byte_facts c)))). exact Hc.
Qed.

Lemma validUserinfo_allb (s : string) :
  url.validUserinfo s = allb userinfoByte s.
Proof. induction s as [|c s IH]; simpl; [reflexivity | now rewrite IH]. Qed.

Lemma Contains_byte (s : string) (c : ascii) :
  strings.Contains s (String c EmptyString) = negb (allb (isNot c) s).
Proof.
  induction s as [|x s IH]; [reflexivity|].
  rewrite Contains_eq, IH. cbn [allb]. unfold isNot at 2.
  destruct (Ascii.eqb_spec x c) as [->|Hne].
  - pose proof (HasPrefix_app (String c EmptyString) s) as Hp.
    change (String c EmptyString ++ s) with (String c s) in Hp.
    rewrite Hp. reflexivity.
  - destruct (strings.HasPrefix (String x s) (String c EmptyString)) eqn:E;
      [|reflexivity].
    apply HasPrefix_iff in E as [r Hr]. injection Hr as Hx _. contradiction.
Qed.

Lemma userByte_split (s : string) :
  allb userByte s = true ->
  allb userinfoByte s = true /\ allb (isNot "@") s = true
  /\ allb (isNot ":") s = true /\ allb (isNot "/") s = true
  /\ allb okOpaque s = true.
Proof.
  induction s as [|c s IH]; simpl; [auto|].
  unfold userByte at 1. rewrite !andb_true_iff.
  intros [[[[[H1 H2] H3] H4] H5] Hs].
  destruct (IH Hs) as (I1 & I2 & I3 & I4 & I5). auto 10.
Qed.

Lemma authByte_split (s : string) :
  allb authByte s = true ->
  allb (isNot "@") s = true /\ allb (isNot "/") s = true
  /\ allb okOpaque s = true.
Proof.
  induction s as [|c s IH]; simpl; [auto|].
  unfold authByte at 1. rewrite !andb_true_iff.
  intros [[[H1 H2] H3] Hs]. destruct (IH Hs) as (I1 & I2 & I3). auto.
Qed.

(** The printed authority is parsed back. *)
Lemma parseAuthority_roundtrip (usr : option url.Userinfo) (h : string) :
  hostOK h -> userOK usr ->
  url.parseAuthority (printedAuthority usr h) = Some (usr, h).
Proof.
  intros Hh Hu. unfold url.parseAuthority, printedAuthority.
  destruct (authByte_split _ (escape_host_allb h)) as (Hat & _).
  destruct usr as [[user pwd pset]|].
  - unfold url.Userinfo_String. simpl url.username. simpl url.password.
    simpl url.passwordSet.
    set (eu := url.escape user url.encodeUserPassword).
    set (ep := url.escape pwd url.encodeUserPassword).
    destruct (userByte_split _ (escape_user_allb user))
      as (Hu1 & Hu2 & Hu3 & _). fold eu in Hu1, Hu2, Hu3.
    destruct (userByte_split _ (escape_user_allb pwd))
      as (Hp1 & Hp2 & Hp3 & _). fold ep in Hp1, Hp2, Hp3.
    rewrite append_assoc. simpl String.append.
    rewrite (LastIndexByte_app _ _ _ Hat), drop_S_app, take_app.
    rewrite (hostOK_roundtrip _ Hh), validUserinfo_allb.
    destruct pset.
    + rewrite allb_app, Hu1. simpl. rewrite Hp1. simpl.
      rewrite Contains_byte, allb_app, Hu3. simpl.
      rewrite (Cut_app _ _ _ Hu3). unfold eu, ep.
      rewrite !unescape_escape by reflexivity. reflexivity.
    + rewrite append_nil_r, Hu1. simpl.
      rewrite Contains_byte, Hu3. simpl. unfold eu.
      rewrite unescape_escape by reflexivity.
      rewrite (Hu _ eq_refl eq_refl : pwd = EmptyString). reflexivity.
  - simpl String.append. rewrite (LastIndexByte_none _ _ Hat).
    now rewrite (hostOK_roundtrip _ Hh).
Qed.

(** ** Printing and parsing an absolute URL *)

Lemma escape_empty (m : url.encoding) : url.escape EmptyString m = EmptyString.
Proof. reflexivity. Qed.

Lemma nonEmpty_append (a b : string) :
  url.nonEmpty a = true -> url.nonEmpty (a ++ b) = true.
Proof. destruct a; [discriminate | reflexivity]. Qed.

Lemma rooted_HasPrefix (s : string) :
  rooted s = true ->
  url.nonEmpty s && negb (strings.HasPrefix s "/") = false.
Proof.
  intros H. rewrite HasPrefix_rooted, H, andb_true_r.
  destruct (url.nonEmpty s); reflexivity.
Qed.

(** What [URL.String] prints for an absolute URL without fragment. *)
Lemma URL_String_abs (u : url.URL) :
  url.Scheme u <> EmptyString -> url.Fragment u = EmptyString ->
  (url.Opaque u = EmptyString -> rooted (url.EscapedPath u) = true) ->
  url.URL_String u = url.Scheme u ++ ":" ++ printedBody u ++ printedQuery u.
Proof.
  intros Hs Hf Hroot. unfold url.URL_String, printedBody, printedQuery.
  cbv zeta. apply nonEmpty_true in Hs. rewrite Hs, Hf. simpl orb. cbv iota.
  change (url.nonEmpty EmptyString) with false. cbv iota.
  destruct (url.nonEmpty (url.Opaque u)) eqn:Eo.
  - destruct (_ || _); rewrite ?append_assoc, ?append_nil_r; reflexivity.
  - apply nonEmpty_false in Eo. specialize (Hroot Eo).
    rewrite (rooted_HasPrefix _ Hroot). simpl andb. cbv iota.
    unfold printedHier, printedAuthority.
    assert ((if url.nonEmpty (url.Host u)
             then url.escape (url.Host u) url.encodeHost else EmptyString)
            = url.escape (url.Host u) url.encodeHost) as ->.
    { destruct (url.nonEmpty (url.Host u)) eqn:Eh; [reflexivity|].
      apply nonEmpty_false in Eh. now rewrite Eh. }
    destruct (url.OmitHost u && negb (url.nonEmpty (url.Host u))
              && negb (url.isSome (url.User u))).
    + rewrite (nonEmpty_append _ _ Hs). simpl negb. simpl andb. cbv iota.
      destruct (_ || _); rewrite ?append_assoc, ?append_nil_r; reflexivity.
    + assert (forall x, url.nonEmpty ((url.Scheme u ++ ":") ++ x) = true) as Hne
        by (intros x; apply nonEmpty_append, nonEmpty_append, Hs).
      rewrite Hne. simpl negb. simpl andb. cbv iota.
      destruct (url.ForceQuery u || url.nonEmpty (url.RawQuery u));
        rewrite ?append_assoc, ?append_nil_r; reflexivity.
Qed.

Lemma HasSuffixByte_Count (s : string) (c : ascii) :
  strings.HasSuffixByte s c = true -> strings.Count s c <> O.
Proof.
  intros H. apply HasSuffixByte_inv in H. rewrite H, Count_app.
  simpl. rewrite Ascii.eqb_refl. lia.
Qed.

Lemma HasSuffixByte_cons (x : ascii) (s : string) (c : ascii) :
  s <> EmptyString ->
  strings.HasSuffixByte (String x s) c = strings.HasSuffixByte s c.
Proof. destruct s; [congruence | reflexivity]. Qed.

Lemma HasSuffixByte_skip (a b : string) (c d e : ascii) :
  strings.HasSuffixByte (a ++ String d (String e b)) c
  = strings.HasSuffixByte (String e b) c.
Proof.
  induction a as [|x a IH]; [reflexivity|].
  change (String x a ++ String d (String e b))
    with (String x (a ++ String d (String e b))).
  rewrite HasSuffixByte_cons; [exact IH | destruct a; discriminate].
Qed.

(** The query that [URL.String] prints is cut off again by [parse]. *)
Lemma cutQuery_print (body q : string) (force : bool) :
  allb (isNot "?") body = true -> (force = true -> q = EmptyString) ->
  url.cutQuery
    (body ++ (if force || url.nonEmpty q then "?" ++ q else EmptyString))
  = (body, force, q).
Proof.
  intros Hb Hq. pose proof (proj2 (Count_zero body "?") Hb) as Hc.
  unfold url.cutQuery. destruct force.
  - rewrite (Hq eq_refl). simpl orb. cbv iota. simpl String.append.
    rewrite HasSuffixByte_app, Count_app, Hc, dropLast_app. reflexivity.
  - simpl orb. destruct q as [|e q].
    + simpl url.nonEmpty. cbv iota. rewrite append_nil_r, Hc, andb_false_r.
      now rewrite (Cut_none _ _ Hb).
    + simpl url.nonEmpty. cbv iota. simpl String.append.
      rewrite HasSuffixByte_skip, Count_app, Hc.
      destruct (strings.HasSuffixByte (String e q) "?") eqn:E.
      * apply HasSuffixByte_Count in E.
        change (strings.Count (String "?" (String e q)) "?")
          with (S (strings.Count (String e q) "?")).
        destruct (strings.Count (String e q) "?"); [contradiction|].
        simpl. now rewrite (Cut_app _ _ _ Hb).
      * simpl. now rewrite (Cut_app _ _ _ Hb).
Qed.

Lemma okOpaque_split (s : string) :
  allb okOpaque s = true ->
  allb notCTL s = true /\ allb (isNot "#") s = true
  /\ allb (isNot "?") s = true.
Proof.
  induction s as [|c s IH]; simpl; [auto|].
  unfold okOpaque at 1, okText. rewrite !andb_true_iff.
  intros [[[H1 H2] H3] Hs]. destruct (IH Hs) as (I1 & I2 & I3). auto.
Qed.

Lemma okText_split (s : string) :
  allb okText s = true ->
  allb notCTL s = true /\ allb (isNot "#") s = true.
Proof.
  induction s as [|c s IH]; simpl; [auto|].
  unfold okText at 1. rewrite !andb_true_iff.
  intros [[H1 H2] Hs]. destruct (IH Hs) as (I1 & I2). auto.
Qed.

(** The printed authority has no slash and none of the bytes that end the
    hierarchical part. *)
Lemma printedAuthority_allb (usr : option url.Userinfo) (h : string) :
  allb (isNot "/") (printedAuthority usr h) = true
  /\ allb okOpaque (printedAuthority usr h) = true.
Proof.
  unfold printedAuthority.
  destruct (authByte_split _ (escape_host_allb h)) as (_ & Hs & Ho).
  destruct usr as [[user pwd pset]|]; [|simpl String.append; auto].
  unfold url.Userinfo_String. simpl url.username. simpl url.password.
  simpl url.passwordSet.
  destruct (userByte_split _ (escape_user_allb user)) as (_ & _ & _ & U1 & U2).
  destruct (userByte_split _ (escape_user_allb pwd)) as (_ & _ & _ & P1 & P2).
  destruct pset; rewrite !allb_app, ?U1, ?U2, ?P1, ?P2, ?Hs, ?Ho; auto.
Qed.

Lemma schemeOK_allb (s : string) :
  schemeOK s = true -> allb okOpaque s = true.
Proof.
  assert (forall t, allb schemeByte t = true -> allb okOpaque t = true) as H.
  { intros t. apply allb_impl. intros c. byte_cases c; vm_compute; congruence. }
  destruct s as [|c s]; [reflexivity|]. unfold schemeOK.
  rewrite andb_true_iff. intros [_ Hs]. apply H, Hs.
Qed.

Lemma rooted_cons (s : string) :
  rooted s = true -> s <> EmptyString -> exists r, s = String "/" r.
Proof.
  destruct s as [|c r]; [congruence|]. simpl. intros H _.
  apply Ascii.eqb_eq in H. subst c. now exists r.
Qed.

(** [parse] reads the printed authority and path back. *)
Lemma parseHier_print (u : url.URL) (s q : string) (f : bool) :
  s <> EmptyString ->
  rooted (url.Path u) = true -> rooted (url.RawPath u) = true ->
  hostOK (url.Host u) -> userOK (url.User u) ->
  (url.OmitHost u = true ->
   url.Host u = EmptyString /\ url.User u = None) ->
  ambiguousRoot u = false -> printedHier u <> EmptyString ->
  exists v,
    url.parseHier (url.withQuery (url.withScheme url.zeroURL s) f q)
                  (printedHier u) false = Some v
    /\ strings.HasPrefix (printedHier u) "/" = true
    /\ url.Scheme v = s /\ url.Opaque v = EmptyString
    /\ url.ForceQuery v = f /\ url.RawQuery v = q
    /\ url.Fragment v = EmptyString /\ url.RawFragment v = EmptyString
    /\ url.EscapedPath v = url.EscapedPath u
    /\ printedHier v = printedHier u
    /\ url.Host v = url.Host u.
Proof.
  intros Hs Hp Hrp Hh Hu Ho Ha Hne.
  pose proof (EscapedPath_rooted u Hp Hrp) as He.
  set (url0 := url.withQuery (url.withScheme url.zeroURL s) f q).
  apply nonEmpty_true in Hs.
  unfold url.parseHier. change (url.nonEmpty (url.Scheme url0)) with (url.nonEmpty s).
  rewrite Hs. simpl orb. simpl andb.
  unfold printedHier in *. destruct (url.OmitHost u) eqn:Eo.
  - destruct (Ho eq_refl) as [Hhost Huser]. rewrite Hhost, Huser in *.
    simpl in Hne |- *. unfold ambiguousRoot in Ha. rewrite Eo in Ha.
    simpl in Ha. rewrite Ha.
    destruct (rooted_cons _ He Hne) as [r Hr].
    assert (strings.HasPrefix (url.EscapedPath u) "/" = true) as Hsl
        by (rewrite HasPrefix_rooted, He; now destruct (url.EscapedPath u)).
    rewrite Hsl.
    destruct (setPath_EscapedPath u (url.withOmitHost url0 true)
                (rooted_not_star _ Hp)) as (v & Hv & Hve & Hvp & rp & ->).
    exists (url.withPaths (url.withOmitHost url0 true) (url.Path u) rp).
    rewrite Hv. repeat (split; [reflexivity|]). split; [exact Hve|].
    split; [|reflexivity].
    simpl. fold (url.EscapedPath u) in *. exact Hve.
  - simpl andb in *. cbv iota in *.
    destruct (url.nonEmpty (url.Host u) || url.nonEmpty (url.Path u)
              || url.isSome (url.User u)) eqn:Efl.
    + rewrite !append_assoc. rewrite HasPrefix_app.
      change (strings.drop 2 ("//" ++ ?x)) with x.
      destruct (printedAuthority_allb (url.User u) (url.Host u)) as [Hsl _].
      destruct (setPath_EscapedPath u
                  (url.withAuthority url0 (url.User u) (url.Host u))
                  (rooted_not_star _ Hp)) as (v & Hv & Hve & Hvp & rp & ->).
      exists (url.withPaths
                (url.withAuthority url0 (url.User u) (url.Host u))
                (url.Path u) rp).
      assert (match strings.IndexByte
                      (printedAuthority (url.User u) (url.Host u)
                       ++ url.EscapedPath u) "/" with
              | Some i =>
                  (strings.take i (printedAuthority (url.User u) (url.Host u)
                                   ++ url.EscapedPath u),
                   strings.drop i (printedAuthority (url.User u) (url.Host u)
                                   ++ url.EscapedPath u))
              | None => (printedAuthority (url.User u) (url.Host u)
                         ++ url.EscapedPath u, EmptyString)
              end = (printedAuthority (url.User u) (url.Host u),
                     url.EscapedPath u)) as ->.
      { destruct (url.EscapedPath u) as [|c r] eqn:Ee.
        - rewrite append_nil_r, (IndexByte_none _ _ Hsl). reflexivity.
        - simpl in He. apply Ascii.eqb_eq in He. subst c.
          rewrite (IndexByte_app _ _ _ Hsl), take_app, drop_app. reflexivity. }
      rewrite (parseAuthority_roundtrip _ _ Hh Hu), Hv.
      split; [reflexivity|]. split; [reflexivity|].
      repeat (split; [reflexivity|]). split; [exact Hve|].
      split; [|reflexivity].
      unfold printedHier. simpl. rewrite Efl.
      fold (url.EscapedPath u) in *. now rewrite Hve, !append_assoc.
    + exfalso. apply Hne. rewrite !orb_false_iff in Efl.
      destruct Efl as [[E1 E2] E3].
      apply nonEmpty_false in E1, E2. destruct (url.User u); [discriminate|].
      rewrite E1. apply (proj2 (EscapedPath_empty u)) in E2. now rewrite E2.
Qed.

Lemma printedBody_allb (u : url.URL) :
  allb okOpaque (url.Opaque u) = true -> allb okOpaque (printedBody u) = true.
Proof.
  intros Ho. unfold printedBody, printedHier.
  destruct (url.nonEmpty (url.Opaque u)); [exact Ho|].
  destruct (printedAuthority_allb (url.User u) (url.Host u)) as [_ Hauth].
  rewrite allb_app, EscapedPath_allb, andb_true_r.
  destruct (_ && _); [reflexivity|].
  rewrite allb_app, Hauth, andb_true_r. destruct (_ || _); reflexivity.
Qed.

Lemma printedQuery_allb (u : url.URL) :
  allb okText (url.RawQuery u) = true -> allb okText (printedQuery u) = true.
Proof.
  intros Hq. unfold printedQuery. destruct (_ || _); [|reflexivity].
  rewrite allb_app, Hq. reflexivity.
Qed.

Lemma scheme_colon_not_star (s r : string) :
  s <> EmptyString -> String.eqb (s ++ ":" ++ r) "*" = false.
Proof.
  intros Hs. apply String.eqb_neq. intros E.
  destruct s as [|c [|d s]]; [congruence | discriminate | discriminate].
Qed.

Lemma printedHier_empty_host (u : url.URL) :
  printedHier u = EmptyString ->
  (url.OmitHost u = true -> url.Host u = EmptyString) ->
  url.Host u = EmptyString.
Proof.
  unfold printedHier. intros H Ho.
  destruct (url.OmitHost u); [now apply Ho|]. simpl andb in H. cbv iota in H.
  destruct (url.nonEmpty (url.Host u)) eqn:E; [|now apply nonEmpty_false].
  simpl orb in H. cbv iota in H. rewrite !append_assoc in H. discriminate.
Qed.

(** [parse] reads back what [URL.String] prints for an absolute URL. *)
Lemma parse_print (u : url.URL) :
  WF u -> hostOK (url.Host u) -> url.Scheme u <> EmptyString ->
  ambiguousRoot u = false ->
  exists v,
    url.parse (url.Scheme u ++ ":" ++ printedBody u ++ printedQuery u) false
    = Some v
    /\ url.Scheme v = url.Scheme u
    /\ url.Fragment v = EmptyString /\ url.RawFragment v = EmptyString
    /\ (url.Opaque v = EmptyString -> rooted (url.EscapedPath v) = true)
    /\ printedBody v = printedBody u /\ printedQuery v = printedQuery u
    /\ (url.Opaque u = EmptyString -> url.Host v = url.Host u).
Proof.
  intros W Hh Hs Ha.
  pose proof (printedBody_allb u (wf_opaque u W)) as Hbody.
  pose proof (printedQuery_allb u (wf_query u W)) as Hquery.
  pose proof (schemeOK_allb _ (wf_scheme u W)) as Hscheme.
  destruct (okOpaque_split _ Hbody) as (B1 & _ & B3).
  destruct (okOpaque_split _ Hscheme) as (S1 & _ & _).
  destruct (okText_split _ Hquery) as (Q1 & _).
  unfold url.parse.
  rewrite notCTL_stringContainsCTLByte
    by (rewrite !allb_app, S1, B1, Q1; reflexivity).
  rewrite andb_false_r, (scheme_colon_not_star _ _ Hs).
  rewrite (getScheme_app _ _ Hs (wf_scheme u W)).
  rewrite (ToLower_schemeOK_id _ (wf_scheme u W)).
  unfold printedQuery at 1.
  rewrite (cutQuery_print _ _ _ B3 (wf_force u W)).
  set (url0 := url.withQuery (url.withScheme url.zeroURL (url.Scheme u))
                             (url.ForceQuery u) (url.RawQuery u)).
  change (url.nonEmpty (url.Scheme url0)) with (url.nonEmpty (url.Scheme u)).
  rewrite (proj2 (nonEmpty_true _) Hs).
  unfold printedBody in *. destruct (url.nonEmpty (url.Opaque u)) eqn:Eo.
  - rewrite (wf_opaque_rootless u W).
    exists (url.withOpaque url0 (url.Opaque u)).
    do 4 (split; [reflexivity|]). split; [|split; [|split]].
    + simpl. intros E. rewrite E in Eo. discriminate.
    + simpl. rewrite Eo. reflexivity.
    + reflexivity.
    + intros E. rewrite E in Eo. discriminate.
  - apply nonEmpty_false in Eo. destruct (wf_path u W Hs Eo) as [Hp Hrp].
    destruct (printedHier u) as [|c r] eqn:Eh.
    + exists (url.withOpaque url0 EmptyString).
      do 4 (split; [reflexivity|]). split; [reflexivity|].
      split; [reflexivity|]. split; [reflexivity|].
      intros _. simpl. symmetry. apply (printedHier_empty_host u Eh).
      intros E. now destruct (wf_omit u W E).
    + rewrite <- Eh.
      destruct (parseHier_print u (url.Scheme u) (url.RawQuery u)
                  (url.ForceQuery u) Hs Hp Hrp Hh (wf_user u W))
        as (v & Hv & Hsl & V1 & V2 & V3 & V4 & V5 & V6 & V7 & V8 & V9).
      * intros E. destruct (wf_omit u W E) as (? & ? & _). auto.
      * exact Ha.
      * rewrite Eh. discriminate.
      * fold url0 in Hv. rewrite Hsl, Hv. exists v.
        split; [reflexivity|]. do 3 (split; [assumption|]).
        split; [|split; [|split]].
        -- intros _. rewrite V7. now apply EscapedPath_rooted.
        -- rewrite V2. simpl. exact V8.
        -- unfold printedQuery. now rewrite V3, V4.
        -- intros _. exact V9.
Qed.

Lemma withFragment_id (v : url.URL) :
  url.Fragment v = EmptyString -> url.withFragment v EmptyString = v.
Proof. destruct v. simpl. intros ->. reflexivity. Qed.

Lemma HasPrefix_allb (s : string) (c : ascii) (p : ascii -> bool) :
  allb p s = true -> p c = false ->
  strings.HasPrefix s (String c EmptyString) = false.
Proof.
  intros Hs Hc. destruct (strings.HasPrefix s (String c EmptyString)) eqn:E;
    [|reflexivity].
  apply HasPrefix_iff in E as [r ->]. simpl in Hs. rewrite Hc in Hs.
  discriminate.
Qed.

(** Printing an absolute well-formed URL and parsing the text gives a URL
    that prints the same. *)
Lemma Parse_URL_String (u : url.URL) :
  WF u -> hostOK (url.Host u) -> url.Scheme u <> EmptyString ->
  url.Fragment u = EmptyString -> ambiguousRoot u = false ->
  exists v,
    url.Parse (url.URL_String u) = Some v
    /\ url.IsAbs v = true
    /\ url.URL_String (url.withFragment v EmptyString) = url.URL_String u
    /\ (url.Opaque u = EmptyString -> url.Host v = url.Host u)
    /\ url.Fragment v = EmptyString.
Proof.
  intros W Hh Hs Hf Ha.
  assert (url.Opaque u = EmptyString -> rooted (url.EscapedPath u) = true)
    as Hroot.
  { intros Ho. destruct (wf_path u W Hs Ho). now apply EscapedPath_rooted. }
  rewrite (URL_String_abs u Hs Hf Hroot).
  destruct (parse_print u W Hh Hs Ha)
    as (v & Hv & V1 & V2 & V3 & V4 & V5 & V6 & V7).
  exists v. unfold url.Parse.
  pose proof (printedBody_allb u (wf_opaque u W)) as Hbody.
  pose proof (printedQuery_allb u (wf_query u W)) as Hquery.
  pose proof (schemeOK_allb _ (wf_scheme u W)) as Hscheme.
  destruct (okOpaque_split _ Hbody) as (_ & B2 & _).
  destruct (okOpaque_split _ Hscheme) as (_ & S2 & _).
  destruct (okText_split _ Hquery) as (_ & Q2).
  rewrite Cut_none by (rewrite !allb_app, S2, B2, Q2; reflexivity).
  rewrite Hv. simpl String.eqb. cbv iota. split; [reflexivity|].
  rewrite (withFragment_id v V2).
  assert (url.Scheme v <> EmptyString) as Hsv by now rewrite V1.
  split; [unfold url.IsAbs; now apply nonEmpty_true|].
  split; [|split; [exact V7 | exact V2]].
  rewrite (URL_String_abs v Hsv V2 V4), V1, V5, V6. reflexivity.
Qed.

(** ** [resolvePath] keeps paths rooted and escaped *)

Lemma unescape_pctOK (s : string) :
  url.isSome (url.unescape s url.encodePath) = pctOK s.
Proof.
  induction s as [s IH] using string_strong_ind.
  destruct s as [|c s]; [reflexivity|].
  unfold pctOK in *. cbn [url.unescape pctFrom].
  destruct (Ascii.eqb c "%").
  - destruct s as [|h1 [|h2 r]]; [reflexivity | |].
    + cbn [pctFrom]. now rewrite andb_false_r.
    + cbn [pctFrom]. simpl url.encoding_eqb. simpl andb. cbv iota.
      rewrite andb_assoc. destruct (url.ishex h1 && url.ishex h2);
        [|reflexivity].
      simpl negb. cbv iota. simpl andb. rewrite <- (IH r) by (simpl; lia).
      now destruct (url.unescape r url.encodePath).
  - destruct (Ascii.eqb c "+").
    + rewrite <- (IH s) by (simpl; lia).
      now destruct (url.unescape s url.encodePath).
    + simpl url.encoding_eqb. simpl orb. simpl andb. cbv iota.
      rewrite <- (IH s) by (simpl; lia).
      now destruct (url.unescape s url.encodePath).
Qed.

Lemma pctFrom_app (n : nat) (a c : string) :
  pctFrom n a = true -> pctFrom n (a ++ c) = pctFrom 0 c.
Proof.
  revert n. induction a as [|x a IH]; intros n.
  - destruct n; [reflexivity | discriminate].
  - change (String x a ++ c) with (String x (a ++ c)). cbn [pctFrom].
    destruct n as [|n].
    + destruct (Ascii.eqb x "%"); apply IH.
    + rewrite andb_true_iff. intros [-> H]. simpl. now apply IH.
Qed.

Lemma pctFrom_sep (n : nat) (a b : string) (c : ascii) :
  url.ishex c = false ->
  pctFrom n (a ++ String c b) = true -> pctFrom n a = true.
Proof.
  intros Hc. revert n. induction a as [|x a IH]; intros n.
  - simpl. destruct n; [reflexivity|]. now rewrite Hc.
  - change (String x a ++ String c b) with (String x (a ++ String c b)).
    cbn [pctFrom]. destruct n as [|n].
    + destruct (Ascii.eqb x "%"); apply IH.
    + rewrite !andb_true_iff. intros [-> H]. split; [reflexivity|].
      now apply IH.
Qed.

Lemma pctOK_app (a b : string) :
  pctOK a = true -> pctOK b = true -> pctOK (a ++ b) = true.
Proof. unfold pctOK. intros Ha Hb. now rewrite (pctFrom_app _ _ _ Ha). Qed.

Lemma pctOK_slash (a b : string) :
  pctOK (a ++ String "/" b) = true -> pctOK a = true /\ pctOK b = true.
Proof.
  unfold pctOK. intros H.
  pose proof (pctFrom_sep 0 a b "/" eq_refl H) as Ha. split; [exact Ha|].
  rewrite (pctFrom_app _ _ _ Ha) in H. exact H.
Qed.

(** The elements between the slashes of an escaped path are escaped. *)
Lemma Split_pctFrom (s : string) (n : nat) :
  pctFrom n s = true ->
  exists x xs, strings.Split s "/" = x :: xs
               /\ pctFrom n x = true /\ Forall (fun e => pctOK e = true) xs.
Proof.
  revert n. induction s as [|a s IH]; intros n H.
  - exists EmptyString, []. auto.
  - cbn [strings.Split]. cbn [pctFrom] in H.
    destruct (Ascii.eqb a "/") eqn:Ea.
    + apply Ascii.eqb_eq in Ea. subst a.
      destruct n as [|n]; [|discriminate]. simpl in H.
      destruct (IH 0%nat H) as (x & xs & -> & Hx & Hxs).
      exists EmptyString, (x :: xs). repeat split; auto.
    + destruct n as [|n].
      * destruct (Ascii.eqb a "%") eqn:Ep.
        -- destruct (IH 2%nat H) as (x & xs & -> & Hx & Hxs).
           exists (String a x), xs. cbn [pctFrom]. rewrite Ep. auto.
        -- destruct (IH 0%nat H) as (x & xs & -> & Hx & Hxs).
           exists (String a x), xs. cbn [pctFrom]. rewrite Ep. auto.
      * apply andb_true_iff in H as [Hh H].
        destruct (IH n H) as (x & xs & -> & Hx & Hxs).
        exists (String a x), xs. cbn [pctFrom]. rewrite Hh, Hx. auto.
Qed.

Lemma Split_pctOK (s : string) :
  pctOK s = true -> Forall (fun e => pctOK e = true) (strings.Split s "/").
Proof.
  intros H. destruct (Split_pctFrom s 0 H) as (x & xs & -> & Hx & Hxs).
  constructor; assumption.
Qed.

Lemma dstOK_pctOK (dst : string) : dstOK dst -> pctOK dst = true.
Proof. intros (d & -> & Hd). exact Hd. Qed.

Lemma resolveElem_dstOK (dst elem : string) (first : bool) :
  dstOK dst -> pctOK elem = true ->
  dstOK (url.resolveElem (dst, first) elem).1.
Proof.
  intros (d & -> & Hd) He. unfold url.resolveElem.
  destruct (String.eqb elem "."); [now exists d|].
  destruct (String.eqb elem "..").
  - change (strings.drop 1 (String "/" d)) with d.
    destruct (strings.LastIndexByte d "/") as [index|] eqn:E.
    + apply LastIndexByte_Some in E as (a & b & -> & <- & _).
      rewrite take_app. exists a. split; [reflexivity|].
      now apply pctOK_slash in Hd.
    + now exists EmptyString.
  - destruct first; simpl fst.
    + exists (d ++ elem). split; [reflexivity | now apply pctOK_app].
    + exists ((d ++ "/") ++ elem). split; [reflexivity|].
      apply pctOK_app; [|exact He]. now apply pctOK_app.
Qed.

Lemma fold_resolveElem_dstOK (elems : list string) (st : string * bool) :
  Forall (fun e => pctOK e = true) elems -> dstOK st.1 ->
  dstOK (fold_left url.resolveElem elems st).1.
Proof.
  intros H. revert st. induction H as [|e elems He _ IH]; intros [dst first] Hst.
  - exact Hst.
  - simpl fold_left. apply IH. now apply resolveElem_dstOK.
Qed.

(** The resolved path is empty or starts with a slash, and [unescape]
    accepts it. *)
Lemma resolvePath_ok (base ref : string) :
  pctOK base = true -> pctOK ref = true ->
  rooted (url.resolvePath base ref) = true
  /\ pctOK (url.resolvePath base ref) = true.
Proof.
  intros Hb Hr. unfold url.resolvePath.
  set (full := match ref with
               | EmptyString => base
               | String c _ =>
                   if Ascii.eqb c "/" then ref
                   else match strings.LastIndexByte base "/" with
                        | Some i => strings.take (S i) base ++ ref
                        | None => ref
                        end
               end).
  assert (pctOK full = true) as Hfull.
  { subst full. destruct ref as [|c r]; [exact Hb|].
    destruct (Ascii.eqb c "/"); [exact Hr|].
    destruct (strings.LastIndexByte base "/") as [i|] eqn:E; [|exact Hr].
    apply LastIndexByte_Some in E as (a & b & -> & <- & _).
    apply pctOK_slash in Hb as [Ha _].
    assert (strings.take (S (String.length a)) (a ++ String "/" b)
            = a ++ "/") as ->.
    { clear. induction a as [|x a IH]; simpl; [now destruct b|].
      now rewrite <- IH. }
    apply pctOK_app; [|exact Hr]. now apply pctOK_app. }
  clearbody full. destruct (String.eqb full EmptyString); [split; reflexivity|].
  cbv zeta.
  pose proof (fold_resolveElem_dstOK (strings.Split full "/") ("/", true)
                (Split_pctOK _ Hfull)) as Hdst.
  destruct Hdst as (d & Hd & Hdp); [now exists EmptyString|].
  rewrite Hd.
  set (r := if _ || _ then String "/" d ++ "/" else String "/" d).
  assert (exists d', r = String "/" d' /\ pctOK d' = true) as (d' & -> & Hd').
  { subst r. destruct (_ || _).
    - exists (d ++ "/"). split; [reflexivity | now apply pctOK_app].
    - now exists d. }
  destruct d' as [|c r']; [split; reflexivity|].
  destruct (Ascii.eqb c "/") eqn:Ec.
  - split; [simpl; exact Ec | exact Hd'].
  - split; [reflexivity | exact Hd'].
Qed.

(** ** [ResolveReference] against an absolute base *)

Lemma EscapedPath_pctOK (u : url.URL) : pctOK (url.EscapedPath u) = true.
Proof. rewrite <- unescape_pctOK, EscapedPath_unescape. reflexivity. Qed.

(** [setPath] accepts a resolved path; the error that [ResolveReference]
    ignores never occurs. *)
Lemma setPathIgnore_resolvePath (u : url.URL) (base ref : string) :
  pctOK base = true -> pctOK ref = true ->
  exists path rp,
    url.setPathIgnore u (url.resolvePath base ref) = url.withPaths u path rp
    /\ rooted path = true /\ rooted rp = true.
Proof.
  intros Hb Hr. destruct (resolvePath_ok base ref Hb Hr) as [Hroot Hok].
  unfold url.setPathIgnore, url.setPath. rewrite <- unescape_pctOK in Hok.
  destruct (url.unescape (url.resolvePath base ref) url.encodePath)
    as [path|] eqn:E; [|discriminate].
  pose proof (unescape_rooted _ _ _ E Hroot) as Hp.
  destruct (String.eqb _ _).
  - exists path, EmptyString. auto.
  - exists path, (url.resolvePath base ref). auto.
Qed.

Lemma WF_relative_opaque (ref : url.URL) :
  WF ref -> url.Scheme ref = EmptyString ->
  url.Opaque ref = EmptyString /\ url.OmitHost ref = false.
Proof.
  intros W Hs. split.
  - destruct (url.Opaque ref) eqn:E; [reflexivity|].
    exfalso. apply (wf_opaque_scheme ref W); [rewrite E; discriminate|exact Hs].
  - destruct (url.OmitHost ref) eqn:E; [|reflexivity].
    destruct (wf_omit ref W E) as (_ & _ & H). contradiction.
Qed.

Lemma WF_intro (s o : string) (usr : option url.Userinfo)
    (h p rp : string) (f : bool) (q fr rfr : string) :
  schemeOK s = true -> s <> EmptyString ->
  allb okOpaque o = true -> strings.HasPrefix o "/" = false ->
  allb okText q = true -> (f = true -> q = EmptyString) ->
  (exists h0, url.parseHost h0 = Some h) -> userOK usr ->
  (o = EmptyString -> rooted p = true /\ rooted rp = true) ->
  WF (url.mkURL s o usr h p rp false f q fr rfr).
Proof.
  intros. constructor; simpl; auto. discriminate.
Qed.

(** A relative reference resolved against an absolute base is a
    well-formed absolute URL with the scheme of the base. *)
Lemma ResolveReference_WF (u ref : url.URL) :
  WF u -> WF ref -> url.Scheme u <> EmptyString ->
  url.Scheme ref = EmptyString ->
  WF (url.ResolveReference u ref)
  /\ url.Scheme (url.ResolveReference u ref) = url.Scheme u
  /\ url.OmitHost (url.ResolveReference u ref) = false.
Proof.
  intros Wu Wr Hu Hr. destruct (WF_relative_opaque ref Wr Hr) as [Hop Hom].
  unfold url.ResolveReference. rewrite Hr.
  change (url.nonEmpty EmptyString) with false. cbv iota zeta.
  simpl orb. set (url := url.withScheme ref (url.Scheme u)).
  destruct (url.nonEmpty (url.Host ref) || url.isSome (url.User ref)).
  - destruct (setPathIgnore_resolvePath url (url.EscapedPath ref) EmptyString
                (EscapedPath_pctOK ref) eq_refl)
      as (path & rp & -> & Hp & Hrp).
    split; [|split; [reflexivity | exact Hom]].
    unfold url.withPaths, url, url.withScheme. simpl. rewrite Hom.
    apply WF_intro; auto using wf_scheme, wf_opaque, wf_opaque_rootless,
      wf_query, wf_force, wf_host.
    exact (wf_user ref Wr).
  - rewrite Hop. change (url.nonEmpty EmptyString) with false. cbv iota.
    set (url' := if _ && _ && _ then _ else url).
    assert (exists f q fr rfr,
               url' = url.mkURL (url.Scheme u) EmptyString (url.User ref)
                        (url.Host ref) (url.Path ref) (url.RawPath ref)
                        false f q fr rfr
               /\ allb okText q = true /\ (f = true -> q = EmptyString))
      as (f & q & fr & rfr & -> & Hq & Hf).
    { subst url'. destruct (_ && _ && _) eqn:Ec.
      - apply andb_true_iff in Ec as [Ec _].
        apply andb_true_iff in Ec as [_ Ec]. apply negb_true_iff in Ec.
        unfold url, url.withQuery, url.withScheme, url.withFragments.
        simpl. rewrite Hop, Hom, Ec.
        destruct (url.nonEmpty (url.Fragment ref)); do 4 eexists;
          (split; [reflexivity|]); (split; [apply (wf_query u Wu)|]);
          discriminate.
      - unfold url, url.withScheme. rewrite Hop, Hom. do 4 eexists.
        split; [reflexivity|]. split; [apply (wf_query ref Wr)|].
        apply (wf_force ref Wr). }
    destruct (negb (url.nonEmpty (url.Path ref)) && url.nonEmpty (url.Opaque u))
      eqn:Ec.
    + split; [|split; reflexivity].
      apply andb_true_iff in Ec as [_ Ec]. apply nonEmpty_true in Ec.
      unfold url.withPaths, url.withAuthority, url.withOpaque. simpl.
      apply WF_intro; auto using wf_scheme, wf_opaque, wf_opaque_rootless;
        try (exists EmptyString; reflexivity); try (intros ui [=]);
        try (intros E; contradiction).
    + destruct (setPathIgnore_resolvePath
                  (url.withAuthority
                     (url.mkURL (url.Scheme u) EmptyString (url.User ref)
                        (url.Host ref) (url.Path ref) (url.RawPath ref)
                        false f q fr rfr) (url.User u) (url.Host u))
                  (url.EscapedPath u) (url.EscapedPath ref)
                  (EscapedPath_pctOK u) (EscapedPath_pctOK ref))
        as (path & rp & -> & Hp & Hrp).
      split; [|split; reflexivity].
      unfold url.withPaths, url.withAuthority. simpl.
      apply WF_intro; auto using wf_scheme, wf_host.
      exact (wf_user u Wu).
Qed.

(** ** No fragment in the printed URL *)

Lemma setPathIgnore_text (u : url.URL) (p : string) :
  url.Scheme (url.setPathIgnore u p) = url.Scheme u
  /\ url.Opaque (url.setPathIgnore u p) = url.Opaque u
  /\ url.RawQuery (url.setPathIgnore u p) = url.RawQuery u.
Proof.
  unfold url.setPathIgnore, url.setPath.
  destruct (url.unescape p url.encodePath); [|auto].
  destruct (String.eqb p _); auto.
Qed.

(** The scheme, the opaque part and the query of a resolved reference come
    from the base or from the reference. *)
Lemma ResolveReference_text (u ref : url.URL) :
  let w := url.ResolveReference u ref in
  (url.Scheme w = url.Scheme u \/ url.Scheme w = url.Scheme ref)
  /\ (url.Opaque w = url.Opaque u \/ url.Opaque w = url.Opaque ref)
  /\ (url.RawQuery w = url.RawQuery u \/ url.RawQuery w = url.RawQuery ref).
Proof.
  unfold url.ResolveReference. cbv zeta.
  repeat match goal with
         | |- context [if ?b then _ else _] => destruct b
         end;
    repeat match goal with
           | |- context [url.setPathIgnore ?x ?p] =>
               destruct (setPathIgnore_text x p) as (-> & -> & ->)
           end; simpl; auto.
Qed.

Lemma URL_String_no_fragment (w : url.URL) :
  allb (isNot "#") (url.Scheme w) = true ->
  allb (isNot "#") (url.Opaque w) = true ->
  allb (isNot "#") (url.RawQuery w) = true ->
  url.Fragment w = EmptyString ->
  allb (isNot "#") (url.URL_String w) = true.
Proof.
  intros Hs Ho Hq Hf.
  pose proof (proj1 (proj2 (okOpaque_split _ (EscapedPath_allb w)))) as Hp.
  pose proof (proj1 (proj2 (okOpaque_split _
                (proj2 (printedAuthority_allb None (url.Host w)))))) as Hh.
  pose proof (proj1 (proj2 (okOpaque_split _
                (proj2 (printedAuthority_allb (url.User w) EmptyString)))))
    as Hu.
  unfold printedAuthority in Hh, Hu. simpl String.append in Hh.
  rewrite escape_empty, append_nil_r in Hu.
  unfold url.URL_String. cbv zeta. rewrite Hf.
  change (url.nonEmpty EmptyString) with false. cbv iota.
  repeat match goal with
         | |- context [if ?b then _ else _] => destruct b
         end;
    rewrite ?allb_app, ?Hs, ?Ho, ?Hq, ?Hp, ?Hh, ?Hu; reflexivity.
Qed.

(** ** The normalizer *)

Lemma normalizeURL_resolved (p : Parser) (x : string) :
  normalizeURL p x
  = match resolved p x with
    | Some w => url.URL_String (url.withFragment w EmptyString)
    | None => EmptyString
    end.
Proof.
  unfold normalizeURL, resolved. destruct (String.eqb x EmptyString);
    [reflexivity|].
  cbv zeta. destruct (url.Parse _); reflexivity.
Qed.

Lemma NewParser_WF (b : string) (p : Parser) :
  NewParser b = Some p -> WF (baseURL p).
Proof.
  unfold NewParser. destruct (url.Parse b) as [u|] eqn:E; [|discriminate].
  intros [= <-]. simpl. exact (Parse_WF _ _ E).
Qed.

Lemma resolved_inv (p : Parser) (x : string) (w : url.URL) :
  resolved p x = Some w ->
  exists parsed,
    WF parsed
    /\ (url.Scheme parsed <> EmptyString /\ w = parsed
        \/ url.Scheme parsed = EmptyString
           /\ w = url.ResolveReference (baseURL p) parsed).
Proof.
  unfold resolved. destruct (String.eqb x EmptyString); [discriminate|].
  cbv zeta. destruct (url.Parse _) as [parsed|] eqn:E; [|discriminate].
  intros [= <-]. exists parsed. split; [exact (Parse_WF _ _ E)|].
  unfold url.IsAbs. destruct (url.nonEmpty (url.Scheme parsed)) eqn:En.
  - left. split; [now apply nonEmpty_true | reflexivity].
  - right. split; [now apply nonEmpty_false | reflexivity].
Qed.

Lemma WF_no_fragment (u : url.URL) :
  WF u ->
  allb (isNot "#") (url.Scheme u) = true
  /\ allb (isNot "#") (url.Opaque u) = true
  /\ allb (isNot "#") (url.RawQuery u) = true.
Proof.
  intros W.
  destruct (okOpaque_split _ (schemeOK_allb _ (wf_scheme u W))) as (_ & ? & _).
  destruct (okOpaque_split _ (wf_opaque u W)) as (_ & ? & _).
  destruct (okText_split _ (wf_query u W)) as (_ & ?). auto.
Qed.


(** The printed URL without fragment has no number sign. *)
Lemma normalizeURL_no_fragment (b : string) (p : Parser) (x : string) :
  NewParser b = Some p ->
  allb (isNot "#") (normalizeURL p x) = true.
Proof.
  intros HN. pose proof (NewParser_WF _ _ HN) as Wb.
  rewrite normalizeURL_resolved.
  destruct (resolved p x) as [w|] eqn:E; [|reflexivity].
  destruct (resolved_inv _ _ _ E) as (parsed & Wp & Hw).
  destruct (WF_no_fragment _ Wb) as (B1 & B2 & B3).
  destruct (WF_no_fragment _ Wp) as (P1 & P2 & P3).
  apply URL_String_no_fragment; try reflexivity; simpl.
  - destruct Hw as [[_ ->]|[_ ->]]; [exact P1|].
    destruct (ResolveReference_text (baseURL p) parsed) as ([->| ->] & _);
      assumption.
  - destruct Hw as [[_ ->]|[_ ->]]; [exact P2|].
    destruct (ResolveReference_text (baseURL p) parsed) as (_ & [->| ->] & _);
      assumption.
  - destruct Hw as [[_ ->]|[_ ->]]; [exact P3|].
    destruct (ResolveReference_text (baseURL p) parsed) as (_ & _ & [->| ->]);
      assumption.
Qed.






Lemma Scheme_ResolveReference (b ref : url.URL) :
  url.Scheme (url.ResolveReference b ref) =
    if url.nonEmpty (url.Scheme ref) then url.Scheme ref else url.Scheme b.
Proof.
  unfold url.ResolveReference.
  destruct (url.nonEmpty (url.Scheme ref)) eqn:E; simpl orb; cbv iota zeta.
  - apply setPathIgnore_text.
  - repeat match goal with
           | |- context [if ?b then _ else _] => destruct b
           end;
      rewrite ?(proj1 (setPathIgnore_text _ _)); reflexivity.
Qed.

(** C4, as amended: [normalizeURL] case by case.  The empty input yields
    the empty string.  An input that begins with two slashes is first
    rewritten: the scheme of the base URL and a colon are put in front.  If
    the text does not parse, the result is the empty string.  Otherwise a
    relative URL is resolved against the base URL and an absolute one is
    kept, and the string of that URL with its fragment cleared is returned;
    it is the string of an absolute URL when the base URL is absolute, and
    need not be otherwise.  With the base [https://x.test/css/s.css], the
    input [img/a.png] yields [https://x.test/css/img/a.png]. *)
Theorem normalizeURL_cases (p : Parser) (urlStr : string) :
  normalizeURL p EmptyString = EmptyString
  /\ (urlStr <> EmptyString ->
      url.Parse (if strings.HasPrefix urlStr "//"
                 then url.Scheme (baseURL p) ++ ":" ++ urlStr
                 else urlStr) = None ->
      normalizeURL p urlStr = EmptyString)
  /\ (forall parsed,
        urlStr <> EmptyString ->
        url.Parse (if strings.HasPrefix urlStr "//"
                   then url.Scheme (baseURL p) ++ ":" ++ urlStr
                   else urlStr) = Some parsed ->
        normalizeURL p urlStr
        = url.URL_String
            (url.withFragment
               (if url.IsAbs parsed then parsed
                else url.ResolveReference (baseURL p) parsed) EmptyString)
        /\ (url.IsAbs (baseURL p) = true ->
            url.IsAbs
              (url.withFragment
                 (if url.IsAbs parsed then parsed
                  else url.ResolveReference (baseURL p) parsed) EmptyString)
            = true))
  /\ NewParser "https://x.test/css/s.css" = Some Sample.sheetParser
  /\ normalizeURL Sample.sheetParser "img/a.png"
     = "https://x.test/css/img/a.png".
Proof.
  split; [reflexivity|]. split; [|split].
  - intros Hne Hparse. apply String.eqb_neq in Hne.
    unfold normalizeURL. rewrite Hne. cbv zeta. now rewrite Hparse.
  - intros parsed Hne Hparse. apply String.eqb_neq in Hne.
    unfold normalizeURL. rewrite Hne. cbv zeta. rewrite Hparse.
    destruct (url.IsAbs parsed) eqn:Habs; simpl negb; cbv iota.
    + split; [reflexivity|]. intros _. exact Habs.
    + split; [reflexivity|]. unfold url.IsAbs in *. simpl.
      rewrite Scheme_ResolveReference, Habs. auto.
  - split; [reflexivity | vm_compute; reflexivity].
Qed.

(** C4, counterexample: the returned value is not always the string of an
    absolute URL.  [NewParser] accepts the base [//x.test/], which has no
    scheme; the relative input [a] is resolved against it to [//x.test/a],
    and that string parses to a URL that is not absolute. *)
Lemma normalizeURL_not_absolute :
  NewParser "//x.test/" = Some Sample.schemeless
  /\ url.IsAbs (baseURL Sample.schemeless) = false
  /\ normalizeURL Sample.schemeless "a" = "//x.test/a"
  /\ option_map url.IsAbs (url.Parse "//x.test/a") = Some false.
Proof. repeat split; vm_compute; reflexivity. Qed.

(** ** Further invariants of the crawl engine *)

Ltac step_cases H :=
  unfold exec, stepThread, setThread in H;
  repeat (case_match; simplify_eq; try discriminate).

Ltac pool_inv Ht :=
  repeat first
    [ apply Forall_app; split
    | apply Forall_insert
    | match goal with
      | |- Forall _ (_ :: _) => constructor
      | |- Forall _ [] => constructor
      end
    | exact Ht ].

Lemma getContentType_kind (contentType : string) :
  In (getContentType contentType) kinds.
Proof.
  unfold getContentType, kinds.
  repeat match goal with
         | |- context [if ?b then _ else _] => destruct b
         end; simpl; auto 10.
Qed.

Section CrawlRuns.

Variable html_Parse : string -> option html.Node.
Variable c : Crawler.

(** *** What a result says *)

Lemma results_in_scope_exec st a st' :
  scopeInv c st /\ Forall (fun r => IsInScope (client c) (URL r) = true) (results st) ->
  exec html_Parse c st a = Some st' ->
  Forall (fun r => IsInScope (client c) (URL r) = true) (results st').
Proof.
  intros [Ht Hr] H. step_cases H; simpl; try assumption.
  apply Forall_app; split; [assumption|]. repeat constructor. simpl.
  eapply Forall_lookup_1 in Ht; [|eassumption].
  eapply Ht. match goal with E : pc _ = _ |- _ => rewrite E end. reflexivity.
Qed.

(** Every result is for a URL in scope: [IsInScope] answered [true] for
    the URL string of the result. *)
Theorem results_in_scope (st : State) :
  Reachable html_Parse c st ->
  Forall (fun r => IsInScope (client c) (URL r) = true) (results st).
Proof.
  induction 1 as [now|st a st' Hst IH Hexec]; [constructor|].
  eapply results_in_scope_exec; [|eassumption]. split; [|exact IH].
  exact (scopeInv_Reachable html_Parse c st Hst).
Qed.

(** The [Type] of every result is one of the five content kinds. *)
Theorem results_kinds (st : State) :
  Reachable html_Parse c st ->
  Forall (fun r => In (Type_ r) kinds) (results st).
Proof.
  induction 1 as [now|st a st' Hst IH H]; [constructor|].
  step_cases H; simpl; try assumption.
  apply Forall_app; split; [assumption|]. constructor; [|constructor].
  apply getContentType_kind.
Qed.

(** The queue never holds more than its capacity of 1000 URLs. *)
Theorem queue_bounded (st : State) :
  Reachable html_Parse c st -> (length (queue st) <= queueCap)%nat.
Proof.
  induction 1 as [now|st a st' Hst IH H]; [simpl; unfold queueCap; lia|].
  step_cases H; simpl in *; try assumption; try lia.
  rewrite length_app. simpl.
  match goal with E : _ && _ = true |- _ =>
    apply andb_true_iff in E as [E _]; apply Nat.ltb_lt in E end.
  lia.
Qed.

(** *** Edge cases of the configuration *)


Lemma addInt_succ (d : Z) : 0 <= d < 2 ^ 63 - 1 -> addInt d 1 = d + 1.
Proof.
  intros H. unfold addInt, wrapInt.
  rewrite Z.mod_small by lia. lia.
Qed.

Lemma retPC_depth (r : Role) :
  pcDepth (retPC r) = None /\ checkedDepth (retPC r) = None.
Proof. destruct r; auto. Qed.

Lemma depth_range_exec st a st' :
  maxDepth c < 2 ^ 63 - 1 ->
  Forall (fun th =>
            (forall d, pcDepth (pc th) = Some d -> 0 <= d)
            /\ (forall d, checkedDepth (pc th) = Some d -> d <= maxDepth c))
         (threads st) ->
  exec html_Parse c st a = Some st' ->
  Forall (fun th =>
            (forall d, pcDepth (pc th) = Some d -> 0 <= d)
            /\ (forall d, checkedDepth (pc th) = Some d -> d <= maxDepth c))
         (threads st').
Proof.
  intros Hmax Ht H. step_cases H; simpl; try assumption.
  all: match goal with Hl : threads _ !! _ = Some ?t, E : pc ?t = _ |- _ =>
         let Hth := fresh "Hth" in
         assert (Hth := Ht); eapply Forall_lookup_1 in Hth; [|exact Hl];
         rewrite E in Hth; simpl in Hth; destruct Hth as [Hth1 Hth2]
       end.
  all: pool_inv Ht; simpl;
       try (destruct (retPC_depth (role t)) as [-> ->]);
       split; intros d' Hd'; simplify_eq; eauto; try lia.
  - match goal with E : admission _ _ _ _ = _ |- _ =>
      apply admission_true in E; destruct E as (_ & _ & Hd & _) end. exact Hd.
  - specialize (Hth1 _ eq_refl). specialize (Hth2 _ eq_refl).
    rewrite addInt_succ by lia. lia.
Qed.

(** When [maxDepth] is below the largest [int], the addition [depth+1]
    never wraps around: every depth in a run is between 0 and
    [maxDepth + 1], and no result has a negative depth. *)
Theorem depth_never_negative (st : State) :
  maxDepth c < 2 ^ 63 - 1 -> Reachable html_Parse c st ->
  Forall (fun r => 0 <= Depth r) (results st)
  /\ Forall (fun th => forall d, pcDepth (pc th) = Some d -> 0 <= d)
            (threads st).
Proof.
  intros Hmax Hst.
  assert (Forall (fun th =>
            (forall d, pcDepth (pc th) = Some d -> 0 <= d)
            /\ (forall d, checkedDepth (pc th) = Some d -> d <= maxDepth c))
            (threads st)
          /\ Forall (fun r => 0 <= Depth r) (results st)) as [Ht Hr].
  { induction Hst as [now|st a st' Hst [IHt IHr] H].
    - split; [|constructor]. apply Forall_replicate. simpl.
      split; discriminate.
    - split; [eapply depth_range_exec; eassumption|].
      step_cases H; simpl; try assumption.
      apply Forall_app; split; [assumption|]. constructor; [|constructor].
      simpl. eapply Forall_lookup_1 in IHt; [|eassumption].
      apply IHt. match goal with E : pc _ = _ |- _ => rewrite E end.
      reflexivity. }
  split; [exact Hr|]. eapply Forall_impl; [exact Ht|]. simpl. tauto.
Qed.

(** *** After [Stop] *)

Lemma exec_stopped st a st' :
  cancelled st = true -> queueClosed st = true ->
  exec html_Parse c st a = Some st' ->
  cancelled st' = true /\ queueClosed st' = true
  /\ requests st' = requests st
  /\ length (threads st') = length (threads st)
  /\ queue st' `suffix_of` queue st.
Proof.
  intros Hc Hq H.
  assert (ctxDone c st = true) as Hd by (unfold ctxDone; now rewrite Hc).
  pose proof (no_request_when_done html_Parse c st a st' Hd H) as Hreq.
  split; [|split; [|split; [exact Hreq|]]].
  - step_cases H; simpl; first [assumption | reflexivity].
  - step_cases H; simpl; first [assumption | reflexivity].
  - step_cases H; simpl; rewrite ?length_insert; try (split; reflexivity).
    + split; [reflexivity|]. apply suffix_cons_r. reflexivity.
    + match goal with E : _ && _ = true |- _ =>
        rewrite Hq, andb_false_r in E; discriminate end.
Qed.

(** After [Stop] no request is sent, nothing is added to the queue and no
    goroutine is started, whatever steps follow. *)
Theorem nothing_new_after_Stop (st st1 st2 : State) (acts : list Action) :
  exec html_Parse c st AStop = Some st1 ->
  run html_Parse c st1 acts = Some st2 ->
  requests st2 = requests st
  /\ length (threads st2) = length (threads st)
  /\ queue st2 `suffix_of` queue st
  /\ cancelled st2 = true.
Proof.
  intros Hstop Hrun.
  assert (cancelled st1 = true /\ queueClosed st1 = true
          /\ requests st1 = requests st
          /\ length (threads st1) = length (threads st)
          /\ queue st1 `suffix_of` queue st) as Hinv.
  { simpl in Hstop. destruct (stopClosed st); [discriminate|].
    injection Hstop as <-. simpl. repeat split; reflexivity. }
  clear Hstop. revert st1 Hinv Hrun.
  induction acts as [|a acts IH]; simpl; intros st1 Hinv Hrun.
  - injection Hrun as <-. tauto.
  - destruct (exec html_Parse c st1 a) as [st1'|] eqn:E; [|discriminate].
    destruct Hinv as (Hc & Hq & Hr & Ht & Hs).
    destruct (exec_stopped _ _ _ Hc Hq E) as (Hc' & Hq' & Hr' & Ht' & Hs').
    apply (IH st1'); [|exact Hrun].
    repeat split; try assumption; try congruence.
    etrans; eassumption.
Qed.

End CrawlRuns.

(** ** The invariants on the sample run *)

Lemma results_in_scope_witness :
  Forall (fun r => IsInScope (client Sample.crawler) (URL r) = true)
         (results (Sample.after (Sample.firstSteps Sample.plain))).
Proof.
  apply (results_in_scope Sample.noHTML Sample.crawler).
  apply Sample_after_Reachable.
Defined.

Lemma results_kinds_witness :
  Forall (fun r => In (Type_ r) kinds)
         (results (Sample.after (Sample.firstSteps Sample.plain))).
Proof.
  apply (results_kinds Sample.noHTML Sample.crawler).
  apply Sample_after_Reachable.
Defined.

Lemma queue_bounded_witness :
  (length (queue (Sample.after (Sample.firstSteps Sample.plain))) <= queueCap)%nat.
Proof.
  apply (queue_bounded Sample.noHTML Sample.crawler).
  apply Sample_after_Reachable.
Defined.


Lemma depth_never_negative_witness :
  maxDepth Sample.crawler < 2 ^ 63 - 1
  /\ Forall (fun r => 0 <= Depth r)
            (results (Sample.after (Sample.firstSteps Sample.plain))).
Proof.
  assert (maxDepth Sample.crawler < 2 ^ 63 - 1) as Hm by (vm_compute; reflexivity).
  split; [exact Hm|].
  apply (depth_never_negative Sample.noHTML Sample.crawler _ Hm).
  apply Sample_after_Reachable.
Defined.

Lemma nothing_new_after_Stop_witness :
  requests (Sample.after (Sample.firstSteps Sample.plain ++ [AStop; ATick 5]))
  = requests (Sample.after (Sample.firstSteps Sample.plain)).
Proof.
  refine (proj1 (nothing_new_after_Stop Sample.noHTML Sample.crawler
                   (Sample.after (Sample.firstSteps Sample.plain))
                   (Sample.after (Sample.firstSteps Sample.plain ++ [AStop]))
                   _ [ATick 5] _ _)); vm_compute; reflexivity.
Defined.

(** ** The extractors of parser.go *)

(** [getAttr] returns the value of the first attribute with the key, also
    when a later attribute has the same key, and the empty string when no
    attribute has the key. *)
Theorem getAttr_first (key : string) :
  (forall attrs,
      Forall (fun a => html.Key a <> key) attrs ->
      getAttr attrs key = EmptyString)
  /\ (forall pre a post,
        Forall (fun a' => html.Key a' <> key) pre -> html.Key a = key ->
        getAttr (pre ++ a :: post) key = html.Val a).
Proof.
  split.
  - intros attrs H. induction H as [|a attrs Ha _ IH]; [reflexivity|].
    simpl. apply String.eqb_neq in Ha. now rewrite Ha.
  - intros pre a post H Ha. induction H as [|x pre Hx _ IH]; simpl.
    + apply String.eqb_eq in Ha. now rewrite Ha.
    + apply String.eqb_neq in Hx. now rewrite Hx.
Qed.

(** The slice that [extractNode] is given comes first in its result. *)
Lemma extractNode_acc (p : Parser) :
  forall (n : html.Node) (urls : list string),
    extractNode p n urls = (urls ++ extractNode p n [])%list.
Proof.
  fix IH 1. intros [ty data attrs children] urls. simpl.
  assert (forall acc,
             fold_left (fun urls c => extractNode p c urls) children acc
             = (acc ++ fold_left (fun urls c => extractNode p c urls)
                         children [])%list) as Hfold.
  { induction children as [|c cs IHcs]; intros acc; simpl.
    - now rewrite app_nil_r.
    - rewrite (IHcs (extractNode p c acc)), (IHcs (extractNode p c [])).
      rewrite (IH c acc). now rewrite app_assoc. }
  rewrite Hfold.
  rewrite (Hfold (if html.isElement ty then _ else [])).
  destruct (html.isElement ty); [|reflexivity].
  destruct (urlAttr data) as [key|]; [|reflexivity].
  destruct (negb _); simpl; rewrite <- ?app_assoc; reflexivity.
Qed.

(** The result of [extractNode] on a node, from those on its children. *)
Lemma extractNode_children (p : Parser) (n : html.Node) (urls : list string) :
  extractNode p n urls
  = (urls ++ nodeURL p n
       ++ flat_map (fun c => extractNode p c []) (nodeChildren n))%list.
Proof.
  rewrite extractNode_acc. f_equal.
  destruct n as [ty data attrs children]. simpl nodeChildren.
  assert (forall acc,
             fold_left (fun urls c => extractNode p c urls) children acc
             = (acc ++ flat_map (fun c => extractNode p c []) children)%list)
    as Hfold.
  { induction children as [|c cs IHcs]; intros acc; simpl.
    - now rewrite app_nil_r.
    - rewrite IHcs, (extractNode_acc p c acc). now rewrite app_assoc. }
  simpl. rewrite Hfold. reflexivity.
Qed.

(** [ExtractURLs] goes through the document in document order: the result
    of [extractNode] is the slice it was given, then the URL of the node
    itself, then what its children give, first child first; so
    [ExtractURLs] returns the URL of the root followed by the URLs of the
    subtrees in sibling order, and an error when [html.Parse] fails. *)
Theorem extractNode_document_order (p : Parser) (n : html.Node)
    (urls : list string) :
  extractNode p n urls
  = (urls ++ nodeURL p n
       ++ flat_map (fun c => extractNode p c []) (nodeChildren n))%list
  /\ ExtractURLs p (Some n)
     = Some (nodeURL p n
               ++ flat_map (fun c => extractNode p c []) (nodeChildren n))%list
  /\ ExtractURLs p None = None.
Proof.
  split; [apply extractNode_children|]. split; [|reflexivity].
  unfold ExtractURLs. f_equal. rewrite extractNode_children. reflexivity.
Qed.

Lemma normalizeURL_no_number_sign (b : string) (p : Parser) (x : string) :
  NewParser b = Some p -> strings.Contains (normalizeURL p x) "#" = false.
Proof.
  intros HN. rewrite Contains_byte, (normalizeURL_no_fragment _ _ _ HN).
  reflexivity.
Qed.

(** Every URL that [extractNode] finds is the normalized form of a
    non-empty attribute value. *)
Lemma extractNode_normalized (p : Parser) :
  forall n : html.Node,
    Forall (fun u => exists v, v <> EmptyString /\ u = normalizeURL p v)
           (extractNode p n []).
Proof.
  fix IH 1. intros n. rewrite extractNode_children. simpl.
  destruct n as [ty data attrs children]. apply Forall_app. split.
  - simpl. destruct (html.isElement ty); [|constructor].
    destruct (urlAttr data) as [key|]; [|constructor].
    destruct (String.eqb_spec (getAttr attrs key) EmptyString) as [E|E];
      simpl; [constructor|].
    constructor; [|constructor]. now exists (getAttr attrs key).
  - simpl. induction children as [|c cs IHcs]; simpl; [constructor|].
    apply Forall_app. split; [apply IH | exact IHcs].
Qed.

(** No extracted URL has a fragment: when the parser was made by
    [NewParser], no URL returned by [ExtractURLs], [ExtractCSSURLs] or
    [ExtractJSURLs] contains a number sign. *)
Theorem extracted_urls_no_fragment (b : string) (p : Parser) :
  NewParser b = Some p ->
  (forall doc urls,
      ExtractURLs p doc = Some urls ->
      Forall (fun u => strings.Contains u "#" = false) urls)
  /\ (forall content,
        Forall (fun u => strings.Contains u "#" = false)
               (ExtractCSSURLs p content))
  /\ (forall content,
        Forall (fun u => strings.Contains u "#" = false)
               (ExtractJSURLs p content)).
Proof.
  intros HN. split; [|split].
  - intros [doc|] urls H; [|discriminate]. injection H as <-.
    eapply Forall_impl; [apply extractNode_normalized|].
    simpl. intros u (v & _ & ->). exact (normalizeURL_no_number_sign _ _ _ HN).
  - intros content. unfold ExtractCSSURLs. apply List.Forall_forall.
    intros u Hu. apply in_map_iff in Hu as (v & <- & _).
    exact (normalizeURL_no_number_sign _ _ _ HN).
  - intros content. unfold ExtractJSURLs. apply List.Forall_forall.
    intros u Hu. apply in_flat_map in Hu as (r & _ & Hu).
    apply in_map_iff in Hu as (v & <- & _).
    exact (normalizeURL_no_number_sign _ _ _ HN).
Qed.

Lemma extracted_urls_no_fragment_witness :
  NewParser "https://x.test/css/s.css" = Some Sample.sheetParser
  /\ ExtractCSSURLs Sample.sheetParser "a{b:url(img/a.png#top)}"
     = ["https://x.test/css/img/a.png"]
  /\ Forall (fun u => strings.Contains u "#" = false)
            (ExtractCSSURLs Sample.sheetParser "a{b:url(img/a.png#top)}").
Proof.
  split; [reflexivity|]. split; [vm_compute; reflexivity|].
  apply (extracted_urls_no_fragment "https://x.test/css/s.css"
           Sample.sheetParser eq_refl).
Defined.

(** ** The patterns of parser.go on a single reference *)

Lemma matchHere_Lit_fail (l : string) (r : regexp.Regexp) (s : string) :
  strings.HasPrefix s l = false ->
  regexp.matchHere (regexp.Seq (regexp.Lit l) r) s = None.
Proof.
  intros H. unfold regexp.matchHere. cbn [regexp.matchK]. now rewrite H.
Qed.

(** A pattern that starts with a literal finds nothing in a text without
    the literal. *)
Lemma findAllFrom_no_lit (l : string) (r : regexp.Regexp) (fuel : nat) :
  forall s, strings.Contains s l = false ->
            regexp.findAllFrom fuel (regexp.Seq (regexp.Lit l) r) s = [].
Proof.
  induction fuel as [|fuel IH]; intros s H; [reflexivity|].
  rewrite Contains_eq in H. apply orb_false_iff in H as [Hp Hc].
  cbn [regexp.findAllFrom]. rewrite (matchHere_Lit_fail _ _ _ Hp).
  destruct s as [|c t]; [reflexivity|]. now apply IH.
Qed.

(** The search skips a stretch of text in which the literal does not
    start. *)
Lemma findAllFrom_skip (l : string) (r : regexp.Regexp) (s : string) :
  forall pre fuel,
    noPrefixIn l pre s ->
    regexp.findAllFrom (String.length pre + fuel)
                       (regexp.Seq (regexp.Lit l) r) (pre ++ s)
    = regexp.findAllFrom fuel (regexp.Seq (regexp.Lit l) r) s.
Proof.
  induction pre as [|c pre IH]; intros fuel H; [reflexivity|].
  destruct H as [Hp Hrest].
  change (String.length (String c pre) + fuel)%nat
    with (S (String.length pre + fuel)).
  cbn [regexp.findAllFrom]. rewrite (matchHere_Lit_fail _ _ _ Hp).
  change (String c pre ++ s) with (String c (pre ++ s)). now apply IH.
Qed.

Lemma matchK_Lit {A} (l s cap : string) (k : string -> string -> option A) :
  regexp.matchK (regexp.Lit l) (l ++ s) cap k = k s cap.
Proof. cbn [regexp.matchK]. now rewrite HasPrefix_app, drop_app. Qed.

(** A greedy repetition takes the whole run when the rest of the pattern
    matches behind it. *)
Lemma starK_greedy {A} (p : ascii -> bool) (X tail : string)
    (k : string -> option A) (x : A) :
  allb p X = true -> stopsAt p tail -> k tail = Some x ->
  regexp.starK p (X ++ tail) k = Some x.
Proof.
  intros HX Ht Hk. induction X as [|c X IH].
  - simpl. destruct tail as [|d t]; simpl; [exact Hk|].
    simpl in Ht. now rewrite Ht.
  - simpl in HX. apply andb_true_iff in HX as [Hc HX].
    change (String c X ++ tail) with (String c (X ++ tail)).
    cbn [regexp.starK]. now rewrite Hc, (IH HX).
Qed.

Lemma matchK_Seq {A} (r1 r2 : regexp.Regexp) (s cap : string)
    (k : string -> string -> option A) :
  regexp.matchK (regexp.Seq r1 r2) s cap k
  = regexp.matchK r1 s cap (fun s' cap' => regexp.matchK r2 s' cap' k).
Proof. reflexivity. Qed.

Lemma matchK_optQuote {A} (q s cap : string)
    (k : string -> string -> option A) (x : A) :
  optQuote q = true ->
  (q = EmptyString -> stopsAt regexp.quote s) ->
  k s cap = Some x ->
  regexp.matchK (regexp.Opt (regexp.Class regexp.quote)) (q ++ s) cap k
  = Some x.
Proof.
  intros Hq Hs Hk. destruct q as [|c [|d q]]; simpl in Hq; try discriminate.
  - specialize (Hs eq_refl). change (EmptyString ++ s) with s.
    cbn [regexp.matchK]. destruct s as [|d t]; [exact Hk|].
    simpl in Hs. now rewrite Hs.
  - change (String c EmptyString ++ s) with (String c s).
    cbn [regexp.matchK]. now rewrite Hq, Hk.
Qed.

Lemma matchK_oneQuote {A} (q s cap : string)
    (k : string -> string -> option A) :
  oneQuote q = true ->
  regexp.matchK (regexp.Class regexp.quote) (q ++ s) cap k = k s cap.
Proof.
  intros Hq. destruct q as [|c [|d q]]; simpl in Hq; try discriminate.
  change (String c EmptyString ++ s) with (String c s).
  cbn [regexp.matchK]. now rewrite Hq.
Qed.

Lemma take_length_diff (X tail : string) :
  strings.take (String.length (X ++ tail) - String.length tail) (X ++ tail)
  = X.
Proof.
  rewrite length_append.
  replace (String.length X + String.length tail - String.length tail)%nat
    with (String.length X) by lia.
  apply take_app.
Qed.

(** The group of one or more bytes of a class captures a whole run. *)
Lemma matchK_Group_Plus {A} (p : ascii -> bool) (X tail cap : string)
    (k : string -> string -> option A) (x : A) :
  X <> EmptyString -> allb p X = true -> stopsAt p tail ->
  k tail X = Some x ->
  regexp.matchK (regexp.Group (regexp.Plus p)) (X ++ tail) cap k = Some x.
Proof.
  intros HX Hall Ht Hk. destruct X as [|c X']; [congruence|].
  simpl in Hall. apply andb_true_iff in Hall as [Hc Hall].
  change (String c X' ++ tail) with (String c (X' ++ tail)).
  cbn [regexp.matchK]. rewrite Hc.
  apply starK_greedy; [exact Hall | exact Ht|].
  change (String c (X' ++ tail)) with (String c X' ++ tail).
  rewrite take_length_diff. exact Hk.
Qed.

(** The literals [url(] and [fetch(] do not overlap themselves: a text
    without the literal, followed by the literal, has it at the end
    only. *)
Lemma noPrefixIn_url (pre rest : string) :
  strings.Contains pre "url(" = false ->
  noPrefixIn "url(" pre ("url(" ++ rest).
Proof.
  induction pre as [|c pre IH]; [intros _; exact I|]. intros H.
  rewrite Contains_eq in H. apply orb_false_iff in H as [Hp Hc].
  split; [|exact (IH Hc)].
  destruct (strings.HasPrefix (String c pre ++ "url(" ++ rest) "url(") eqn:E;
    [|reflexivity].
  exfalso. apply HasPrefix_iff in E as [r Hr].
  destruct pre as [|c2 [|c3 [|c4 pre']]]; cbn [String.append] in Hr;
    simplify_eq.
  pose proof (HasPrefix_app "url(" pre') as Hq. cbn [String.append] in Hq.
  congruence.
Qed.

Lemma noPrefixIn_fetch (pre rest : string) :
  strings.Contains pre "fetch(" = false ->
  noPrefixIn "fetch(" pre ("fetch(" ++ rest).
Proof.
  induction pre as [|c pre IH]; [intros _; exact I|]. intros H.
  rewrite Contains_eq in H. apply orb_false_iff in H as [Hp Hc].
  split; [|exact (IH Hc)].
  destruct (strings.HasPrefix (String c pre ++ "fetch(" ++ rest) "fetch(")
    eqn:E; [|reflexivity].
  exfalso. apply HasPrefix_iff in E as [r Hr].
  destruct pre as [|c2 [|c3 [|c4 [|c5 [|c6 pre']]]]];
    cbn [String.append] in Hr; simplify_eq.
  pose proof (HasPrefix_app "fetch(" pre') as Hq. cbn [String.append] in Hq.
  congruence.
Qed.

(** The pattern of [ExtractCSSURLs] at a reference. *)
Lemma cssPattern_match (q X q' post : string) :
  optQuote q = true -> optQuote q' = true ->
  X <> EmptyString -> allb regexp.notQuoteParen X = true ->
  regexp.matchHere cssPattern ("url(" ++ q ++ X ++ q' ++ ")" ++ post)
  = Some (post, X).
Proof.
  intros Hq Hq' HX Hall. unfold regexp.matchHere, cssPattern.
  rewrite matchK_Seq, matchK_Lit, matchK_Seq.
  apply matchK_optQuote; [exact Hq | |].
  - intros _. destruct X as [|c X']; [congruence|]. simpl in Hall |- *.
    apply andb_true_iff in Hall as [Hc _].
    unfold regexp.notQuoteParen in Hc. apply negb_true_iff in Hc.
    now destruct (regexp.quote c).
  - rewrite matchK_Seq. apply matchK_Group_Plus; [exact HX | exact Hall | |].
    + destruct q' as [|c [|d q']]; simpl in Hq'; try discriminate.
      * reflexivity.
      * simpl. unfold regexp.notQuoteParen. now rewrite Hq'.
    + rewrite matchK_Seq. apply matchK_optQuote; [exact Hq' | reflexivity|].
      now rewrite matchK_Lit.
Qed.

(** A [url(...)] reference in a style sheet, with or without quotes around
    the URL, is extracted and normalized when [url(] occurs nowhere else in
    the text; the two quotes need not be the same. *)
Theorem ExtractCSSURLs_reference (p : Parser) (pre q X q' post : string) :
  strings.Contains pre "url(" = false ->
  strings.Contains post "url(" = false ->
  optQuote q = true -> optQuote q' = true ->
  X <> EmptyString -> allb regexp.notQuoteParen X = true ->
  ExtractCSSURLs p (pre ++ "url(" ++ q ++ X ++ q' ++ ")" ++ post)
  = [normalizeURL p X].
Proof.
  intros Hpre Hpost Hq Hq' HX Hall.
  unfold ExtractCSSURLs, regexp.FindAllStringSubmatch.
  set (s := "url(" ++ q ++ X ++ q' ++ ")" ++ post).
  rewrite length_append.
  replace (S (String.length pre + String.length s))
    with (String.length pre + S (String.length s))%nat by lia.
  pose proof (cssPattern_match q X q' post Hq Hq' HX Hall) as Hm.
  fold s in Hm. unfold cssPattern in *.
  rewrite findAllFrom_skip by (apply noPrefixIn_url, Hpre).
  cbn [regexp.findAllFrom]. rewrite Hm.
  assert ((String.length post <? String.length s)%nat = true) as ->.
  { apply Nat.ltb_lt. subst s. rewrite !length_append. simpl. lia. }
  now rewrite (findAllFrom_no_lit _ _ _ _ Hpost).
Qed.

Lemma ExtractCSSURLs_reference_witness :
  ExtractCSSURLs Sample.sheetParser "body{background:url('img/a.png')}"
  = [normalizeURL Sample.sheetParser "img/a.png"]
  /\ normalizeURL Sample.sheetParser "img/a.png"
     = "https://x.test/css/img/a.png".
Proof.
  split; [|vm_compute; reflexivity].
  apply (ExtractCSSURLs_reference Sample.sheetParser "body{background:"
           "'" "img/a.png" "'" "}"); try reflexivity.
  discriminate.
Defined.

(** The first pattern of [ExtractJSURLs] at a call of [fetch]. *)
Lemma fetchPattern_match (q X q' post : string) :
  oneQuote q = true -> oneQuote q' = true ->
  X <> EmptyString -> allb regexp.notQuote X = true ->
  regexp.matchHere
    (regexp.Seq (regexp.Lit "fetch(") (regexp.Seq quoted (regexp.Lit ")")))
    ("fetch(" ++ q ++ X ++ q' ++ ")" ++ post)
  = Some (post, X).
Proof.
  intros Hq Hq' HX Hall. unfold regexp.matchHere, quoted.
  rewrite matchK_Seq, matchK_Lit, !matchK_Seq, (matchK_oneQuote _ _ _ _ Hq).
  rewrite matchK_Seq. apply matchK_Group_Plus; [exact HX | exact Hall | |].
  - destruct q' as [|c [|d q']]; simpl in Hq'; try discriminate.
    simpl. unfold regexp.notQuote. now rewrite Hq'.
  - now rewrite (matchK_oneQuote _ _ _ _ Hq'), matchK_Lit.
Qed.

(** A call [fetch('...')] in a script, with single or double quotes, is
    extracted and normalized when [fetch(] occurs nowhere else and the text
    has none of [.open(], [.get(] and [.post(]. *)
Theorem ExtractJSURLs_fetch (p : Parser) (content pre q X q' post : string) :
  content = pre ++ "fetch(" ++ q ++ X ++ q' ++ ")" ++ post ->
  strings.Contains pre "fetch(" = false ->
  strings.Contains post "fetch(" = false ->
  strings.Contains content ".open(" = false ->
  strings.Contains content ".get(" = false ->
  strings.Contains content ".post(" = false ->
  oneQuote q = true -> oneQuote q' = true ->
  X <> EmptyString -> allb regexp.notQuote X = true ->
  ExtractJSURLs p content = [normalizeURL p X].
Proof.
  intros Hc Hpre Hpost Hopen Hget Hpst Hq Hq' HX Hall.
  assert (regexp.FindAllStringSubmatch
            (regexp.Seq (regexp.Lit "fetch(")
               (regexp.Seq quoted (regexp.Lit ")"))) content = [X]) as H1.
  { unfold regexp.FindAllStringSubmatch. subst content.
    set (s := "fetch(" ++ q ++ X ++ q' ++ ")" ++ post).
    rewrite length_append.
    replace (S (String.length pre + String.length s))
      with (String.length pre + S (String.length s))%nat by lia.
    pose proof (fetchPattern_match q X q' post Hq Hq' HX Hall) as Hm.
    fold s in Hm.
    rewrite findAllFrom_skip by (apply noPrefixIn_fetch, Hpre).
    cbn [regexp.findAllFrom]. rewrite Hm.
    assert ((String.length post <? String.length s)%nat = true) as ->.
    { apply Nat.ltb_lt. subst s. rewrite !length_append. simpl. lia. }
    now rewrite (findAllFrom_no_lit _ _ _ _ Hpost). }
  unfold ExtractJSURLs, jsPatterns. cbn [flat_map]. rewrite H1.
  unfold regexp.FindAllStringSubmatch.
  rewrite (findAllFrom_no_lit _ _ _ _ Hopen), (findAllFrom_no_lit _ _ _ _ Hget),
    (findAllFrom_no_lit _ _ _ _ Hpst).
  reflexivity.
Qed.

Lemma ExtractJSURLs_fetch_witness :
  ExtractJSURLs Sample.sheetParser "x=fetch('/api/items');"
  = [normalizeURL Sample.sheetParser "/api/items"]
  /\ normalizeURL Sample.sheetParser "/api/items" = "https://x.test/api/items".
Proof.
  split; [|vm_compute; reflexivity].
  apply (ExtractJSURLs_fetch Sample.sheetParser _ "x=" "'" "/api/items" "'" ";");
    try reflexivity.
  discriminate.
Defined.

(** ** What stays in scope *)

Lemma HasPrefix_app_false (a b l : string) :
  strings.HasPrefix (a ++ b) l = false -> strings.HasPrefix a l = false.
Proof.
  intros H. destruct (strings.HasPrefix a l) eqn:E; [|reflexivity].
  apply HasPrefix_iff in E as [r ->]. rewrite append_assoc, HasPrefix_app in H.
  discriminate.
Qed.

(** A reference without scheme that does not start with two slashes has
    no authority. *)
Lemma parse_relative (raw : string) (u : url.URL) :
  url.parse raw false = Some u -> url.Scheme u = EmptyString ->
  strings.HasPrefix raw "//" = false ->
  url.Host u = EmptyString /\ url.User u = None.
Proof.
  intros H Hs Hraw. unfold url.parse in H.
  destruct (url.stringContainsCTLByte raw); [discriminate|].
  rewrite andb_false_r in H.
  destruct (String.eqb raw "*"); [injection H as <-; auto|].
  destruct (url.getScheme raw) as [[scheme rest0]|] eqn:Escheme; [|discriminate].
  destruct (url.cutQuery rest0) as [[rest force] q] eqn:Ecut.
  cbv zeta in H.
  assert (forall v, url.parseHier
                      (url.withQuery
                         (url.withScheme url.zeroURL (strings.ToLower scheme))
                         force q) rest false = Some v ->
                    url.Scheme v = EmptyString ->
                    url.Host v = EmptyString /\ url.User v = None) as Hhier.
  { intros v Hv Hsv.
    apply parseHier_inv in Hv
      as (url1 & rest1 & path & _ & -> & [Hcase|[Hcase|Hcase]]).
    - exfalso. destruct Hcase as (a & usr & host & _ & -> & -> & _).
      simpl in Hsv. apply (proj1 (ToLower_empty _)) in Hsv. subst scheme.
      destruct (getScheme_inv _ _ _ Escheme) as [[_ ->]|(_ & _ & Hf)];
        [|discriminate].
      destruct (cutQuery_inv _ _ _ _ Ecut) as [_ Hq].
      assert (exists t, raw = ("//" ++ a ++ rest1) ++ t) as [t Ht].
      { destruct force.
        - destruct Hq as [_ ->]. eauto.
        - destruct Hq as [[-> _]| ->]; [exists EmptyString|eauto].
          now rewrite append_nil_r. }
      rewrite Ht, append_assoc, HasPrefix_app in Hraw. discriminate.
    - destruct Hcase as (-> & _). auto.
    - destruct Hcase as (-> & _). auto. }
  destruct (strings.HasPrefix rest "/"); [now apply Hhier|].
  destruct (url.nonEmpty _); [injection H as <-; auto|].
  destruct (strings.Contains _ _); [discriminate|]. now apply Hhier.
Qed.

Lemma Parse_relative (x : string) (u : url.URL) :
  url.Parse x = Some u -> url.Scheme u = EmptyString ->
  strings.HasPrefix x "//" = false ->
  url.Host u = EmptyString /\ url.User u = None.
Proof.
  unfold url.Parse.
  destruct (strings.Cut x "#") as [[pre frag] found] eqn:Ecut.
  destruct (Cut_spec _ _ _ _ _ Ecut) as [_ Hx].
  destruct (url.parse pre false) as [u0|] eqn:Eparse; [|discriminate].
  intros H Hs Hpre.
  assert (strings.HasPrefix pre "//" = false) as Hpre'.
  { destruct found; [|destruct Hx as [-> _]; exact Hpre].
    rewrite Hx in Hpre. now apply HasPrefix_app_false in Hpre. }
  assert (url.Scheme u = url.Scheme u0 /\ url.Host u = url.Host u0
          /\ url.User u = url.User u0) as (E1 & E2 & E3).
  { destruct (String.eqb frag EmptyString); [injection H as <-; auto|].
    unfold url.setFragment in H.
    destruct (url.unescape frag _); [|discriminate].
    destruct (String.eqb frag _); injection H as <-; auto. }
  rewrite E2, E3. rewrite E1 in Hs. exact (parse_relative _ _ Eparse Hs Hpre').
Qed.

Lemma NewCrawler_bases (config : CrawlerConfig) (now : Z) (c : Crawler) :
  NewCrawler config now = Some c ->
  url.Parse (cfg_URL config) = Some (client_baseURL (client c))
  /\ baseURL (parser c) = client_baseURL (client c).
Proof.
  unfold NewCrawler, NewClient, NewParser. simpl.
  destruct (url.Parse (cfg_URL config)) as [b|]; [|discriminate].
  intros [= <-]. auto.
Qed.

Lemma plainBase_inv (u : url.URL) :
  plainBase u = true ->
  url.Scheme u <> EmptyString /\ url.Opaque u = EmptyString
  /\ strings.HasPrefix (url.Host u) "[" = false /\ ambiguousRoot u = false.
Proof.
  unfold plainBase, url.IsAbs. rewrite !andb_true_iff, !negb_true_iff.
  intros [[[H1 H2] H3] H4]. repeat split; auto.
  - now apply nonEmpty_true.
  - now apply nonEmpty_false.
Qed.

(** What is printed for a well-formed absolute URL with the host of the
    base URL is in scope. *)
Lemma printed_in_scope (cl : Client) (w : url.URL) :
  WF w -> url.Scheme w <> EmptyString -> url.Opaque w = EmptyString ->
  url.Fragment w = EmptyString ->
  strings.HasPrefix (url.Host w) "[" = false -> ambiguousRoot w = false ->
  url.Host w = url.Host (client_baseURL cl) ->
  IsInScope cl (url.URL_String w) = true.
Proof.
  intros W Hs Ho Hf Hb Ha Hh.
  assert (hostOK (url.Host w)) as Hok.
  { destruct (wf_host w W) as [h0 Hh0]. exact (parseHost_hostOK _ _ Hh0 Hb). }
  destruct (Parse_URL_String w W Hok Hs Hf Ha) as (v & Hv & _ & _ & Hhost & _).
  unfold IsInScope. rewrite Hv. unfold url.Hostname.
  rewrite (Hhost Ho), Hh. apply String.eqb_refl.
Qed.

Lemma setPathIgnore_host (u : url.URL) (p : string) :
  url.Host (url.setPathIgnore u p) = url.Host u.
Proof.
  unfold url.setPathIgnore, url.setPath.
  destruct (url.unescape p url.encodePath); [|reflexivity].
  destruct (String.eqb p _); reflexivity.
Qed.

(** A reference without scheme and authority takes the host of the
    base. *)
Lemma ResolveReference_host (u ref : url.URL) :
  url.Scheme ref = EmptyString -> url.Host ref = EmptyString ->
  url.User ref = None -> url.Opaque ref = EmptyString ->
  url.Opaque u = EmptyString ->
  url.Host (url.ResolveReference u ref) = url.Host u
  /\ url.Opaque (url.ResolveReference u ref) = EmptyString.
Proof.
  intros Hs Hh Hu Ho Hou. unfold url.ResolveReference.
  rewrite Hs, Hh, Hu, Ho, Hou.
  change (url.nonEmpty EmptyString) with false. simpl orb. cbv iota zeta.
  rewrite andb_false_r. rewrite setPathIgnore_host.
  split; [reflexivity|].
  rewrite (proj1 (proj2 (setPathIgnore_text _ _))). simpl.
  destruct (_ && _ && _); [|exact Ho].
  destruct (url.nonEmpty (url.Fragment ref)); exact Ho.
Qed.

(** The start URL passes the checks of [processURL]: for a plain base URL
    without fragment, the string that [Start] puts into the queue is in
    scope, and with a depth limit of at least 0 the first goroutine that
    takes it goes on to fetch it. *)
Theorem start_url_admitted (config : CrawlerConfig) (now : Z) (c : Crawler) :
  NewCrawler config now = Some c ->
  plainBase (client_baseURL (client c)) = true ->
  url.Fragment (client_baseURL (client c)) = EmptyString ->
  IsInScope (client c) (url.URL_String (client_baseURL (client c))) = true
  /\ (0 <= maxDepth c ->
      admission c ∅ (url.URL_String (client_baseURL (client c))) 0
      = ({[url.URL_String (client_baseURL (client c))]} ∪ ∅, true)).
Proof.
  intros HN Hplain Hf.
  destruct (NewCrawler_bases _ _ _ HN) as [Hparse _].
  destruct (plainBase_inv _ Hplain) as (Hs & Ho & Hb & Ha).
  assert (IsInScope (client c) (url.URL_String (client_baseURL (client c)))
          = true) as Hin.
  { apply printed_in_scope; auto. exact (Parse_WF _ _ Hparse). }
  split; [exact Hin|]. intros Hd. unfold admission.
  destruct (decide _) as [Hel|_]; [set_solver|].
  destruct (0 >? maxDepth c) eqn:E; [lia|]. now rewrite Hin.
Qed.

(** Relative links stay in scope: for a plain base URL, a reference that
    parses without a scheme and does not start with two slashes is
    normalized to a URL for which [IsInScope] answers [true]. *)
Theorem relative_link_in_scope (config : CrawlerConfig) (now : Z)
    (c : Crawler) (x : string) (parsed : url.URL) :
  NewCrawler config now = Some c ->
  plainBase (client_baseURL (client c)) = true ->
  x <> EmptyString -> strings.HasPrefix x "//" = false ->
  url.Parse x = Some parsed -> url.IsAbs parsed = false ->
  IsInScope (client c) (normalizeURL (parser c) x) = true.
Proof.
  intros HN Hplain Hx Hpre Hparse Habs.
  destruct (NewCrawler_bases _ _ _ HN) as [Hbase Hsame].
  destruct (plainBase_inv _ Hplain) as (Hs & Ho & Hb & Ha).
  pose proof (Parse_WF _ _ Hbase) as Wb.
  pose proof (Parse_WF _ _ Hparse) as Wp.
  unfold url.IsAbs in Habs. pose proof Habs as Hsp.
  apply nonEmpty_false in Hsp.
  destruct (Parse_relative _ _ Hparse Hsp Hpre) as [Hhost Huser].
  destruct (WF_relative_opaque _ Wp Hsp) as [Hop _].
  unfold normalizeURL. apply String.eqb_neq in Hx. rewrite Hx, Hpre.
  cbv zeta. rewrite Hparse. unfold url.IsAbs. rewrite Habs. simpl negb.
  cbv iota. rewrite Hsame.
  set (w := url.ResolveReference (client_baseURL (client c)) parsed).
  destruct (ResolveReference_WF _ _ Wb Wp Hs Hsp) as (Ww & Hsw & Hom).
  destruct (ResolveReference_host _ _ Hsp Hhost Huser Hop Ho) as [Hhw How].
  fold w in Ww, Hsw, Hom, Hhw, How.
  apply printed_in_scope.
  - now apply WF_withFragments.
  - simpl. now rewrite Hsw.
  - exact How.
  - reflexivity.
  - simpl. now rewrite Hhw.
  - unfold ambiguousRoot. simpl. now rewrite Hom.
  - simpl. exact Hhw.
Qed.

Lemma start_url_admitted_witness :
  NewCrawler Sample.config 0 = Some Sample.crawler
  /\ IsInScope (client Sample.crawler)
       (url.URL_String (client_baseURL (client Sample.crawler))) = true.
Proof.
  split; [reflexivity|].
  apply (start_url_admitted Sample.config 0 Sample.crawler); reflexivity.
Defined.

Lemma relative_link_in_scope_witness :
  normalizeURL (parser Sample.crawler) "img/a.png" = "https://x.test/img/a.png"
  /\ IsInScope (client Sample.crawler)
       (normalizeURL (parser Sample.crawler) "img/a.png") = true.
Proof.
  split; [vm_compute; reflexivity|].
  eapply (relative_link_in_scope Sample.config 0 Sample.crawler "img/a.png");
    [reflexivity | reflexivity | discriminate | reflexivity
    | vm_compute; reflexivity | reflexivity].
Defined.


(** [Hostname] drops a port. *)
Lemma splitHostPort_port (h p : string) :
  allb (isNot ":") h = true -> strings.HasPrefix h "[" = false ->
  url.validOptionalPort p = true ->
  (url.splitHostPort (h ++ p)).1 = h.
Proof.
  intros Hh Hb Hp. unfold url.splitHostPort.
  destruct p as [|c rest].
  - rewrite append_nil_r, (LastIndexByte_none _ _ Hh), Hb. reflexivity.
  - simpl in Hp. apply andb_true_iff in Hp as [Hc Hd].
    apply Ascii.eqb_eq in Hc. subst c.
    rewrite (LastIndexByte_app _ _ _ (allDigits_no_colon _ Hd)).
    rewrite drop_app, take_app. simpl url.validOptionalPort.
    rewrite Hd. simpl. now rewrite Hb.
Qed.

(** The scope is a matter of the host name alone: for a host name without
    a colon that does not start with a bracket, a URL whose host is the
    host of the base URL, each with or without a port, is in scope,
    whatever its scheme, port, path and query are. *)
Theorem scope_ignores_port (cl : Client) (x : string) (u : url.URL)
    (h p1 p2 : string) :
  url.Parse x = Some u ->
  url.Host u = h ++ p1 -> url.Host (client_baseURL cl) = h ++ p2 ->
  url.validOptionalPort p1 = true -> url.validOptionalPort p2 = true ->
  allb (isNot ":") h = true -> strings.HasPrefix h "[" = false ->
  IsInScope cl x = true.
Proof.
  intros Hparse Hu Hbase Hp1 Hp2 Hh Hb.
  unfold IsInScope, url.Hostname. rewrite Hparse, Hu, Hbase.
  rewrite !splitHostPort_port by assumption. apply String.eqb_refl.
Qed.

Lemma scope_ignores_port_witness :
  IsInScope (client Sample.crawler) "http://x.test:8080/a?b=c" = true.
Proof.
  eapply (scope_ignores_port (client Sample.crawler) _ _ "x.test" ":8080"
            EmptyString); [vm_compute; reflexivity | reflexivity..].
Defined.

(** ** The requests of [Get] *)

Lemma chained_snoc (send : http.RoundTripper) (l : list url.URL)
    (a b : url.URL) :
  chained send (l ++ [a]) -> redirectsTo send a b ->
  chained send ((l ++ [a]) ++ [b]).
Proof.
  intros H Hab. induction l as [|x l IH].
  - simpl. auto.
  - destruct l as [|y l]; simpl in *.
    + destruct H as [Hxa _]. auto.
    + destruct H as [Hxy H]. split; [exact Hxy|]. exact (IH H).
Qed.

Lemma do_chained (chk : url.URL -> list url.URL -> bool)
    (send : http.RoundTripper) (fuel : nat) :
  forall reqs req res sent,
    http.do fuel chk send reqs req = Some (res, sent) ->
    chained send (reqs ++ [req]) ->
    chained send sent /\ (reqs ++ [req])%list `prefix_of` sent.
Proof.
  induction fuel as [|fuel IH]; intros reqs req res sent H Hc; [discriminate|].
  cbn [http.do] in H. cbv zeta in H.
  destruct (send (url.URL_String req)) as [resp|] eqn:Esend;
    [|injection H as <- <-; auto].
  destruct (http.shouldRedirect resp) eqn:Ered; simpl negb in H; cbv iota in H;
    [|injection H as <- <-; auto].
  destruct (String.eqb (http.Location resp) EmptyString);
    [injection H as <- <-; auto|].
  destruct (url.Parse (http.Location resp)) as [ref|] eqn:Eloc;
    [|injection H as <- <-; auto].
  destruct (chk _ _); [injection H as <- <-; auto|].
  apply IH in H as [H1 H2].
  - split; [exact H1|]. etrans; [|exact H2]. now apply prefix_app_r.
  - apply chained_snoc; [exact Hc|]. exists resp, ref. auto.
Qed.

(** [Get] only goes where it is sent: it sends nothing and returns an
    error, or the first request is the one [http.NewRequestWithContext]
    makes for the URL it was given, parsed and printed (the host is without
    the colon of an empty port), and every further request is for the
    [Location] of a redirect response to the request before, resolved
    against the URL of that request. *)
Theorem Get_follows_redirects (cl : Client) (ctxDone : bool)
    (send : http.RoundTripper) (urlStr : string)
    (res : http.result) (sent : list url.URL) :
  Get cl ctxDone send urlStr = Some (res, sent) ->
  (sent = [] /\ res = http.Err)
  \/ (exists u parsed rest,
        url.Parse urlStr = Some u
        /\ url.Parse (url.URL_String u) = Some parsed
        /\ sent = url.withAuthority parsed (url.User parsed)
                     (http.removeEmptyPort (url.Host parsed)) :: rest
        /\ chained send sent).
Proof.
  unfold Get, http.NewRequest. destruct ctxDone; [intros [= <- <-]; auto|].
  destruct (url.Parse urlStr) as [u|] eqn:Eu; [|intros [= <- <-]; auto].
  destruct (url.Parse (url.URL_String u)) as [parsed|] eqn:Ef;
    [|intros [= <- <-]; auto].
  intros H. right. apply do_chained in H as [Hc [rest ->]]; [|exact I].
  exists u, parsed, rest. repeat split; auto.
Qed.

Lemma Get_follows_redirects_witness :
  exists sent,
    Get (client Sample.crawler) false (Sample.chain 11) "https://x.test/r"
    = Some (http.Ok Sample.tenth, sent)
    /\ chained (Sample.chain 11) sent.
Proof.
  destruct Get_chain_returns_tenth_aux as (sent & H & _).
  exists sent. split; [exact H|].
  destruct (Get_follows_redirects _ _ _ _ _ _ H)
    as [[_ [=]]|(_ & _ & _ & _ & _ & _ & Hc)].
  exact Hc.
Defined.

(** ** The header flag of main.go *)

Lemma Split_app (a b : string) (sep : ascii) :
  strings.Split (a ++ String sep b) sep
  = (strings.Split a sep ++ strings.Split b sep)%list.
Proof.
  induction a as [|c a IH].
  - simpl. now rewrite Ascii.eqb_refl.
  - change (String c a ++ String sep b) with (String c (a ++ String sep b)).
    cbn [strings.Split]. rewrite IH.
    destruct (Ascii.eqb c sep); [reflexivity|].
    destruct (strings.Split a sep) as [|x xs] eqn:E; [|reflexivity].
    exfalso. clear -E. destruct a as [|d a]; simpl in E; [discriminate|].
    destruct (Ascii.eqb d sep); [discriminate|].
    destruct (strings.Split a sep); discriminate.
Qed.

Lemma Split_one (s : string) (sep : ascii) :
  allb (isNot sep) s = true -> strings.Split s sep = [s].
Proof.
  induction s as [|c s IH]; [reflexivity|]. simpl.
  unfold isNot at 1. rewrite andb_true_iff, negb_true_iff. intros [-> Hs].
  now rewrite (IH Hs).
Qed.

Lemma customHeaders_app (h item : string) :
  allb (isNot ",") item = true ->
  main.customHeaders (h ++ "," ++ item)
  = match main.SplitN2 item "=" with
    | [k; v] => <[k := v]> (main.customHeaders h)
    | _ => main.customHeaders h
    end.
Proof.
  intros Hitem. unfold main.customHeaders.
  assert (String.eqb (h ++ "," ++ item) EmptyString = false) as ->
    by (apply String.eqb_neq; destruct h; discriminate).
  simpl negb. cbv iota.
  change ("," ++ item) with (String "," item).
  rewrite Split_app, fold_left_app, (Split_one _ _ Hitem). simpl fold_left.
  destruct (String.eqb_spec h EmptyString) as [->|Hne]; [|reflexivity].
  reflexivity.
Qed.

Lemma withUserAgent_lookup (m : gmap string string) (k v : string) :
  m !! k = Some v -> main.withUserAgent m !! k = Some v.
Proof.
  intros H. unfold main.withUserAgent.
  destruct (m !! "User-Agent") eqn:E; [exact H|].
  rewrite lookup_insert_ne; [exact H|]. intros <-. congruence.
Qed.

(** The last pair for a key decides: a pair [key=value] at the end of the
    flag, with no comma in it and no equals sign in the key, is what the
    header map holds for the key, whatever came before; this includes
    [User-Agent].  The value may contain equals signs. *)
Theorem headers_last_pair_wins (h k v : string) :
  allb (isNot ",") k = true -> allb (isNot "=") k = true ->
  allb (isNot ",") v = true ->
  main.headerMapOf (h ++ "," ++ k ++ "=" ++ v) !! k = Some v
  /\ main.headerMapOf (k ++ "=" ++ v) !! k = Some v.
Proof.
  intros Hk1 Hk2 Hv.
  assert (main.SplitN2 (k ++ "=" ++ v) "=" = [k; v]) as Hsplit.
  { unfold main.SplitN2. change ("=" ++ v) with (String "=" v).
    now rewrite (Cut_app _ _ _ Hk2). }
  assert (allb (isNot ",") (k ++ "=" ++ v) = true) as Hitem
    by (rewrite !allb_app, Hk1, Hv; reflexivity).
  split.
  - unfold main.headerMapOf. rewrite (customHeaders_app _ _ Hitem), Hsplit.
    apply withUserAgent_lookup, lookup_insert_eq.
  - unfold main.headerMapOf, main.customHeaders.
    assert (String.eqb (k ++ "=" ++ v) EmptyString = false) as ->
      by (apply String.eqb_neq; destruct k; discriminate).
    simpl negb. cbv iota. rewrite (Split_one _ _ Hitem). cbn [fold_left].
    rewrite Hsplit. apply withUserAgent_lookup, lookup_insert_eq.
Qed.

Lemma headers_last_pair_wins_witness :
  main.headerMapOf "X-Id=1,User-Agent=probe/2,X-Id=a=b" !! "X-Id" = Some "a=b".
Proof.
  apply (headers_last_pair_wins "X-Id=1,User-Agent=probe/2" "X-Id" "a=b");
    reflexivity.
Defined.

(** An item without an equals sign is dropped: at the end of the flag it
    leaves the header map as it is without it. *)
Theorem headers_item_without_equals (h item : string) :
  allb (isNot ",") item = true -> allb (isNot "=") item = true ->
  main.headerMapOf (h ++ "," ++ item) = main.headerMapOf h.
Proof.
  intros H1 H2. unfold main.headerMapOf.
  rewrite (customHeaders_app _ _ H1). unfold main.SplitN2.
  now rewrite (Cut_none _ _ H2).
Qed.

Lemma headers_item_without_equals_witness :
  main.headerMapOf "X-Id=1,verbose" = main.headerMapOf "X-Id=1".
Proof. apply (headers_item_without_equals "X-Id=1" "verbose"); reflexivity. Defined.

(** A [User-Agent] header is always sent: the header map has the key
    [User-Agent] for every value of the flag, with the default
    [GoCreeper/1.0] exactly when the pairs of the flag do not set it, and
    the other keys are those of the flag. *)
Theorem headers_user_agent (h : string) :
  main.headerMapOf h !! "User-Agent"
  = Some (default "GoCreeper/1.0" (main.customHeaders h !! "User-Agent"))
  /\ (forall k, k <> "User-Agent" ->
                main.headerMapOf h !! k = main.customHeaders h !! k)
  /\ main.headerMapOf EmptyString = {["User-Agent" := "GoCreeper/1.0"]}.
Proof.
  unfold main.headerMapOf, main.withUserAgent. split; [|split].
  - destruct (main.customHeaders h !! "User-Agent") eqn:E; simpl;
      [exact E | apply lookup_insert_eq].
  - intros k Hk. destruct (main.customHeaders h !! "User-Agent");
      [reflexivity | now apply lookup_insert_ne].
  - reflexivity.
Qed.

(** ** The tree output of main.go *)

Lemma fold_byDepth_lookup (rs : list CrawlResult) (d : Z) :
  forall m : gmap Z (list CrawlResult),
    default [] (fold_left
                  (fun byDepth result =>
                     <[Depth result :=
                         (default [] (byDepth !! Depth result) ++ [result])%list]>
                       byDepth) rs m !! d)
    = (default [] (m !! d) ++ filter (fun r => Depth r = d) rs)%list.
Proof.
  induction rs as [|r rs IH]; intros m; simpl.
  - now rewrite app_nil_r.
  - rewrite IH. destruct (decide (Depth r = d)) as [E|E].
    + rewrite filter_cons_True by exact E. rewrite E, lookup_insert_eq.
      simpl. now rewrite <- app_assoc.
    + rewrite filter_cons_False by exact E.
      now rewrite lookup_insert_ne by exact E.
Qed.

(** The group of a depth holds the results of that depth in the order of
    arrival. *)
Lemma byDepthOf_lookup (rs : list CrawlResult) (d : Z) :
  default [] (main.byDepthOf rs !! d) = filter (fun r => Depth r = d) rs.
Proof. unfold main.byDepthOf. now rewrite fold_byDepth_lookup. Qed.

Lemma fold_maxDepth_ge (rs : list CrawlResult) :
  forall a : Z,
    a <= fold_left (fun maxDepth result =>
                      if Depth result >? maxDepth then Depth result
                      else maxDepth) rs a
    /\ Forall (fun r => Depth r
                        <= fold_left (fun maxDepth result =>
                                        if Depth result >? maxDepth
                                        then Depth result else maxDepth) rs a)
              rs.
Proof.
  induction rs as [|r rs IH]; intros a; simpl; [split; [lia|constructor]|].
  destruct (IH (if Depth r >? a then Depth r else a)) as [H1 H2].
  destruct (Depth r >? a) eqn:E; split; try constructor; auto; lia.
Qed.

Lemma maxDepthOf_ge (rs : list CrawlResult) :
  0 <= main.maxDepthOf rs
  /\ Forall (fun r => Depth r <= main.maxDepthOf rs) rs.
Proof. apply fold_maxDepth_ge. Qed.

Lemma filter_none {A} (P : A -> Prop) `{forall x, Decision (P x)}
    (l : list A) :
  Forall (fun x => ~ P x) l -> filter P l = [].
Proof.
  induction 1 as [|x l Hx _ IH]; [reflexivity|].
  now rewrite filter_cons_False.
Qed.

Lemma filter_ext_Forall {A} (P Q : A -> Prop) `{forall x, Decision (P x)}
    `{forall x, Decision (Q x)} (l : list A) :
  Forall (fun x => P x <-> Q x) l -> filter P l = filter Q l.
Proof.
  induction 1 as [|x l Hx _ IH]; [reflexivity|].
  destruct (decide (P x)) as [HP|HP].
  - rewrite !filter_cons_True by tauto. now rewrite IH.
  - rewrite !filter_cons_False by tauto. exact IH.
Qed.

(** Going through the groups of pairwise different depths gives every
    result of one of these depths once. *)
Lemma groups_Permutation (ds : list Z) (rs : list CrawlResult) :
  NoDup ds ->
  flat_map (fun d => filter (fun r => Depth r = d) rs) ds
  ≡ₚ filter (fun r => Depth r ∈ ds) rs.
Proof.
  induction 1 as [|d ds Hd _ IH]; simpl.
  - rewrite filter_none; [reflexivity|].
    apply Forall_forall. intros r _. apply not_elem_of_nil.
  - rewrite IH. clear IH. induction rs as [|r rs IHrs]; [reflexivity|].
    destruct (decide (Depth r = d)) as [E|E].
    + rewrite (filter_cons_True (fun r => Depth r = d)) by exact E.
      rewrite (filter_cons_False (fun r => Depth r ∈ ds)) by (rewrite E; exact Hd).
      rewrite (filter_cons_True (fun r => Depth r ∈ d :: ds))
        by (rewrite E; apply list_elem_of_here).
      simpl. now rewrite IHrs.
    + rewrite (filter_cons_False (fun r => Depth r = d)) by exact E.
      destruct (decide (Depth r ∈ ds)) as [Hin|Hin].
      * rewrite (filter_cons_True (fun r => Depth r ∈ ds)) by exact Hin.
        rewrite (filter_cons_True (fun r => Depth r ∈ d :: ds))
          by (now apply list_elem_of_further).
        rewrite <- Permutation_middle. now rewrite IHrs.
      * rewrite (filter_cons_False (fun r => Depth r ∈ ds)) by exact Hin.
        rewrite (filter_cons_False (fun r => Depth r ∈ d :: ds))
          by (rewrite elem_of_cons; tauto).
        exact IHrs.
Qed.

Lemma seqZ_sorted (k : nat) :
  forall m : Z, StronglySorted Z.lt (seqZ m (Z.of_nat k)).
Proof.
  induction k as [|k IH]; intros m; [constructor|].
  rewrite seqZ_cons by lia.
  replace (Z.pred (Z.of_nat (S k))) with (Z.of_nat k) by lia.
  constructor; [apply IH|].
  apply Forall_forall. intros x Hx. apply elem_of_seqZ in Hx. lia.
Qed.

Lemma same_depth_sorted (d : Z) (l : list CrawlResult) :
  Forall (fun r => Depth r = d) l ->
  StronglySorted (fun a b => Depth a <= Depth b) l.
Proof.
  induction 1 as [|x l Hx Hl IH]; constructor; [exact IH|].
  eapply Forall_impl; [exact Hl|]. simpl. intros y Hy. lia.
Qed.

Lemma groups_sorted (ds : list Z) (rs : list CrawlResult) :
  StronglySorted Z.lt ds ->
  StronglySorted (fun a b => Depth a <= Depth b)
    (flat_map (fun d => filter (fun r => Depth r = d) rs) ds).
Proof.
  induction 1 as [|d ds _ IH Hd]; simpl; [constructor|].
  apply StronglySorted_app_2; [|apply (same_depth_sorted d) | exact IH].
  - intros x y Hx Hy. apply list_elem_of_filter in Hx as [Hx _].
    apply list_elem_of_In, in_flat_map in Hy as (d' & Hd' & Hy).
    apply list_elem_of_In, list_elem_of_filter in Hy as [Hy _].
    apply list_elem_of_In in Hd'.
    eapply Forall_forall in Hd; [|exact Hd']. lia.
  - apply Forall_forall. intros x Hx.
    now apply list_elem_of_filter in Hx as [Hx _].
Qed.

(** Below 2^61 [strings.Repeat] gives the indentation of the depth. *)
Lemma Repeat_indent (depth : Z) :
  0 <= depth < 2 ^ 61 -> main.Repeat "  " depth = Some (main.indent depth).
Proof.
  intros H. unfold main.Repeat, main.indent.
  destruct (depth =? 0) eqn:E0.
  { apply Z.eqb_eq in E0. now subst. }
  destruct (depth =? 1) eqn:E1.
  { apply Z.eqb_eq in E1. now subst. }
  destruct (depth <? 0) eqn:E2; [lia|].
  destruct (main.maxInt / depth <=? _) eqn:E3; [|reflexivity].
  apply Z.leb_le in E3. change (Z.of_nat (String.length "  ")) with 2 in E3.
  assert (4 <= main.maxInt / depth); [|lia].
  apply Z.div_le_lower_bound; [lia|]. unfold main.maxInt. lia.
Qed.

Lemma treeLoop_bounded (byDepth : gmap Z (list CrawlResult)) (depths : list Z) :
  Forall (fun d => 0 <= d < 2 ^ 61) depths ->
  main.treeLoop byDepth depths
  = (flat_map (fun d => map (main.treeLine (main.indent d))
                            (default [] (byDepth !! d))) depths, true).
Proof.
  induction 1 as [|d ds Hd _ IH]; [reflexivity|].
  simpl. now rewrite (Repeat_indent d Hd), IH.
Qed.

(** When every depth is below 2^61 (where [strings.Repeat] accepts
    the indentation in every release of Go), [outputTree] comes to its end
    and prints every result of depth 0 or more exactly once and no other
    line: the lines are those of [treeOrder], which is a rearrangement of
    the results that are not of negative depth, in ascending order of
    depth. *)
Theorem outputTree_order (results : list CrawlResult) :
  Forall (fun r => Depth r < 2 ^ 61) results ->
  main.outputTree results
  = (map (fun r => main.treeLine (main.indent (Depth r)) r)
         (main.treeOrder results), true)
  /\ main.treeOrder results ≡ₚ filter (fun r => 0 <= Depth r) results
  /\ StronglySorted (fun a b => Depth a <= Depth b) (main.treeOrder results).
Proof.
  intros Hbound.
  destruct (maxDepthOf_ge results) as [Hmax Hall].
  assert (main.maxDepthOf results < 2 ^ 61) as Hlt.
  { clear Hmax Hall. unfold main.maxDepthOf.
    assert (forall a, a < 2 ^ 61 ->
              fold_left (fun maxDepth result =>
                           if Depth result >? maxDepth then Depth result
                           else maxDepth) results a < 2 ^ 61) as H.
    { induction Hbound as [|r rs Hr _ IH]; intros a Ha; simpl; [exact Ha|].
      apply IH. destruct (Depth r >? a); assumption. }
    apply H. lia. }
  unfold main.outputTree, main.treeOrder. split; [|split].
  - rewrite treeLoop_bounded.
    2:{ apply Forall_forall. intros d Hd. apply elem_of_seqZ in Hd. lia. }
    f_equal.
    induction (seqZ 0 (main.maxDepthOf results + 1)) as [|d ds IH];
      [reflexivity|].
    simpl. rewrite map_app, IH, byDepthOf_lookup. f_equal.
    apply map_ext_in. intros r Hr.
    apply list_elem_of_In, list_elem_of_filter in Hr as [<- _]. reflexivity.
  - rewrite groups_Permutation by apply NoDup_seqZ.
    erewrite filter_ext_Forall; [reflexivity|].
    eapply Forall_impl; [exact Hall|]. simpl. intros r Hr.
    rewrite elem_of_seqZ. lia.
  - apply groups_sorted.
    replace (main.maxDepthOf results + 1)
      with (Z.of_nat (Z.to_nat (main.maxDepthOf results + 1))) by lia.
    apply seqZ_sorted.
Qed.

(** Past the bound the loop does not come to its end: a result of depth
    2^62 makes [strings.Repeat] panic. *)
Lemma Repeat_panics (depth : Z) :
  2 ^ 62 <= depth -> main.Repeat "  " depth = None.
Proof.
  intros H. unfold main.Repeat.
  destruct (depth =? 0) eqn:E0; [lia|].
  destruct (depth =? 1) eqn:E1; [lia|].
  destruct (depth <? 0) eqn:E2; [reflexivity|].
  destruct (main.maxInt / depth <=? _) eqn:E3; [reflexivity|].
  apply Z.leb_gt in E3. change (Z.of_nat (String.length "  ")) with 2 in E3.
  assert (main.maxInt / depth < 2); [|lia].
  apply Z.div_lt_upper_bound; [lia|]. unfold main.maxInt. lia.
Qed.

Lemma outputTree_order_witness :
  main.outputTree [mkCrawlResult "https://x.test/a" 1 200 0 "html";
                   mkCrawlResult "https://x.test/" 0 200 0 "html";
                   mkCrawlResult "https://x.test/b" 1 404 0 "other"]
  = (map (fun r => main.treeLine (main.indent (Depth r)) r)
         (main.treeOrder
            [mkCrawlResult "https://x.test/a" 1 200 0 "html";
             mkCrawlResult "https://x.test/" 0 200 0 "html";
             mkCrawlResult "https://x.test/b" 1 404 0 "other"]), true).
Proof.
  refine (proj1 (outputTree_order _ _)).
  repeat constructor.
Defined.

(** ** The front page *)







(** A goroutine is about to call [Get] for a URL only after the three
    checks of [processURL]: the URL is in the visited set, the depth is at
    most [maxDepth], and the URL is in scope. *)
Theorem fetch_only_after_checks (html_Parse : string -> option html.Node)
    (c : Crawler) (st : State) (tid : nat) (th : Thread)
    (urlStr : string) (depth : Z) :
  Reachable html_Parse c st ->
  threads st !! tid = Some th -> pc th = PFetch urlStr depth ->
  urlStr ∈ visited st /\ depth <= maxDepth c
  /\ IsInScope (client c) urlStr = true.
Proof.
  intros Hst Ht Hpc.
  destruct (depthInv_Reachable html_Parse c st Hst) as [Hd _].
  destruct (claimInv_Reachable html_Parse c st Hst) as [_ Hv].
  pose proof (scopeInv_Reachable html_Parse c st Hst) as Hs.
  eapply Forall_lookup_1 in Hd; [|exact Ht].
  eapply Forall_lookup_1 in Hs; [|exact Ht].
  rewrite Hpc in Hd, Hs. simpl in Hd, Hs.
  split; [|split; [exact (Hd _ _ eq_refl) | exact (Hs _ _ eq_refl)]].
  eapply Forall_forall in Hv; [exact Hv|]. unfold claimed.
  apply elem_of_app. left. apply list_elem_of_In, in_flat_map.
  exists th. split; [apply list_elem_of_In; eapply list_elem_of_lookup_2, Ht|].
  unfold ownerOf. rewrite Hpc. simpl. auto.
Qed.

Lemma fetch_only_after_checks_witness :
  "https://x.test/"
    ∈ visited (Sample.after [AStep 0 ChQueue; AStep 0 ChNone])
  /\ IsInScope (client Sample.crawler) "https://x.test/" = true.
Proof.
  destruct (fetch_only_after_checks Sample.noHTML Sample.crawler
              (Sample.after [AStep 0 ChQueue; AStep 0 ChNone]) 0
              (mkThread Worker (PFetch "https://x.test/" 0))
              "https://x.test/" 0) as (H1 & _ & H3);
    [apply Sample_after_Reachable | reflexivity | reflexivity |].
  split; assumption.
Defined.
